(** * patriots-bot: a shallow embedding of [bot.py] and its properties

    The bot polls RSS feeds, keeps the entries whose title mentions the
    Patriots, drops the ones already posted (a set of SHA-256 fingerprints kept
    in [seen.txt]), composes a tweet of at most 280 characters and publishes
    it.  This file embeds the functions of [bot.py] and proves (or refutes)
    the properties stated about them.

    Python strings are sequences of Unicode code points, and [len] counts code
    points, so a [str] is a [list N] here.  Functions of the Python standard
    library whose behaviour is fixed by a few lines of code ([str.strip], the
    two regular expressions, [urllib.parse.urlparse], [hashlib.sha256]) are
    embedded as well; the ones that rest on the Unicode tables or on a long
    algorithm ([str.lower], [textwrap.shorten], the validity checks of a
    network location) are operations of the class [PyLib]. *)

From Stdlib Require Import NArith List String Ascii Lia Bool.
From stdpp Require Import base list gmap sorting.
Import ListNotations.

Local Open Scope N_scope.
Local Open Scope list_scope.

(** ** Python strings *)

Module Py.

(** A code point, and a [str]. *)
Abbreviation char := N (only parsing).
Abbreviation pystr := (list N) (only parsing).

(** An ASCII literal of the source, as a [str]. *)
Definition lit (s : string) : pystr := map N_of_ascii (list_ascii_of_string s).
Arguments lit s%_string.

(** [str.isspace] on one code point; the same set is [\s] of [re] on [str]
    patterns and what [str.strip()] and [str.split()] remove. *)
Definition isspace (c : char) : bool :=
  ((9 <=? c) && (c <=? 13)) || ((28 <=? c) && (c <=? 32))
  || (c =? 133) || (c =? 160) || (c =? 5760)
  || ((8192 <=? c) && (c <=? 8202))
  || (c =? 8232) || (c =? 8233) || (c =? 8239) || (c =? 8287) || (c =? 12288).

(** [s.lstrip(chars)], [s.rstrip(chars)], [s.strip(chars)], the set of
    characters given as a predicate. *)
Fixpoint lstrip_by (p : char -> bool) (s : pystr) : pystr :=
  match s with
  | c :: s' => if p c then lstrip_by p s' else s
  | [] => []
  end.

Fixpoint rstrip_by (p : char -> bool) (s : pystr) : pystr :=
  match s with
  | c :: s' =>
      match rstrip_by p s' with
      | [] => if p c then [] else [c]
      | r => c :: r
      end
  | [] => []
  end.

Definition strip_by (p : char -> bool) (s : pystr) : pystr :=
  rstrip_by p (lstrip_by p s).

(** [s.strip()] *)
Definition strip (s : pystr) : pystr := strip_by isspace s.

(** A string with no character of [p] at its left end, at its right end. *)
Definition no_lead (p : char -> bool) (s : pystr) : Prop :=
  match s with c :: _ => p c = false | [] => True end.
Definition no_trail (p : char -> bool) (s : pystr) : Prop := rstrip_by p s = s.

(** [x or ''] for an optional string: [None] and [''] both give ['']. *)
Definition or_empty (o : option pystr) : pystr :=
  match o with Some s => s | None => [] end.

(** [s.startswith(k)] *)
Fixpoint startswith (s k : pystr) {struct k} : bool :=
  match k, s with
  | [], _ => true
  | a :: k', b :: s' => (a =? b) && startswith s' k'
  | _ :: _, [] => false
  end.

(** [k in s] *)
Fixpoint contains (k s : pystr) : bool :=
  startswith s k ||
  match s with
  | _ :: s' => contains k s'
  | [] => false
  end.

(** [c in s] for one character *)
Definition has (c : char) (s : pystr) : bool := existsb (N.eqb c) s.

(** [s.isascii()] *)
Definition isascii (s : pystr) : bool := forallb (fun c => c <? 128) s.

(** [s.lower()] on an ASCII string *)
Definition ascii_lower_char (c : char) : char :=
  if (65 <=? c) && (c <=? 90) then c + 32 else c.
Definition ascii_lower (s : pystr) : pystr := map ascii_lower_char s.

End Py.
Import Py.

(** ** Library operations that are not embedded *)

(** [str_lower]: [str.lower], which follows the Unicode case tables (with the
    final-sigma rule, so it is not a map over characters).
    [textwrap_shorten text width placeholder]: [textwrap.shorten].
    [netloc_checks netloc]: whether [urlsplit] accepts a network location with
    brackets or non-ASCII characters ([_check_bracketed_netloc] and
    [_checknetloc], which raise [ValueError]). *)
Class PyLib := {
  str_lower : pystr -> pystr;
  textwrap_shorten : pystr -> nat -> pystr -> pystr;
  netloc_checks : pystr -> bool
}.

(** What the theorems below assume of the library, each where it needs it. *)

(** On ASCII strings [str.lower] maps [A-Z] to [a-z]. *)
Definition lower_ascii_ok (L : PyLib) : Prop :=
  forall s, isascii s = true -> str_lower s = ascii_lower s.

(** [textwrap.shorten] 'truncates the given text to fit in the given width'. *)
Definition shorten_fits (L : PyLib) : Prop :=
  forall text width placeholder,
    (length placeholder <= width)%nat ->
    (length (textwrap_shorten text width placeholder) <= width)%nat.

(** ** The fragment of [re] that [bot.py] uses

    Both patterns of the source are a sequence of character classes, each
    taken once or repeated greedily at least [n] times, with at most one
    capturing group around a repetition and an optional [$] at the end.  The
    matcher below backtracks the way [re] does: a repetition first takes as
    many characters as it can and gives them back one at a time. *)

Module Re.

Inductive item :=
| One (p : char -> bool)                  (* one character of the class *)
| AtLeast (n : nat) (p : char -> bool)    (* class{n,}, greedy *)
| Group (n : nat) (p : char -> bool).     (* (class{n,}), greedy, captured *)

Record pattern := Pattern { items : list item; dollar : bool }.

(** [$] outside MULTILINE mode: the end of the string, or just before a
    newline that ends the string. *)
Definition at_dollar (s : pystr) : bool :=
  match s with
  | [] => true
  | [c] => c =? 10
  | _ => false
  end.

Section Greedy.
Context {R : Type} (p : char -> bool) (n : nat) (k : pystr -> pystr -> option R).

(** [acc] holds the characters taken so far, last first. *)
Fixpoint greedy (acc s : pystr) : option R :=
  let stop := if (n <=? length acc)%nat then k (rev acc) s else None in
  match s with
  | c :: s' =>
      if p c then
        match greedy (c :: acc) s' with
        | Some r => Some r
        | None => stop
        end
      else stop
  | [] => stop
  end.
End Greedy.

(** A match of the items at the start of [s]: the captured groups and what is
    left of [s] after the match. *)
Fixpoint match_items (its : list item) (dol : bool) (caps : list pystr) (s : pystr)
  : option (list pystr * pystr) :=
  match its with
  | [] => if dol && negb (at_dollar s) then None else Some (caps, s)
  | One p :: its' =>
      match s with
      | c :: s' => if p c then match_items its' dol caps s' else None
      | [] => None
      end
  | AtLeast n p :: its' =>
      greedy p n (fun _ s' => match_items its' dol caps s') [] s
  | Group n p :: its' =>
      greedy p n (fun m s' => match_items its' dol (caps ++ [m]) s') [] s
  end.

Definition match_at (pat : pattern) (s : pystr) : option (list pystr * pystr) :=
  match_items (items pat) (dollar pat) [] s.

(** [re.search(pat, s)]: the leftmost position with a match; the result is
    the list of groups of that match. *)
Fixpoint search (pat : pattern) (s : pystr) : option (list pystr) :=
  match match_at pat s with
  | Some (caps, _) => Some caps
  | None =>
      match s with
      | _ :: s' => search pat s'
      | [] => None
      end
  end.

(** [re.sub(pat, '', s)]: every match, leftmost first and not overlapping, is
    deleted.  [skip] counts the characters of the current match that are
    still to be dropped. *)
Fixpoint sub_empty_from (pat : pattern) (skip : nat) (s : pystr) : pystr :=
  match s with
  | [] => []
  | c :: s' =>
      match skip with
      | S j => sub_empty_from pat j s'
      | O =>
          match match_at pat s with
          | Some (_, rest) =>
              match (length s - length rest)%nat with
              | O => c :: sub_empty_from pat 0 s'
              | S j => sub_empty_from pat j s'
              end
          | None => c :: sub_empty_from pat 0 s'
          end
      end
  end.

Definition sub_empty (pat : pattern) (s : pystr) : pystr := sub_empty_from pat 0 s.

(** The literal characters of a pattern. *)
Definition chars (s : pystr) : list item := map (fun c => One (N.eqb c)) s.

(** What a match is, without the order in which [re] tries things. *)
Inductive matches (dol : bool) : list item -> pystr -> pystr -> Prop :=
| matches_nil s :
    (dol = true -> at_dollar s = true) -> matches dol [] s s
| matches_one p its c s r :
    p c = true -> matches dol its s r -> matches dol (One p :: its) (c :: s) r
| matches_atleast n p its m s r :
    forallb p m = true -> (n <= length m)%nat -> matches dol its s r ->
    matches dol (AtLeast n p :: its) (m ++ s) r
| matches_group n p its m s r :
    forallb p m = true -> (n <= length m)%nat -> matches dol its s r ->
    matches dol (Group n p :: its) (m ++ s) r.

End Re.

(** ** Settings of [bot.py] *)

Definition MAX_POSTS_PER_RUN : nat := 4.
Definition DEFAULT_TAGS : pystr := lit " #Patriots #NFL".
Definition POST_IMAGES : bool := true.
Definition FEEDS : list pystr :=
  [ lit "https://www.patspulpit.com/rss/index.xml";
    lit "https://nesn.com/feed/";
    lit "https://patriotswire.usatoday.com/feed/";
    lit "https://www.nbcsportsboston.com/feed/" ].
Definition REWORD_PREFIXES : list pystr :=
  [ lit "Update:"; lit "Report:"; lit "New:"; lit "Latest:" ].

(** ** [looks_like_patriots] *)

Definition KEYWORDS : list pystr :=
  [ lit "patriot"; lit "new england"; lit "foxboro"; lit "gillette" ].

Definition looks_like_patriots `{PyLib} (title : option pystr) : bool :=
  let t := str_lower (or_empty title) in
  existsb (fun k => contains k t) KEYWORDS.

(** ** [clean_title] *)

(** The characters [-], en dash and em dash. *)
Definition is_dash (c : char) : bool := (c =? 45) || (c =? 8211) || (c =? 8212).

(** [\s*[-–—]\s*[^-–—]{2,}$] *)
Definition TRAILING_SITE : Re.pattern :=
  Re.Pattern
    [ Re.AtLeast 0 isspace; Re.One is_dash; Re.AtLeast 0 isspace;
      Re.AtLeast 2 (fun c => negb (is_dash c)) ]
    true.

Definition clean_title (t : option pystr) : pystr :=
  Re.sub_empty TRAILING_SITE (strip (or_empty t)).

(** ** [build_tweet] *)

Definition EM_DASH : char := 8212.
Definition NEWLINE : char := 10.

(** The text of one candidate: [f'{maybe} — {source}\n{url}{DEFAULT_TAGS}']. *)
Definition tweet_text (head source url : pystr) : pystr :=
  head ++ [32; EM_DASH; 32] ++ source ++ [NEWLINE] ++ url ++ DEFAULT_TAGS.

(** [f'{prefix} {title}'.strip()] *)
Definition with_prefix (prefix title : pystr) : pystr :=
  strip (prefix ++ [32] ++ title).

(** The [for] loop of [build_tweet]: the first candidate that fits. *)
Fixpoint first_fit (prefixes : list pystr) (title source url : pystr) : option pystr :=
  match prefixes with
  | [] => None
  | prefix :: rest =>
      let text := tweet_text (with_prefix prefix title) source url in
      if (length text <=? 280)%nat then Some text
      else first_fit rest title source url
  end.

Definition build_tweet `{PyLib} (title : option pystr) (source url : pystr) : pystr :=
  let title := clean_title title in
  match first_fit ([] :: REWORD_PREFIXES) title source url with
  | Some text => text
  | None =>
      let trimmed := textwrap_shorten title 200 (lit "...") in
      tweet_text trimmed source url
  end.

(** ** [str.encode('utf-8')] and [hashlib.sha256]

    A [str] can hold a lone surrogate (a code point from U+D800 to U+DFFF);
    [encode] with the strict error handler raises [UnicodeEncodeError] on it,
    and encodes every other character.  [None] stands for the exception. *)

Module Utf8.

Definition is_surrogate (c : char) : bool := (55296 <=? c) && (c <=? 57343).

(** The text can be encoded: it holds no surrogate. *)
Definition valid (s : pystr) : bool := forallb (fun c => negb (is_surrogate c)) s.

Definition encode_char (c : char) : list N :=
  if c <? 128 then [c]
  else if c <? 2048 then
    [N.lor 192 (N.shiftr c 6); N.lor 128 (N.land c 63)]
  else if c <? 65536 then
    [N.lor 224 (N.shiftr c 12); N.lor 128 (N.land (N.shiftr c 6) 63);
     N.lor 128 (N.land c 63)]
  else
    [N.lor 240 (N.shiftr c 18); N.lor 128 (N.land (N.shiftr c 12) 63);
     N.lor 128 (N.land (N.shiftr c 6) 63); N.lor 128 (N.land c 63)].

Definition encode (s : pystr) : option (list N) :=
  if valid s then Some (flat_map encode_char s) else None.

End Utf8.

Module Sha256.

(** 32-bit words are numbers below [2^32]. *)
Definition w32 (x : N) : N := N.land x 4294967295.
Definition add32 (x y : N) : N := w32 (x + y).
Definition rotr (x n : N) : N := w32 (N.lor (N.shiftr x n) (N.shiftl x (32 - n))).

Definition ch (x y z : N) : N := N.lxor (N.land x y) (N.land (N.lxor x 4294967295) z).
Definition maj (x y z : N) : N :=
  N.lxor (N.lxor (N.land x y) (N.land x z)) (N.land y z).
Definition bsig0 (x : N) : N := N.lxor (N.lxor (rotr x 2) (rotr x 13)) (rotr x 22).
Definition bsig1 (x : N) : N := N.lxor (N.lxor (rotr x 6) (rotr x 11)) (rotr x 25).
Definition ssig0 (x : N) : N := N.lxor (N.lxor (rotr x 7) (rotr x 18)) (N.shiftr x 3).
Definition ssig1 (x : N) : N := N.lxor (N.lxor (rotr x 17) (rotr x 19)) (N.shiftr x 10).

Definition K : list N :=
  [ 1116352408; 1899447441; 3049323471; 3921009573; 961987163; 1508970993;
    2453635748; 2870763221; 3624381080; 310598401; 607225278; 1426881987;
    1925078388; 2162078206; 2614888103; 3248222580; 3835390401; 4022224774;
    264347078; 604807628; 770255983; 1249150122; 1555081692; 1996064986;
    2554220882; 2821834349; 2952996808; 3210313671; 3336571891; 3584528711;
    113926993; 338241895; 666307205; 773529912; 1294757372; 1396182291;
    1695183700; 1986661051; 2177026350; 2456956037; 2730485921; 2820302411;
    3259730800; 3345764771; 3516065817; 3600352804; 4094571909; 275423344;
    430227734; 506948616; 659060556; 883997877; 958139571; 1322822218;
    1537002063; 1747873779; 1955562222; 2024104815; 2227730452; 2361852424;
    2428436474; 2756734187; 3204031479; 3329325298 ].

Record state := State { ha : N; hb : N; hc : N; hd : N; he : N; hf : N; hg : N; hh : N }.

Definition H0 : state :=
  State 1779033703 3144134277 1013904242 2773480762
        1359893119 2600822924 528734635 1541459225.

(** The message with its padding: a [1] bit, zeros, and the length in bits as
    a 64-bit big-endian number, up to a multiple of 64 bytes. *)
Definition be_bytes (count : nat) (x : N) : list N :=
  map (fun i => N.land (N.shiftr x (8 * N.of_nat i)) 255) (rev (seq 0 count)).

Definition pad (msg : list N) : list N :=
  let len := length msg in
  let zeros := ((64 - (len + 9) mod 64) mod 64)%nat in
  msg ++ [128] ++ repeat 0 zeros ++ be_bytes 8 (8 * N.of_nat len).

Fixpoint words (count : nat) (bytes : list N) : list N :=
  match count, bytes with
  | S j, b0 :: b1 :: b2 :: b3 :: rest =>
      (N.shiftl b0 24 + N.shiftl b1 16 + N.shiftl b2 8 + b3) :: words j rest
  | _, _ => []
  end.

(** The message schedule, extended from 16 to 64 words. *)
Fixpoint extend (count : nat) (w : list N) : list N :=
  match count with
  | O => w
  | S j =>
      let i := length w in
      let x := add32 (add32 (ssig1 (nth (i - 2) w 0)) (nth (i - 7) w 0))
                     (add32 (ssig0 (nth (i - 15) w 0)) (nth (i - 16) w 0)) in
      extend j (w ++ [x])
  end.

Definition round (s : state) (kw : N * N) : state :=
  let t1 := add32 (add32 (add32 (hh s) (bsig1 (he s))) (ch (he s) (hf s) (hg s)))
                  (add32 (fst kw) (snd kw)) in
  let t2 := add32 (bsig0 (ha s)) (maj (ha s) (hb s) (hc s)) in
  State (add32 t1 t2) (ha s) (hb s) (hc s) (add32 (hd s) t1) (he s) (hf s) (hg s).

Definition compress (s : state) (block : list N) : state :=
  let w := extend 48 (words 16 block) in
  let r := fold_left round (combine K w) s in
  State (add32 (ha s) (ha r)) (add32 (hb s) (hb r)) (add32 (hc s) (hc r))
        (add32 (hd s) (hd r)) (add32 (he s) (he r)) (add32 (hf s) (hf r))
        (add32 (hg s) (hg r)) (add32 (hh s) (hh r)).

Fixpoint blocks (count : nat) (s : state) (bytes : list N) : state :=
  match count with
  | O => s
  | S j => blocks j (compress s (firstn 64 bytes)) (skipn 64 bytes)
  end.

Definition digest (msg : list N) : state :=
  let p := pad msg in blocks (length p / 64) H0 p.

(** One hexadecimal digit, in lower case. *)
Definition hexdigit (d : N) : char := if d <? 10 then 48 + d else 87 + d.

Definition hex8 (x : N) : pystr :=
  map (fun i => hexdigit (N.land (N.shiftr x (4 * N.of_nat i)) 15)) (rev (seq 0 8)).

(** [hashlib.sha256(msg).hexdigest()] *)
Definition hexdigest (msg : list N) : pystr :=
  let s := digest msg in
  hex8 (ha s) ++ hex8 (hb s) ++ hex8 (hc s) ++ hex8 (hd s) ++
  hex8 (he s) ++ hex8 (hf s) ++ hex8 (hg s) ++ hex8 (hh s).

End Sha256.

(** ** [urllib.parse.urlparse], as far as [normalize_url] reads it *)

Module Url.

(** [s.partition(c)]: the part before the first [c], and the part after it
    when there is one. *)
Fixpoint partition (c : char) (s : pystr) : pystr * option pystr :=
  match s with
  | [] => ([], None)
  | x :: s' =>
      if x =? c then ([], Some s')
      else let (a, b) := partition c s' in (x :: a, b)
  end.

(** [s.replace(b, '')] for each [b] of [_UNSAFE_URL_BYTES_TO_REMOVE]. *)
Definition is_unsafe (c : char) : bool := (c =? 9) || (c =? 13) || (c =? 10).
Definition remove_unsafe (s : pystr) : pystr :=
  List.filter (fun c => negb (is_unsafe c)) s.

(** [_WHATWG_C0_CONTROL_OR_SPACE] *)
Definition is_c0_or_space (c : char) : bool := c <=? 32.

Definition is_ascii_alpha (c : char) : bool :=
  ((65 <=? c) && (c <=? 90)) || ((97 <=? c) && (c <=? 122)).

(** [c in scheme_chars] *)
Definition is_scheme_char (c : char) : bool :=
  is_ascii_alpha c || ((48 <=? c) && (c <=? 57)) || (c =? 43) || (c =? 45) || (c =? 46).

(** The scheme of [url] and the rest, as [urlsplit] reads them: the part
    before the first [:] when it is not empty, starts with a letter and holds
    scheme characters only. *)
Definition split_scheme (url : pystr) : pystr * pystr :=
  match partition 58 url with
  | (c :: before, Some after) =>
      if is_ascii_alpha c && forallb is_scheme_char (c :: before)
      then (ascii_lower (c :: before), after)
      else ([], url)
  | _ => ([], url)
  end.

(** One of [/], [?], [#]. *)
Definition is_delim (c : char) : bool := (c =? 47) || (c =? 63) || (c =? 35).

(** [_splitnetloc(url, 2)] for a [url] that starts with [//]: the domain runs
    to the first delimiter. *)
Fixpoint until_delim (s : pystr) : pystr * pystr :=
  match s with
  | [] => ([], [])
  | c :: s' =>
      if is_delim c then ([], s)
      else let (a, b) := until_delim s' in (c :: a, b)
  end.

(** The checks of [urlsplit] on the network location; [false] is a
    [ValueError]. *)
Definition netloc_ok `{PyLib} (netloc : pystr) : bool :=
  if xorb (has 91 netloc) (has 93 netloc) then false
  else if negb (has 91 netloc) && isascii netloc then true
  else netloc_checks netloc.

Record split_result := SplitResult {
  scheme : pystr; netloc : pystr; path : pystr; query : pystr; fragment : pystr
}.

(** The first lines of [urlsplit]: leading C0 controls and spaces go, and
    tabs and newlines go wherever they are. *)
Definition sanitize (url : pystr) : pystr :=
  remove_unsafe (lstrip_by is_c0_or_space url).

(** [url[:2] == '//'] *)
Definition starts_slashes (url : pystr) : bool :=
  match url with
  | a :: b :: _ => (a =? 47) && (b =? 47)
  | _ => false
  end.

(** The network location, when the text after the scheme starts with [//]:
    the location, the rest, and whether the location passes the checks. *)
Definition split_netloc `{PyLib} (url : pystr) : pystr * pystr * bool :=
  if starts_slashes url then
    let (netloc, rest) := until_delim (skipn 2 url) in
    (netloc, rest, netloc_ok netloc)
  else ([], url, true).

(** [url, fragment = url.split('#', 1)] and then
    [url, query = url.split('?', 1)], each when the character is there. *)
Definition fragment_of (url : pystr) : pystr := or_empty (snd (partition 35 url)).
Definition query_of (url : pystr) : pystr :=
  or_empty (snd (partition 63 (fst (partition 35 url)))).
Definition path_of (url : pystr) : pystr :=
  fst (partition 63 (fst (partition 35 url))).

(** [urlsplit] on the sanitized text. *)
Definition split_clean `{PyLib} (url : pystr) : option split_result :=
  let (scheme, url) := split_scheme url in
  let '(netloc, url, ok) := split_netloc url in
  if ok then
    Some (SplitResult scheme netloc (path_of url) (query_of url) (fragment_of url))
  else None.

Definition urlsplit `{PyLib} (url : pystr) : option split_result :=
  split_clean (sanitize url).

Definition uses_params : list pystr :=
  [ []; lit "ftp"; lit "hdl"; lit "prospero"; lit "http"; lit "imap";
    lit "https"; lit "shttp"; lit "rtsp"; lit "rtspu"; lit "sip"; lit "sips";
    lit "mms"; lit "sftp"; lit "tel" ].

(** [s.rpartition('/')], keeping the slash with the head: [None] when [s] has
    no slash. *)
Fixpoint rsplit_slash (s : pystr) : option (pystr * pystr) :=
  match s with
  | [] => None
  | c :: s' =>
      match rsplit_slash s' with
      | Some (h, t) => Some (c :: h, t)
      | None => if c =? 47 then Some ([c], s') else None
      end
  end.

(** [_splitparams]: the first [;] after the last [/] ends the path. *)
Definition splitparams (url : pystr) : pystr * pystr :=
  match rsplit_slash url with
  | Some (h, t) =>
      match partition 59 t with
      | (a, Some b) => (h ++ a, b)
      | (_, None) => (url, [])
      end
  | None =>
      match partition 59 url with
      | (a, Some b) => (a, b)
      | (_, None) => (url, [])
      end
  end.

(** What follows the last [/] of [s]; all of [s] when it has none. *)
Definition last_segment (s : pystr) : pystr :=
  match rsplit_slash s with Some (_, t) => t | None => s end.

Record parse_result := ParseResult {
  p_scheme : pystr; p_netloc : pystr; p_path : pystr; p_params : pystr;
  p_query : pystr; p_fragment : pystr
}.

(** The path and the parameters: [_splitparams] applies when the scheme is
    one of [uses_params] and the path has a [;]. *)
Definition path_and_params (scheme path : pystr) : pystr * pystr :=
  if existsb (fun s => bool_decide (s = scheme)) uses_params && has 59 path
  then splitparams path else (path, []).

Definition urlparse `{PyLib} (url : pystr) : option parse_result :=
  match urlsplit url with
  | Some r =>
      let (url, params) := path_and_params (scheme r) (path r) in
      Some (ParseResult (scheme r) (netloc r) url params (query r) (fragment r))
  | None => None
  end.

End Url.

(** ** [normalize_url] and [item_hash] *)

Definition normalize_url `{PyLib} (u : pystr) : pystr :=
  match Url.urlparse u with
  | Some p =>
      rstrip_by (N.eqb 47)
        (Url.p_scheme p ++ lit "://" ++ Url.p_netloc p ++ Url.p_path p)
  | None => u
  end.

(** [None] when [raw.encode] raises [UnicodeEncodeError]. *)
Definition item_hash `{PyLib} (title : option pystr) (url : pystr) : option pystr :=
  let norm := normalize_url url in
  let key := str_lower (strip (or_empty title)) in
  let raw := norm ++ lit "|" ++ key in
  match Utf8.encode raw with
  | Some bytes => Some (Sha256.hexdigest bytes)
  | None => None
  end.

(** ** Feed entries and [extract_image_url]

    An entry is the dictionary [feedparser] builds; a field is [None] when the
    key is missing.  The values have the types [feedparser] gives them. *)

Record media_item := MediaItem { media_url : option pystr }.
Record link_item := LinkItem {
  link_rel : option pystr; link_type : option pystr; link_href : option pystr
}.
Record content_item := ContentItem { content_value : option pystr }.
Record entry := Entry {
  entry_title : option pystr;
  entry_link : option pystr;
  entry_media_content : option (list media_item);
  entry_links : option (list link_item);
  entry_media_thumbnail : option (list media_item);
  entry_content : option (list content_item);
  entry_summary : option pystr
}.

(** The truth value of an optional string: [None] and [''] are false. *)
Definition truthy (o : option pystr) : bool :=
  match o with Some (_ :: _) => true | _ => false end.

(** The pattern [<img[^>]+src=Q([^Q]+)Q], where [Q] stands for the double quote. *)
Definition IMG_SRC : Re.pattern :=
  Re.Pattern
    (Re.chars (lit "<img") ++ [Re.AtLeast 1 (fun c => negb (c =? 62))] ++
     Re.chars (lit "src=" ++ [34]) ++ [Re.Group 1 (fun c => negb (c =? 34))] ++
     Re.chars [34])
    false.

(** [m = re.search(IMG_SRC, html)] and [m.group(1)] when there is a match. *)
Definition img_src (html : pystr) : option pystr :=
  match Re.search IMG_SRC html with
  | Some (g :: _) => Some g
  | _ => None
  end.

(** [media = entry.get(key) or []] and the test
    [media and media[0].get('url')], which returns [media[0]['url']]. *)
Definition first_media_url (field : option (list media_item)) : option pystr :=
  match field with
  | Some (m :: _) => if truthy (media_url m) then media_url m else None
  | _ => None
  end.

(** The loop over [entry.get('links', [])]: [Some r] when the loop returns
    [r], which is [link.get('href')] of the first image enclosure. *)
Fixpoint first_enclosure (links : list link_item) : option (option pystr) :=
  match links with
  | [] => None
  | l :: rest =>
      if bool_decide (link_rel l = Some (lit "enclosure"))
         && contains (lit "image") (or_empty (link_type l))
      then Some (link_href l)
      else first_enclosure rest
  end.

Definition content_img (field : option (list content_item)) : option pystr :=
  match field with
  | Some (c :: _) => img_src (or_empty (content_value c))
  | _ => None
  end.

Definition extract_image_url (e : entry) : option pystr :=
  match first_media_url (entry_media_content e) with
  | Some u => Some u
  | None =>
  match first_enclosure (default [] (entry_links e)) with
  | Some r => r
  | None =>
  match first_media_url (entry_media_thumbnail e) with
  | Some u => Some u
  | None =>
  match content_img (entry_content e) with
  | Some u => Some u
  | None => img_src (or_empty (entry_summary e))
  end end end end.

(** ** The seen-set store: [load_seen] and [save_seen]

    [seen.txt] is [None] when the file does not exist, and its text
    otherwise.  The file is opened in text mode, so reading translates
    [\r\n] and [\r] to [\n].  The text is what decoding the file as UTF-8
    gives, so the text of a file on disk holds no surrogate: [decoded]. *)

Definition decoded (file : option pystr) : bool :=
  match file with
  | Some text => Utf8.valid text
  | None => true
  end.

Fixpoint universal_newlines (s : pystr) : pystr :=
  match s with
  | [] => []
  | c :: s' =>
      if c =? 13 then
        10 :: match s' with
              | d :: s'' => if d =? 10 then universal_newlines s''
                            else universal_newlines s'
              | [] => []
              end
      else c :: universal_newlines s'
  end.

(** [for line in f]: the lines of the text, each with its newline. *)
Fixpoint file_lines (s : pystr) : list pystr :=
  match s with
  | [] => []
  | c :: s' =>
      if c =? 10 then [c] :: file_lines s'
      else match file_lines s' with
           | [] => [[c]]
           | l :: ls => (c :: l) :: ls
           end
  end.

Definition nonempty (s : pystr) : bool :=
  match s with [] => false | _ => true end.

Definition load_seen (file : option pystr) : gset (list N) :=
  match file with
  | None => ∅
  | Some text =>
      list_to_set
        (List.filter nonempty (map strip (file_lines (universal_newlines text))))
  end.

(** The order of [str]: by code points, a proper prefix first. *)
Fixpoint str_leb (a b : pystr) : bool :=
  match a, b with
  | [], _ => true
  | _ :: _, [] => false
  | x :: a', y :: b' =>
      if x <? y then true else if y <? x then false else str_leb a' b'
  end.

Definition str_le (a b : pystr) : Prop := str_leb a b = true.

#[global] Instance str_le_dec : RelDecision str_le.
Proof. intros a b. unfold str_le. apply _. Defined.

(** [sorted(seen)] *)
Definition sorted (seen : gset (list N)) : list pystr :=
  merge_sort str_le (elements seen).

(** [for h in hs: f.write(h + '\n')] on the file opened for writing: the
    text that is in the file when the [with] block is left, and [false] when
    a write raised [UnicodeEncodeError].  The lines written before the one
    that cannot be encoded are in the file. *)
Fixpoint write_lines (hs : list pystr) : pystr * bool :=
  match hs with
  | [] => ([], true)
  | h :: hs' =>
      match Utf8.encode (h ++ [10]) with
      | Some _ => let (text, ok) := write_lines hs' in (h ++ [10] ++ text, ok)
      | None => ([], false)
      end
  end.

(** What [save_seen] leaves in [seen.txt], and [false] when it raised. *)
Definition save_seen (seen : gset (list N)) : pystr * bool :=
  write_lines (sorted seen).

(** ** [run_bot]

    The feeds, the image upload and the tweet are calls to the outside; [W]
    is the state of the outside, which each call may read and change. *)

Record parsed_feed := ParsedFeed { feed_title : option pystr; entries : list entry }.

(** [create_tweet] returns, or raises [tweepy.errors.Forbidden], or raises
    another [Exception]. *)
Inductive outcome := Posted | Forbidden | Failed.

Class World (W : Type) := {
  feedparser_parse : pystr -> W -> parsed_feed * W;
  upload_image_to_x : pystr -> W -> option pystr * W;
  create_tweet : pystr -> option (list pystr) -> W -> outcome * W
}.

(** The calls a run makes, oldest first.  [EvTweet] also records the
    fingerprint of the entry the tweet is for. *)
Inductive event :=
| EvParse (feed_url : pystr)
| EvUpload (image_url : pystr)
| EvTweet (h : pystr) (text : pystr) (media_ids : option (list pystr)) (r : outcome).

(** [raised] is set when an exception has left [run_bot]: the
    [UnicodeEncodeError] of [item_hash] or of [save_seen].  Nothing in
    [run_bot] catches it, so the run ends there. *)
Record run_state (W : Type) := RunState {
  world : W;
  seen : gset (list N);
  posted : nat;
  trace : list event;
  raised : bool
}.
Arguments RunState {W}.
Arguments world {W}.
Arguments seen {W}.
Arguments posted {W}.
Arguments trace {W}.
Arguments raised {W}.

Definition raise {W : Type} (st : run_state W) : run_state W :=
  RunState (world st) (seen st) (posted st) (trace st) true.

(** [time.sleep] and the log lines change nothing that the loop reads, and
    are left out. *)
Section Run.
Context `{PyLib} {W : Type} `{World W}.

(** The image part of the loop body: the media ids for the tweet. *)
Definition attach_image (e : entry) (st : run_state W)
  : option (list pystr) * run_state W :=
  if POST_IMAGES then
    match extract_image_url e with
    | Some (c :: img) =>
        let (mid, w) := upload_image_to_x (c :: img) (world st) in
        let st' := RunState w (seen st) (posted st) (trace st ++ [EvUpload (c :: img)])
                            (raised st) in
        match mid with
        | Some (d :: m) => (Some [d :: m], st')
        | _ => (None, st')
        end
    | _ => (None, st)
    end
  else (None, st).

(** The body of the inner loop, after the check of the counter.  When
    [item_hash] raises, nothing has been called yet for the entry. *)
Definition process_entry (source : pystr) (e : entry) (st : run_state W)
  : run_state W :=
  let title := strip (or_empty (entry_title e)) in
  let link := strip (or_empty (entry_link e)) in
  if negb (nonempty title) || negb (nonempty link) then st
  else if negb (looks_like_patriots (Some title)) then st
  else
    match item_hash (Some title) link with
    | None => raise st
    | Some h =>
    if bool_decide (h ∈ seen st) then st
    else
      let tweet_text := build_tweet (Some title) source link in
      let (media_ids, st1) := attach_image e st in
      let (r, w) := create_tweet tweet_text media_ids (world st1) in
      let tr := trace st1 ++ [EvTweet h tweet_text media_ids r] in
      match r with
      | Posted => RunState w ({[ h ]} ∪ seen st1) (S (posted st1)) tr (raised st1)
      | Forbidden | Failed => RunState w (seen st1) (posted st1) tr (raised st1)
      end
    end.

(** [for entry in parsed.entries[:12]]; an exception in the body leaves the
    loop. *)
Fixpoint entry_loop (source : pystr) (es : list entry) (st : run_state W)
  : run_state W :=
  match es with
  | [] => st
  | e :: es' =>
      if (MAX_POSTS_PER_RUN <=? posted st)%nat then st
      else
        let st' := process_entry source e st in
        if raised st' then st' else entry_loop source es' st'
  end.

(** [for feed_url in FEEDS]; an exception in the inner loop leaves this
    loop too. *)
Fixpoint feed_loop (feeds : list pystr) (st : run_state W) : run_state W :=
  match feeds with
  | [] => st
  | feed_url :: feeds' =>
      if (MAX_POSTS_PER_RUN <=? posted st)%nat then st
      else
        let (parsed, w) := feedparser_parse feed_url (world st) in
        let source := default (lit "Source") (feed_title parsed) in
        let st1 := RunState w (seen st) (posted st) (trace st ++ [EvParse feed_url])
                            (raised st) in
        let st2 := entry_loop source (firstn 12 (entries parsed)) st1 in
        if raised st2 then st2 else feed_loop feeds' st2
  end.

(** A run over the feeds [feeds]: [seen.txt] after it, and the final state.
    When the loops raised, [save_seen] is not reached and the file is as it
    was; else the file is what [save_seen] left, and the state is raised
    when [save_seen] raised. *)
Definition run_bot_on (feeds : list pystr) (file : option pystr) (w : W)
  : option pystr * run_state W :=
  let st := feed_loop feeds (RunState w (load_seen file) 0 [] false) in
  if raised st then (file, st)
  else
    let (text, ok) := save_seen (seen st) in
    (Some text, if ok then st else raise st).

Definition run_bot (file : option pystr) (w : W) : option pystr * run_state W :=
  run_bot_on FEEDS file w.
End Run.

(** The fingerprints of the tweets that went out, and of all the attempts. *)
Definition posted_hashes (tr : list event) : list pystr :=
  flat_map (fun ev => match ev with EvTweet h _ _ Posted => [h] | _ => [] end) tr.

Definition attempted_hashes (tr : list event) : list pystr :=
  flat_map (fun ev => match ev with EvTweet h _ _ _ => [h] | _ => [] end) tr.

(** A fingerprint that [seen.txt] gives back as it was written: not empty,
    stripped, and without a line break inside. *)
Definition storable (h : pystr) : Prop :=
  h <> [] /\ strip h = h /\ ~ In 10 h /\ ~ In 13 h.

(** An entry whose image enclosure has an empty [href], and a thumbnail. *)
Definition enclosure_without_href : entry :=
  Entry (Some (lit "Patriots win")) (Some (lit "https://x.com/a"))
        None
        (Some [LinkItem (Some (lit "enclosure")) (Some (lit "image/jpeg")) (Some [])])
        (Some [MediaItem (Some (lit "https://x.com/t.jpg"))])
        None None.

(** ** The statements of the specification, written out for comparison *)

(** The text composer without the reword prefixes: the unprefixed candidate
    when it fits 280 characters, else the fallback with the shortened title. *)
Definition build_tweet_simplified `{PyLib} (title : option pystr) (source url : pystr)
  : pystr :=
  let cleaned := clean_title title in
  let candidate := tweet_text cleaned source url in
  if (length candidate <=? 280)%nat then candidate
  else tweet_text (textwrap_shorten cleaned 200 (lit "...")) source url.

(** The image resolver as the specification words it: five sources in
    priority order, the result is the first that yields a non-empty URL. *)
Definition is_image_enclosure (l : link_item) : bool :=
  bool_decide (link_rel l = Some (lit "enclosure"))
  && contains (lit "image") (or_empty (link_type l)).

Definition image_sources (e : entry) : list (option pystr) :=
  [ match entry_media_content e with Some (m :: _) => media_url m | _ => None end;
    List.find truthy
      (map link_href (List.filter is_image_enclosure (default [] (entry_links e))))
      ≫= id;
    match entry_media_thumbnail e with Some (m :: _) => media_url m | _ => None end;
    content_img (entry_content e);
    img_src (or_empty (entry_summary e)) ].

Definition resolve_image_spec (e : entry) : option pystr :=
  List.find truthy (image_sources e) ≫= id.

(** ** A reference library

    An instance of [PyLib] that can be run: [str.lower] on the letters [A-Z]
    only, [textwrap.shorten] cutting between whole words (the library also
    cuts after a hyphen inside a word), and no network location refused.  On
    ASCII text without hyphens it gives what CPython 3.11 gives. *)

Module RefLib.

(** [s.split()] *)
Fixpoint split_ws (s : pystr) : list pystr :=
  match s with
  | [] => []
  | c :: s' =>
      if isspace c then
        match split_ws s' with
        | [] :: ws => [] :: ws
        | ws => [] :: ws
        end
      else
        match split_ws s' with
        | w :: ws => (c :: w) :: ws
        | [] => [[c]]
        end
  end.

Definition words (s : pystr) : list pystr := List.filter nonempty (split_ws s).

(** [' '.join(ws)] *)
Fixpoint join_space (ws : list pystr) : pystr :=
  match ws with
  | [] => []
  | [w] => w
  | w :: ws' => w ++ [32] ++ join_space ws'
  end.

(** The longest line of whole words that leaves room for the placeholder. *)
Fixpoint fit_words (width : nat) (ph line : pystr) (ws : list pystr) : pystr :=
  match ws with
  | [] => line
  | w :: ws' =>
      let line' := line ++ [32] ++ w in
      if (length line' + length ph <=? width)%nat
      then fit_words width ph line' ws' else line
  end.

Definition shorten (text : pystr) (width : nat) (ph : pystr) : pystr :=
  match words text with
  | [] => []
  | w :: ws =>
      let full := join_space (w :: ws) in
      if (length full <=? width)%nat then full
      else if (length w + length ph <=? width)%nat
           then fit_words width ph w ws ++ ph
           else lstrip_by isspace ph
  end.

Definition lib : PyLib :=
  {| str_lower := ascii_lower;
     textwrap_shorten := shorten;
     netloc_checks := fun _ => true |}.

End RefLib.

(** ** Words for the statements about a run *)

(** The title and the link the loop body works with. *)
Definition entry_title_text (e : entry) : pystr := strip (or_empty (entry_title e)).
Definition entry_link_text (e : entry) : pystr := strip (or_empty (entry_link e)).

(** An entry that passes the two filters of the loop body. *)
Definition relevant_entry `{PyLib} (e : entry) : bool :=
  nonempty (entry_title_text e) && nonempty (entry_link_text e)
  && looks_like_patriots (Some (entry_title_text e)).

(** Its fingerprint, [None] when [item_hash] raises. *)
Definition entry_hash `{PyLib} (e : entry) : option pystr :=
  item_hash (Some (entry_title_text e)) (entry_link_text e).

(** The feeds give the same data [D] whenever they are read. *)
Definition feeds_fixed {W : Type} `{World W} (D : pystr -> parsed_feed) : Prop :=
  forall url w, fst (feedparser_parse url w) = D url.

(** The publish collaborator always succeeds. *)
Definition always_posts {W : Type} `{World W} : Prop :=
  forall text media_ids w, fst (create_tweet text media_ids w) = Posted.

(** An entry of the data that a run looks at: one of the first 12 of a feed. *)
Definition in_feeds (D : pystr -> parsed_feed) (feeds : list pystr) (e : entry) : Prop :=
  exists url, In url feeds /\ In e (firstn 12 (entries (D url))).

(** What holds of the state all along a run that started with the seen-set
    [S0] and an empty trace. *)
Record run_inv {W : Type} (S0 : gset (list N)) (st : run_state W) : Prop := RunInv {
  inv_posted : posted st = length (posted_hashes (trace st));
  inv_cap : (posted st <= MAX_POSTS_PER_RUN)%nat;
  inv_seen : seen st = S0 ∪ list_to_set (posted_hashes (trace st));
  inv_nodup : NoDup (posted_hashes (trace st));
  inv_fresh : forall h, In h (attempted_hashes (trace st)) -> h ∉ S0;
  inv_last : posted st = MAX_POSTS_PER_RUN ->
             exists tr h text m, trace st = tr ++ [EvTweet h text m Posted]
}.

(** A world for examples: the feeds are fixed data, no image is uploaded,
    and the state counts the calls of [create_tweet], which fails while the
    count is below [first_ok]. *)
Definition counting_world (D : pystr -> parsed_feed) (first_ok : nat) : World nat :=
  {| feedparser_parse := fun url w => (D url, w);
     upload_image_to_x := fun _ w => (None, w);
     create_tweet := fun _ _ w =>
       (if (first_ok <=? w)%nat then Posted else Failed, S w) |}.

(** An entry with a title and a link only. *)
Definition plain_entry (title link : pystr) : entry :=
  Entry (Some title) (Some link) None None None None None.

(** The entry [e] is dealt with in the state [st]: it has a fingerprint
    that is in the seen-set or for which a tweet was attempted, or the run is
    at its cap, or an exception has ended it. *)
Definition covered `{PyLib} {W : Type} (e : entry) (st : run_state W) : Prop :=
  (exists h, entry_hash e = Some h /\
             (h ∈ seen st \/ In h (attempted_hashes (trace st)))) \/
  (MAX_POSTS_PER_RUN <= posted st)%nat \/ raised st = true.

(** Every attempt of the trace is for a relevant entry that satisfies [P]. *)
Definition attempts_from `{PyLib} {W : Type} (P : entry -> Prop) (st : run_state W) : Prop :=
  forall h, In h (attempted_hashes (trace st)) ->
            exists e, P e /\ relevant_entry e = true /\ entry_hash e = Some h.

(** Data for examples.  [two_feeds]: the first feed has one relevant entry,
    the second one irrelevant entry, the others are empty.  [five_relevant]:
    the first feed has five relevant entries. *)
Definition feed_of (rows : list (pystr * list entry)) (url : pystr) : parsed_feed :=
  match List.find (fun r => bool_decide (fst r = url)) rows with
  | Some r => ParsedFeed (Some (lit "Feed")) (snd r)
  | None => ParsedFeed None []
  end.

Definition two_feeds : pystr -> parsed_feed :=
  feed_of
    [ (lit "https://www.patspulpit.com/rss/index.xml",
       [plain_entry (lit "Patriots sign new TE") (lit "https://x.com/a")]);
      (lit "https://nesn.com/feed/",
       [plain_entry (lit "Celtics win opener") (lit "https://x.com/b")]) ].



(** [surrogate_title]: the first feed has three relevant entries, and the
    title of the second ends with the lone surrogate U+D83D; the second feed
    has one relevant entry. *)
Definition surrogate_title : pystr -> parsed_feed :=
  feed_of
    [ (lit "https://www.patspulpit.com/rss/index.xml",
       [ plain_entry (lit "Patriots one") (lit "https://x.com/1");
         plain_entry (lit "Patriots two " ++ [55357]) (lit "https://x.com/2");
         plain_entry (lit "Patriots three") (lit "https://x.com/3") ]);
      (lit "https://nesn.com/feed/",
       [ plain_entry (lit "Patriots four") (lit "https://x.com/4") ]) ].

(** A digit of [hexdigest]: [0-9] or [a-f]. *)
Definition is_hex_char (c : char) : bool :=
  ((48 <=? c) && (c <=? 57)) || ((97 <=? c) && (c <=? 102)).

(** The media ids [run_bot] gives to [create_tweet]: none, or one that is
    not empty. *)
Definition one_media_id (m : option (list pystr)) : Prop :=
  m = None \/ exists c mid, m = Some [c :: mid].

(** A tweet of the trace is for a relevant entry that satisfies [P]: the
    fingerprint is the entry's, the text is [build_tweet] of its title and
    link, and there is at most one media id. *)
Definition tweet_event_ok `{PyLib} (P : entry -> Prop) (ev : event) : Prop :=
  match ev with
  | EvTweet h text m _ =>
      exists e source,
        P e /\ relevant_entry e = true /\ entry_hash e = Some h /\
        text = build_tweet (Some (entry_title_text e)) source (entry_link_text e) /\
        one_media_id m
  | _ => True
  end.

(** The feed reads of a trace. *)
Definition parsed_urls (tr : list event) : list pystr :=
  flat_map (fun ev => match ev with EvParse url => [url] | _ => [] end) tr.

(** The call that an event records, made on the outside [w]: the outside
    after it. *)
Definition call {W : Type} `{World W} (ev : event) (w : W) : W :=
  match ev with
  | EvParse feed_url => snd (feedparser_parse feed_url w)
  | EvUpload image_url => snd (upload_image_to_x image_url w)
  | EvTweet _ text media_ids _ => snd (create_tweet text media_ids w)
  end.

(** The outside after the calls of a trace, made in order from [w]. *)
Definition replay {W : Type} `{World W} (tr : list event) (w : W) : W :=
  fold_left (fun w ev => call ev w) tr w.

(** The outcome that a tweet of the trace records is the one that
    [create_tweet] gave when the calls are made in order from [w]. *)
Fixpoint outcomes_recorded {W : Type} `{World W} (tr : list event) (w : W) : Prop :=
  match tr with
  | [] => True
  | ev :: tr' =>
      match ev with
      | EvTweet _ text media_ids r => r = fst (create_tweet text media_ids w)
      | _ => True
      end /\ outcomes_recorded tr' (call ev w)
  end.

(** The state [st] of a run that started from the outside [w0] with an
    empty trace: the trace is the record of the calls made. *)
Definition recorded {W : Type} `{World W} (w0 : W) (st : run_state W) : Prop :=
  world st = replay (trace st) w0 /\ outcomes_recorded (trace st) w0.

(** The tweets of a trace. *)
Definition tweets (tr : list event) : list event :=
  List.filter (fun ev => match ev with EvTweet _ _ _ _ => true | _ => false end) tr.

(** * Properties *)

(** ** Strings *)

Section StringFacts.
Implicit Types (s k : pystr) (p : char -> bool).

Lemma startswith_spec s k :
  startswith s k = true <-> exists post, s = k ++ post.
Proof.
  revert s. induction k as [|a k IH]; intros s; simpl.
  - split; [intros _; now exists s | reflexivity].
  - destruct s as [|b s].
    + split; [discriminate | intros [post Hp]; discriminate].
    + rewrite andb_true_iff, N.eqb_eq, IH. split.
      * intros [-> [post ->]]. now exists post.
      * intros [post Hp]. injection Hp as -> ->. split; [reflexivity | now exists post].
Qed.

Lemma contains_spec k s :
  contains k s = true <-> exists pre post, s = pre ++ k ++ post.
Proof.
  induction s as [|c s IH].
  - simpl. rewrite orb_false_r, startswith_spec. split.
    + intros [post Hp]. now exists [], post.
    + intros [pre [post Hp]]. destruct pre; [now exists post | discriminate].
  - cbn [contains]. rewrite orb_true_iff, startswith_spec, IH. split.
    + intros [[post Hp] | [pre [post Hp]]].
      * now exists [], post.
      * exists (c :: pre), post. now rewrite Hp.
    + intros [[|x pre] [post Hp]].
      * left. now exists post.
      * right. injection Hp as -> ->. now exists pre, post.
Qed.

Lemma lstrip_by_no_lead p s : no_lead p (lstrip_by p s).
Proof.
  induction s as [|c s IH]; simpl; [exact I |].
  destruct (p c) eqn:E; [exact IH | exact E].
Qed.

Lemma lstrip_by_id p s : no_lead p s -> lstrip_by p s = s.
Proof. destruct s as [|c s]; simpl; [reflexivity | now intros ->]. Qed.

Lemma rstrip_by_cons_keep p c s :
  p c = false -> exists r, rstrip_by p (c :: s) = c :: r.
Proof.
  intros E. simpl. destruct (rstrip_by p s) as [|x r].
  - rewrite E. now exists [].
  - now exists (x :: r).
Qed.

Lemma rstrip_by_no_lead p s : no_lead p s -> no_lead p (rstrip_by p s).
Proof.
  destruct s as [|c s]; [intros _; exact I |].
  intros E. destruct (rstrip_by_cons_keep p c s E) as [r ->]. exact E.
Qed.

Lemma rstrip_by_idem p s : rstrip_by p (rstrip_by p s) = rstrip_by p s.
Proof.
  induction s as [|c s IH]; simpl; [reflexivity |].
  destruct (rstrip_by p s) as [|x r] eqn:E.
  - destruct (p c) eqn:Ec; simpl; [reflexivity | now rewrite Ec].
  - change (rstrip_by p (c :: x :: r))
      with (match rstrip_by p (x :: r) with
            | [] => if p c then [] else [c]
            | r0 => c :: r0
            end).
    now rewrite IH.
Qed.

Lemma rstrip_by_all p s : forallb p s = true -> rstrip_by p s = [].
Proof.
  induction s as [|c s IH]; simpl; [reflexivity |].
  rewrite andb_true_iff. intros [Ec Hs]. now rewrite (IH Hs), Ec.
Qed.

Lemma rstrip_by_app_keep p a b :
  rstrip_by p b <> [] -> rstrip_by p (a ++ b) = a ++ rstrip_by p b.
Proof.
  intros Hb. induction a as [|c a IH]; simpl; [reflexivity |].
  rewrite IH. destruct (a ++ rstrip_by p b) eqn:E; [| reflexivity].
  apply app_eq_nil in E. tauto.
Qed.

Lemma rstrip_by_app_drop p a b :
  forallb p b = true -> rstrip_by p (a ++ b) = rstrip_by p a.
Proof.
  intros Hb. induction a as [|c a IH]; simpl.
  - now apply rstrip_by_all.
  - now rewrite IH.
Qed.

Lemma no_trail_cons_inv p c s : no_trail p (c :: s) -> no_trail p s.
Proof.
  unfold no_trail. simpl. destruct (rstrip_by p s) as [|x r] eqn:E.
  - destruct (p c); [discriminate | now intros [= <-]].
  - now intros [= <-].
Qed.

Lemma no_trail_cons p c s :
  no_trail p s -> (s = [] -> p c = false) -> no_trail p (c :: s).
Proof.
  unfold no_trail. intros Hs Hc. simpl. rewrite Hs.
  destruct s; [now rewrite Hc | reflexivity].
Qed.

Lemma no_trail_single p c : no_trail p [c] -> p c = false.
Proof. unfold no_trail. simpl. now destruct (p c). Qed.

(** A string without trailing [p] does not end with a character of [p]. *)
Lemma no_trail_app_last p a c : no_trail p (a ++ [c]) -> p c = false.
Proof.
  induction a as [|x a IH]; simpl.
  - apply no_trail_single.
  - intros Hn. apply IH. exact (no_trail_cons_inv _ _ _ Hn).
Qed.

Lemma strip_no_lead s : no_lead isspace (strip s).
Proof. apply rstrip_by_no_lead, lstrip_by_no_lead. Qed.

Lemma strip_no_trail s : no_trail isspace (strip s).
Proof. apply rstrip_by_idem. Qed.

Lemma strip_id s : no_lead isspace s -> no_trail isspace s -> strip s = s.
Proof. intros Hl Ht. unfold strip, strip_by. now rewrite lstrip_by_id. Qed.
End StringFacts.

(** ** The matcher finds a match exactly when there is one *)

Section ReFacts.
Import Re.

Lemma greedy_stop {R} p n (k : pystr -> pystr -> option R) acc s :
  (n <= length acc)%nat -> is_Some (k (rev acc) s) -> is_Some (greedy p n k acc s).
Proof.
  intros Hn Hk. apply Nat.leb_le in Hn.
  destruct s as [|c s]; simpl; rewrite Hn; [exact Hk |].
  destruct (p c); [| exact Hk].
  destruct (greedy p n k (c :: acc) s); [eauto | exact Hk].
Qed.

Lemma greedy_complete {R} p n (k : pystr -> pystr -> option R) acc m s :
  forallb p m = true -> (n <= length acc + length m)%nat ->
  (forall x, is_Some (k x s)) -> is_Some (greedy p n k acc (m ++ s)).
Proof.
  revert acc. induction m as [|c m IH]; intros acc Hm Hn Hk.
  - apply greedy_stop; [simpl in Hn; lia | apply Hk].
  - simpl in Hm. apply andb_true_iff in Hm as [Hc Hm].
    cbn [app greedy]. rewrite Hc.
    destruct (IH (c :: acc) Hm) as [r Hr]; [simpl in *; lia | exact Hk |].
    rewrite Hr. eauto.
Qed.

Lemma greedy_sound {R} p n (k : pystr -> pystr -> option R) acc s r :
  greedy p n k acc s = Some r ->
  exists m s', s = m ++ s' /\ forallb p m = true /\
               (n <= length acc + length m)%nat /\ k (rev acc ++ m) s' = Some r.
Proof.
  revert acc. induction s as [|c s IH]; intros acc.
  - simpl. destruct (n <=? length acc)%nat eqn:E; [| discriminate].
    apply Nat.leb_le in E. intros Hk. exists [], [].
    repeat split; [simpl; lia | now rewrite app_nil_r].
  - cbn [greedy].
    assert (Hstop : (if (n <=? length acc)%nat then k (rev acc) (c :: s) else None) = Some r ->
                    exists m s', c :: s = m ++ s' /\ forallb p m = true /\
                      (n <= length acc + length m)%nat /\ k (rev acc ++ m) s' = Some r).
    { destruct (n <=? length acc)%nat eqn:E; [| discriminate].
      apply Nat.leb_le in E. intros Hk. exists [], (c :: s).
      repeat split; [simpl; lia | now rewrite app_nil_r]. }
    destruct (p c) eqn:Hc; [| exact Hstop].
    destruct (greedy p n k (c :: acc) s) as [r'|] eqn:E; [| exact Hstop].
    intros [= <-]. apply IH in E as (m & s' & -> & Hm & Hn & Hk).
    exists (c :: m), s'. simpl in *. rewrite Hc, Hm.
    rewrite <- app_assoc in Hk. repeat split; [lia | exact Hk].
Qed.

Lemma match_items_sound its dol caps s caps' r :
  match_items its dol caps s = Some (caps', r) -> matches dol its s r.
Proof.
  revert caps s. induction its as [|it its IH]; intros caps s.
  - simpl. destruct dol, (at_dollar s) eqn:E; simpl; try discriminate;
      intros [= _ <-]; constructor; congruence.
  - destruct it as [p | n p | n p]; cbn [match_items].
    + destruct s as [|c s]; [discriminate |].
      destruct (p c) eqn:Hc; [| discriminate].
      intros Hm. constructor; [exact Hc | eapply IH, Hm].
    + intros Hg. apply greedy_sound in Hg as (m & s' & -> & Hm & Hn & Hk).
      constructor; [exact Hm | simpl in Hn; lia | eapply IH, Hk].
    + intros Hg. apply greedy_sound in Hg as (m & s' & -> & Hm & Hn & Hk).
      constructor; [exact Hm | simpl in Hn; lia | eapply IH, Hk].
Qed.

Lemma match_items_complete its dol s r :
  matches dol its s r -> forall caps, is_Some (match_items its dol caps s).
Proof.
  induction 1 as [s Hd | p its c s r Hc _ IH | n p its m s r Hm Hn _ IH
                 | n p its m s r Hm Hn _ IH]; intros caps; cbn [match_items].
  - destruct dol; simpl; [rewrite Hd by reflexivity |]; simpl; eauto.
  - rewrite Hc. apply IH.
  - apply greedy_complete; [exact Hm | simpl; lia | intros x; apply IH].
  - apply greedy_complete; [exact Hm | simpl; lia | intros x; apply IH].
Qed.

Lemma matches_suffix dol its s r : matches dol its s r -> exists m, s = m ++ r.
Proof.
  induction 1 as [s _ | p its c s r _ _ [m0 ->] | n p its m s r _ _ _ [m0 ->]
                 | n p its m s r _ _ _ [m0 ->]].
  - now exists [].
  - now exists (c :: m0).
  - exists (m ++ m0). now rewrite app_assoc.
  - exists (m ++ m0). now rewrite app_assoc.
Qed.

Lemma matches_dollar its s r : matches true its s r -> at_dollar r = true.
Proof. induction 1; auto. Qed.

Lemma sub_empty_from_skip_all pat n s :
  (length s <= n)%nat -> sub_empty_from pat n s = [].
Proof.
  revert n. induction s as [|c s IH]; intros n Hn; [reflexivity |].
  destruct n as [|n]; simpl in *; [lia | apply IH; lia].
Qed.

Lemma sub_empty_nil_inv pat s :
  sub_empty pat s = [] -> s = [] \/ is_Some (match_at pat s).
Proof.
  destruct s as [|c s]; [now left |]. unfold sub_empty. cbn [sub_empty_from].
  destruct (match_at pat (c :: s)) as [[caps rest]|]; [right; eauto | discriminate].
Qed.
End ReFacts.

(** ** [clean_title] returns a stripped string *)

Section CleanTitleFacts.
Import Re.

Lemma trailing_site_rest s caps r :
  match_at TRAILING_SITE s = Some (caps, r) ->
  (exists m, s = m ++ r) /\ at_dollar r = true.
Proof.
  intros Hm. apply match_items_sound in Hm. split.
  - eapply matches_suffix, Hm.
  - eapply matches_dollar, Hm.
Qed.

(** A match stays a match when a space is put in front of it. *)
Lemma trailing_site_extend c s :
  isspace c = true ->
  is_Some (match_at TRAILING_SITE s) -> is_Some (match_at TRAILING_SITE (c :: s)).
Proof.
  intros Hc [[caps r] Hm]. apply match_items_sound in Hm.
  inversion Hm as [ | | n p its m s0 r0 Hall Hn Hrest | ]; subst.
  eapply match_items_complete.
  apply (matches_atleast _ _ _ _ (c :: m)); [simpl; now rewrite Hc | simpl; lia | exact Hrest].
Qed.

Lemma sub_trailing_site_stripped s :
  no_trail isspace s ->
  no_trail isspace (sub_empty TRAILING_SITE s) /\
  (sub_empty TRAILING_SITE s = [] \/
   exists c r r', s = c :: r /\ sub_empty TRAILING_SITE s = c :: r').
Proof.
  induction s as [|c s IH]; intros Hs; [split; [reflexivity | now left] |].
  unfold sub_empty. cbn [sub_empty_from].
  destruct (match_at TRAILING_SITE (c :: s)) as [[caps rest]|] eqn:Hm.
  - destruct (trailing_site_rest _ _ _ Hm) as [[m Hsuf] Hd].
    assert (rest = []) as ->.
    { destruct rest as [|x [|y rest]]; [reflexivity | | discriminate].
      simpl in Hd. apply N.eqb_eq in Hd as ->.
      rewrite Hsuf in Hs. apply no_trail_app_last in Hs. discriminate. }
    cbn [length Nat.sub]. rewrite sub_empty_from_skip_all by lia.
    split; [reflexivity | now left].
  - fold (sub_empty TRAILING_SITE s).
    destruct (IH (no_trail_cons_inv _ _ _ Hs)) as [Ht _].
    split; [| right; eauto].
    apply no_trail_cons; [exact Ht |].
    intros Hnil. apply sub_empty_nil_inv in Hnil as [-> | Hsome].
    + now apply no_trail_single.
    + destruct (isspace c) eqn:Hc; [| reflexivity].
      apply (trailing_site_extend c s Hc) in Hsome.
      rewrite Hm in Hsome. now destruct Hsome.
Qed.

Lemma clean_title_no_trail t : no_trail isspace (clean_title t).
Proof. apply sub_trailing_site_stripped, strip_no_trail. Qed.

Lemma clean_title_no_lead t : no_lead isspace (clean_title t).
Proof.
  unfold clean_title.
  destruct (sub_trailing_site_stripped _ (strip_no_trail (or_empty t)))
    as [_ [-> | (c & r & r' & Hs & ->)]]; [exact I |].
  pose proof (strip_no_lead (or_empty t)) as Hl. rewrite Hs in Hl. exact Hl.
Qed.

End CleanTitleFacts.

(** ** The relevance filter *)

(** C8. [looks_like_patriots] is a function on every optional title (so it is
    total); it is true exactly when the lower-cased title has one of the four
    keywords as a substring; it is false for a missing and for an empty title,
    true for "Patriots sign new TE" and false for "Celtics win opener". *)
Theorem looks_like_patriots_spec (L : PyLib) (Hlower : lower_ascii_ok L) :
  (forall title : option pystr,
      looks_like_patriots title = true <->
      exists k pre post,
        In k KEYWORDS /\ str_lower (or_empty title) = pre ++ k ++ post) /\
  looks_like_patriots None = false /\
  looks_like_patriots (Some []) = false /\
  looks_like_patriots (Some (lit "Patriots sign new TE")) = true /\
  looks_like_patriots (Some (lit "Celtics win opener")) = false.
Proof.
  split.
  - intros title. unfold looks_like_patriots. rewrite existsb_exists. split.
    + intros (k & Hk & Hc). apply contains_spec in Hc as (pre & post & Hc).
      now exists k, pre, post.
    + intros (k & pre & post & Hk & Hc). exists k. split; [exact Hk |].
      apply contains_spec. now exists pre, post.
  - unfold looks_like_patriots, or_empty.
    repeat split; rewrite Hlower by reflexivity; reflexivity.
Qed.

Lemma looks_like_patriots_spec_witness :
  lower_ascii_ok RefLib.lib /\
  @looks_like_patriots RefLib.lib (Some (lit "Patriots sign new TE")) = true.
Proof.
  assert (Hl : lower_ascii_ok RefLib.lib) by (intros s _; reflexivity).
  split; [exact Hl |].
  exact (proj1 (proj2 (proj2 (proj2 (looks_like_patriots_spec RefLib.lib Hl))))).
Defined.

(** ** The text composer *)

Section BuildTweetFacts.
Context `{PyLib}.

Lemma tweet_text_length head source url :
  length (tweet_text head source url)
  = (length head + length source + length url + 19)%nat.
Proof.
  unfold tweet_text. rewrite !length_app.
  change (length DEFAULT_TAGS) with 15%nat. simpl. lia.
Qed.

Lemma with_prefix_empty t :
  no_lead isspace t -> no_trail isspace t -> with_prefix [] t = t.
Proof.
  intros Hl Ht. unfold with_prefix, strip, strip_by.
  change (lstrip_by isspace ([] ++ [32] ++ t)) with (lstrip_by isspace t).
  now rewrite lstrip_by_id.
Qed.

Lemma reword_prefix_shape p :
  In p REWORD_PREFIXES ->
  exists c p', p = c :: p' /\ isspace c = false /\ no_trail isspace p.
Proof.
  unfold REWORD_PREFIXES, no_trail. simpl.
  intros [<- | [<- | [<- | [<- | []]]]];
    eexists _, _; (split; [cbv; reflexivity | split; vm_compute; reflexivity]).
Qed.

(** A prefixed head is longer than the title it is made from. *)
Lemma with_prefix_longer p t :
  In p REWORD_PREFIXES -> no_trail isspace t ->
  (length t < length (with_prefix p t))%nat.
Proof.
  intros Hp Ht. destruct (reword_prefix_shape p Hp) as (c & p' & -> & Hc & Hpt).
  unfold with_prefix, strip, strip_by.
  cbn [app lstrip_by]. rewrite Hc.
  change (c :: p' ++ 32 :: t) with ((c :: p') ++ [32] ++ t).
  destruct t as [|x t].
  - rewrite rstrip_by_app_drop by reflexivity. rewrite Hpt. simpl. lia.
  - rewrite (app_assoc (c :: p') [32] (x :: t)).
    rewrite rstrip_by_app_keep by (rewrite Ht; discriminate).
    rewrite Ht, !length_app. simpl. lia.
Qed.

Lemma first_fit_none ps t source url :
  (forall p, In p ps ->
     (280 < length (tweet_text (with_prefix p t) source url))%nat) ->
  first_fit ps t source url = None.
Proof.
  induction ps as [|p ps IH]; intros Hall; [reflexivity |].
  cbn [first_fit].
  destruct (Nat.leb_spec (length (tweet_text (with_prefix p t) source url)) 280)
    as [Hle | _].
  - specialize (Hall p (or_introl eq_refl)). lia.
  - apply IH. intros q Hq. apply Hall. now right.
Qed.

(** The loop of [build_tweet] stops at the unprefixed candidate or finds
    nothing. *)
Lemma build_tweet_unfold title source url :
  build_tweet title source url = build_tweet_simplified title source url.
Proof.
  unfold build_tweet, build_tweet_simplified. cbn [first_fit].
  rewrite with_prefix_empty
    by (apply clean_title_no_lead || apply clean_title_no_trail).
  destruct (Nat.leb_spec (length (tweet_text (clean_title title) source url)) 280)
    as [Hle | Hgt]; [reflexivity |].
  rewrite first_fit_none; [reflexivity |].
  intros p Hp. rewrite tweet_text_length in *.
  pose proof (with_prefix_longer p (clean_title title) Hp (clean_title_no_trail _)).
  lia.
Qed.

(** A URL over the budget puts every result over the budget, whatever the
    library does. *)
Lemma build_tweet_long_url title source url :
  (280 < length url)%nat -> (280 < length (build_tweet title source url))%nat.
Proof.
  intros Hu. rewrite build_tweet_unfold. unfold build_tweet_simplified.
  destruct (_ <=? _)%nat; rewrite tweet_text_length; lia.
Qed.
End BuildTweetFacts.

(** C9. [build_tweet] equals the composer without reword prefixes (the
    unprefixed candidate when it fits 280 characters, else the fallback with
    the shortened title), and each prefixed candidate is strictly longer than
    the unprefixed one, which is the cleaned title followed by the fixed
    part. *)
Theorem build_tweet_never_rewords (L : PyLib) (title : option pystr) (source url : pystr) :
  build_tweet title source url = build_tweet_simplified title source url /\
  tweet_text (with_prefix [] (clean_title title)) source url
    = tweet_text (clean_title title) source url /\
  forall prefix, In prefix REWORD_PREFIXES ->
    (length (tweet_text (with_prefix [] (clean_title title)) source url)
     < length (tweet_text (with_prefix prefix (clean_title title)) source url))%nat.
Proof.
  assert (He : with_prefix [] (clean_title title) = clean_title title)
    by (apply with_prefix_empty; [apply clean_title_no_lead | apply clean_title_no_trail]).
  split; [apply build_tweet_unfold |]. split; [now rewrite He |].
  intros prefix Hp. rewrite He, !tweet_text_length.
  pose proof (with_prefix_longer prefix _ Hp (clean_title_no_trail title)). lia.
Qed.

(** C1, as the code has it.  When [textwrap.shorten] keeps its width, the
    result of [build_tweet] has at most [max 280 (219 + len source + len url)]
    characters: at most 280 when the unprefixed candidate fits, and when the
    source label and the URL have at most 61 characters together. *)
Theorem build_tweet_length_bound (L : PyLib) (Hfits : shorten_fits L)
    (title : option pystr) (source url : pystr) :
  (length (build_tweet title source url)
   <= Nat.max 280 (219 + length source + length url))%nat /\
  ((length (tweet_text (clean_title title) source url) <= 280)%nat ->
   (length (build_tweet title source url) <= 280)%nat) /\
  ((length source + length url <= 61)%nat ->
   (length (build_tweet title source url) <= 280)%nat).
Proof.
  rewrite build_tweet_unfold. unfold build_tweet_simplified.
  pose proof (Hfits (clean_title title) 200%nat (lit "...")) as Hw.
  assert (Hph : (length (lit "...") <= 200)%nat) by (vm_compute; lia).
  specialize (Hw Hph).
  destruct (Nat.leb_spec (length (tweet_text (clean_title title) source url)) 280)
    as [Hle | Hgt].
  - repeat split; intros; lia.
  - rewrite !tweet_text_length in *. repeat split; intros; lia.
Qed.

(** ** URLs: what [normalize_url] keeps *)

Section UrlFacts.
Context `{PyLib}.
Import Url.

Lemma has_In c s : has c s = true <-> In c s.
Proof.
  unfold has. rewrite existsb_exists. split.
  - intros (x & Hx & He). apply N.eqb_eq in He. now subst.
  - intros Hc. exists c. split; [exact Hc | apply N.eqb_refl].
Qed.

Lemma has_false c s : has c s = false <-> ~ In c s.
Proof. rewrite <- has_In. destruct (has c s); split; congruence. Qed.

Lemma has_app c a b : has c (a ++ b) = has c a || has c b.
Proof. apply existsb_app. Qed.

Lemma has_split c s :
  has c s = true -> exists a b, s = a ++ c :: b /\ has c a = false.
Proof.
  induction s as [|x s IH]; [discriminate |].
  unfold has in *. cbn [existsb]. destruct (N.eqb_spec c x) as [-> | Hne].
  - intros _. now exists [], s.
  - simpl. intros Hs. destruct (IH Hs) as (a & b & -> & Ha).
    exists (x :: a), b. split; [reflexivity |]. cbn [existsb].
    apply N.eqb_neq in Hne. now rewrite Hne.
Qed.

Lemma partition_cons_ne c x s :
  x <> c ->
  partition c (x :: s) = (x :: fst (partition c s), snd (partition c s)).
Proof.
  intros Hne. cbn [partition]. apply N.eqb_neq in Hne. rewrite Hne.
  now destruct (partition c s).
Qed.

Lemma partition_some c a b : has c a = false -> partition c (a ++ c :: b) = (a, Some b).
Proof.
  induction a as [|x a IH]; cbn [app partition].
  - now rewrite N.eqb_refl.
  - unfold has. cbn [existsb]. rewrite orb_false_iff. intros [Hx Ha].
    rewrite N.eqb_sym in Hx. rewrite Hx. now rewrite (IH Ha).
Qed.

Lemma partition_app c a b :
  has c a = false ->
  partition c (a ++ b) = (a ++ fst (partition c b), snd (partition c b)).
Proof.
  induction a as [|x a IH]; cbn [app partition].
  - intros _. now destruct (partition c b).
  - unfold has. cbn [existsb]. rewrite orb_false_iff. intros [Hx Ha].
    rewrite N.eqb_sym in Hx. rewrite Hx. now rewrite (IH Ha).
Qed.

Lemma partition_none c s : has c s = false -> partition c s = (s, None).
Proof.
  intros Hs. rewrite <- (app_nil_r s) at 1. rewrite partition_app by exact Hs.
  simpl. now rewrite app_nil_r.
Qed.

Lemma fst_partition_same c a r :
  fst (partition c (a ++ c :: r)) = fst (partition c a).
Proof.
  destruct (has c a) eqn:Ha.
  - destruct (has_split c a Ha) as (x & y & -> & Hx).
    rewrite <- app_assoc. cbn [app]. now rewrite !partition_some.
  - now rewrite partition_some, partition_none.
Qed.

Lemma path_of_stop p c r :
  c = 63 \/ c = 35 -> path_of (p ++ c :: r) = path_of p.
Proof.
  unfold path_of. intros [-> | ->].
  - destruct (has 35 p) eqn:Hp.
    + destruct (has_split 35 p Hp) as (x & y & -> & Hx).
      rewrite <- app_assoc. cbn [app]. now rewrite !partition_some.
    + rewrite partition_app by exact Hp. rewrite (partition_none 35 p Hp).
      rewrite partition_cons_ne by discriminate. cbn [fst].
      apply fst_partition_same.
  - now rewrite fst_partition_same.
Qed.

Lemma path_of_id p : has 63 p = false -> has 35 p = false -> path_of p = p.
Proof.
  intros Hq Hf. unfold path_of. rewrite (partition_none 35 p Hf).
  cbn [fst]. now rewrite (partition_none 63 p Hq).
Qed.

(** The scheme *)

Lemma split_scheme_app v c r :
  is_scheme_char c = false -> c <> 58 ->
  split_scheme (v ++ c :: r)
  = (fst (split_scheme v), snd (split_scheme v) ++ c :: r).
Proof.
  intros Hc Hne. unfold split_scheme. destruct (has 58 v) eqn:Hv.
  - destruct (has_split 58 v Hv) as (a & b & -> & Ha).
    rewrite <- app_assoc. cbn [app]. rewrite !partition_some by exact Ha.
    destruct a as [|x a]; [reflexivity |].
    destruct (is_ascii_alpha x && forallb is_scheme_char (x :: a)); cbn [fst snd];
      [reflexivity | now rewrite <- app_assoc].
  - rewrite (partition_none 58 v Hv).
    rewrite partition_app by exact Hv.
    rewrite partition_cons_ne by exact Hne. cbn [fst snd].
    destruct v as [|x v]; cbn [app].
    + destruct (snd (partition 58 r)); [| reflexivity].
      cbn [forallb]. rewrite Hc, andb_false_r. reflexivity.
    + destruct (snd (partition 58 r)); [| reflexivity].
      cbn [forallb]. rewrite forallb_app. cbn [forallb].
      rewrite Hc. rewrite !andb_false_r. reflexivity.
Qed.

Lemma split_scheme_suffix v : exists m, v = m ++ snd (split_scheme v).
Proof.
  unfold split_scheme. destruct (has 58 v) eqn:Hv.
  - destruct (has_split 58 v Hv) as (a & b & -> & Ha).
    rewrite partition_some by exact Ha. destruct a as [|x a]; [now exists [] |].
    destruct (is_ascii_alpha x && forallb is_scheme_char (x :: a)); cbn [snd].
    + exists ((x :: a) ++ [58]). now rewrite <- app_assoc.
    + now exists [].
  - rewrite (partition_none 58 v Hv). exists []. now destruct v.
Qed.

(** The network location *)

Lemma until_delim_app a c r :
  is_delim c = true ->
  until_delim (a ++ c :: r) = (fst (until_delim a), snd (until_delim a) ++ c :: r).
Proof.
  intros Hc. induction a as [|x a IH]; cbn [app until_delim].
  - now rewrite Hc.
  - destruct (is_delim x); [reflexivity |].
    rewrite IH. now destruct (until_delim a).
Qed.

Lemma until_delim_parts a : a = fst (until_delim a) ++ snd (until_delim a).
Proof.
  induction a as [|x a IH]; [reflexivity |]. cbn [until_delim].
  destruct (is_delim x); [reflexivity |].
  destruct (until_delim a) as [n rest]. cbn [fst snd] in *. now rewrite IH at 1.
Qed.

Lemma split_netloc_app w c r :
  c = 63 \/ c = 35 ->
  split_netloc (w ++ c :: r)
  = (fst (fst (split_netloc w)), snd (fst (split_netloc w)) ++ c :: r,
     snd (split_netloc w)).
Proof.
  intros Hc. unfold split_netloc.
  assert (Hd : is_delim c = true) by (destruct Hc as [-> | ->]; reflexivity).
  assert (H47 : (c =? 47) = false) by (destruct Hc as [-> | ->]; reflexivity).
  destruct w as [|x [|y w]]; cbn [app starts_slashes].
  - destruct r; rewrite ?H47; reflexivity.
  - now rewrite H47, andb_false_r.
  - destruct ((x =? 47) && (y =? 47)); [| reflexivity].
    cbn [skipn]. rewrite !skipn_O. rewrite until_delim_app by exact Hd.
    now destruct (until_delim w).
Qed.

Lemma split_netloc_suffix w :
  exists m, w = m ++ snd (fst (split_netloc w)).
Proof.
  unfold split_netloc. destruct (starts_slashes w) eqn:Hs.
  - destruct w as [|x [|y w]]; try discriminate. cbn [skipn]. rewrite skipn_O.
    pose proof (until_delim_parts w) as Hp.
    destruct (until_delim w) as [n rest]. cbn [fst snd] in *.
    exists (x :: y :: n). now rewrite Hp at 1.
  - now exists [].
Qed.

(** A query or a fragment after [v] changes neither the scheme, nor the
    network location, nor the path, nor whether the URL is accepted. *)
Lemma split_clean_app v c r :
  c = 63 \/ c = 35 ->
  option_map (fun x => (scheme x, netloc x, path x)) (split_clean (v ++ c :: r))
  = option_map (fun x => (scheme x, netloc x, path x)) (split_clean v).
Proof.
  intros Hc. unfold split_clean.
  assert (Hs : is_scheme_char c = false) by (destruct Hc as [-> | ->]; reflexivity).
  assert (Hn : c <> 58) by (destruct Hc as [-> | ->]; discriminate).
  rewrite split_scheme_app by assumption.
  destruct (split_scheme v) as [sch w]. cbn [fst snd].
  rewrite split_netloc_app by exact Hc.
  destruct (split_netloc w) as [[n rest] ok]. cbn [fst snd].
  destruct ok; [| reflexivity]. cbn [option_map scheme netloc path].
  now rewrite path_of_stop.
Qed.
End UrlFacts.

Section NormalizeFacts.
Context `{PyLib}.
Import Url.

Lemma lstrip_by_app_stop p a c r :
  p c = false -> lstrip_by p (a ++ c :: r) = lstrip_by p a ++ c :: r.
Proof.
  intros Hc. induction a as [|x a IH]; cbn [app lstrip_by].
  - now rewrite Hc.
  - destruct (p x); [exact IH | reflexivity].
Qed.

Lemma lstrip_by_suffix p s : exists a, s = a ++ lstrip_by p s.
Proof.
  induction s as [|x s [a IH]]; [now exists [] |]. cbn [lstrip_by].
  destruct (p x); [| now exists []]. exists (x :: a). cbn [app]. now rewrite <- IH.
Qed.

Lemma sanitize_app u c r :
  is_c0_or_space c = false -> is_unsafe c = false ->
  sanitize (u ++ c :: r) = sanitize u ++ c :: remove_unsafe r.
Proof.
  intros H0 Hu. unfold sanitize, remove_unsafe.
  rewrite lstrip_by_app_stop by exact H0.
  rewrite List.filter_app. cbn [List.filter]. now rewrite Hu.
Qed.

Lemma normalize_url_of u :
  normalize_url u
  = match split_clean (sanitize u) with
    | Some x =>
        rstrip_by (N.eqb 47)
          (scheme x ++ lit "://" ++ netloc x
                    ++ fst (path_and_params (scheme x) (path x)))
    | None => u
    end.
Proof.
  unfold normalize_url, urlparse, urlsplit.
  destruct (split_clean (sanitize u)) as [x|]; [| reflexivity].
  now destruct (path_and_params (scheme x) (path x)).
Qed.

Lemma urlparse_ok u : urlparse u <> None <-> split_clean (sanitize u) <> None.
Proof.
  unfold urlparse, urlsplit.
  destruct (split_clean (sanitize u)) as [x|]; [| tauto].
  destruct (path_and_params (scheme x) (path x)). split; discriminate.
Qed.

Lemma urlparse_app_ok u c r :
  c = 63 \/ c = 35 -> (urlparse (u ++ c :: r) <> None <-> urlparse u <> None).
Proof.
  intros Hc. rewrite !urlparse_ok.
  rewrite sanitize_app by (destruct Hc as [-> | ->]; reflexivity).
  pose proof (split_clean_app (sanitize u) c (remove_unsafe r) Hc) as E.
  destruct (split_clean (sanitize u ++ c :: remove_unsafe r)),
           (split_clean (sanitize u)); simpl in E; try discriminate;
    split; congruence.
Qed.

(** Appending a query or a fragment *)
Lemma normalize_url_app u c r :
  c = 63 \/ c = 35 -> urlparse u <> None ->
  normalize_url (u ++ c :: r) = normalize_url u.
Proof.
  intros Hc Hok. apply urlparse_ok in Hok. rewrite !normalize_url_of.
  rewrite sanitize_app by (destruct Hc as [-> | ->]; reflexivity).
  pose proof (split_clean_app (sanitize u) c (remove_unsafe r) Hc) as E.
  destruct (split_clean (sanitize u ++ c :: remove_unsafe r)) as [x|],
           (split_clean (sanitize u)) as [y|]; simpl in E; try discriminate;
    [| contradiction].
  injection E as -> -> ->. reflexivity.
Qed.

(** The last segment *)

Lemma rsplit_slash_none s : rsplit_slash s = None <-> has 47 s = false.
Proof.
  induction s as [|c s IH]; [split; reflexivity |].
  unfold has in *. cbn [rsplit_slash existsb].
  destruct (rsplit_slash s) as [[h t]|].
  - split; [discriminate |]. rewrite orb_false_iff. intros [_ Hs].
    apply IH in Hs. discriminate.
  - rewrite (proj1 IH eq_refl), orb_false_r. rewrite (N.eqb_sym 47 c).
    destruct (c =? 47); split; congruence.
Qed.

Lemma last_segment_no_slash s : has 47 s = false -> last_segment s = s.
Proof. intros Hs. unfold last_segment. now rewrite (proj2 (rsplit_slash_none s) Hs). Qed.

Lemma last_segment_cons c s :
  last_segment (c :: s)
  = if has 47 s then last_segment s else if c =? 47 then s else c :: s.
Proof.
  unfold last_segment. cbn [rsplit_slash].
  destruct (rsplit_slash s) as [[h t]|] eqn:E.
  - destruct (has 47 s) eqn:Hs; [reflexivity |].
    apply rsplit_slash_none in Hs. congruence.
  - rewrite (proj1 (rsplit_slash_none s) E). now destruct (c =? 47).
Qed.

Lemma last_segment_app a b :
  last_segment (a ++ b) = if has 47 b then last_segment b else last_segment a ++ b.
Proof.
  induction a as [|c a IH]; cbn [app].
  - destruct (has 47 b) eqn:Hb; [reflexivity | now apply last_segment_no_slash].
  - rewrite !last_segment_cons, has_app, IH.
    destruct (has 47 b) eqn:Hb; [now rewrite orb_true_r |].
    rewrite orb_false_r. destruct (has 47 a); [reflexivity |].
    now destruct (c =? 47).
Qed.

Lemma last_segment_in_app a b z :
  In z (last_segment b) -> In z (last_segment (a ++ b)).
Proof.
  rewrite last_segment_app. destruct (has 47 b) eqn:Hb; [tauto |].
  rewrite (last_segment_no_slash b Hb). intros Hz. apply in_or_app. now right.
Qed.

Lemma has_filter_keep (f : char -> bool) c s :
  f c = true -> has c (List.filter f s) = has c s.
Proof.
  intros Hf. unfold has. induction s as [|x s IH]; [reflexivity |].
  cbn [List.filter existsb]. destruct (f x) eqn:Hx; cbn [existsb]; rewrite IH.
  - reflexivity.
  - destruct (N.eqb_spec c x) as [-> | _]; [congruence | reflexivity].
Qed.

Lemma last_segment_filter (f : char -> bool) s z :
  f 47 = true ->
  In z (last_segment (List.filter f s)) -> In z (last_segment s).
Proof.
  intros Hf. induction s as [|c s IH]; [tauto |].
  cbn [List.filter]. destruct (f c) eqn:Hc.
  - rewrite !last_segment_cons, (has_filter_keep f 47 s Hf).
    destruct (has 47 s); [exact IH |].
    destruct (c =? 47).
    + intros Hz. now apply List.filter_In in Hz.
    + intros [-> | Hz]; [now left | right; now apply List.filter_In in Hz].
  - intros Hz. apply IH in Hz. rewrite last_segment_cons.
    destruct (has 47 s) eqn:Hs; [exact Hz |].
    rewrite (last_segment_no_slash s Hs) in Hz.
    destruct (c =? 47); [exact Hz | now right].
Qed.

Lemma last_segment_sanitize u z :
  In z (last_segment (sanitize u)) -> In z (last_segment u).
Proof.
  unfold sanitize, remove_unsafe. intros Hz.
  apply last_segment_filter in Hz; [| reflexivity].
  destruct (lstrip_by_suffix is_c0_or_space u) as [a Ha].
  rewrite Ha. now apply last_segment_in_app.
Qed.

Lemma path_and_params_plain sch p :
  has 59 (last_segment p) = false -> path_and_params sch p = (p, []).
Proof.
  intros Hp. unfold path_and_params.
  destruct (existsb _ uses_params && has 59 p); [| reflexivity].
  unfold splitparams, last_segment in *.
  destruct (rsplit_slash p) as [[h t]|]; now rewrite partition_none.
Qed.

(** A slash after a URL without query and fragment *)

Lemma split_netloc_slash w :
  w <> [47] ->
  split_netloc (w ++ [47])
  = (fst (fst (split_netloc w)), snd (fst (split_netloc w)) ++ [47],
     snd (split_netloc w)).
Proof.
  intros Hw. unfold split_netloc. destruct w as [|x [|y w]]; cbn [app starts_slashes].
  - reflexivity.
  - destruct (N.eqb_spec x 47) as [-> | _]; [congruence | reflexivity].
  - destruct ((x =? 47) && (y =? 47)); [| reflexivity].
    cbn [skipn]. rewrite !skipn_O. rewrite until_delim_app by reflexivity.
    now destruct (until_delim w).
Qed.

Lemma has_suffix c m s : has c (m ++ s) = false -> has c s = false.
Proof. rewrite has_app, orb_false_iff. tauto. Qed.

(** The two ways a URL with its slash is read: the path gets the slash, or
    the URL was [scheme:/] and [scheme://] has an empty location and path. *)
Lemma split_clean_slash v x :
  has 63 v = false -> has 35 v = false -> split_clean v = Some x ->
  exists y, split_clean (v ++ [47]) = Some y /\ scheme y = scheme x /\
    netloc y = netloc x /\ (exists m, v = m ++ path x) /\
    (path y = path x ++ [47] \/ (netloc x = [] /\ path x = [47] /\ path y = [])).
Proof.
  intros Hq Hf. unfold split_clean.
  rewrite split_scheme_app by (reflexivity || discriminate).
  destruct (split_scheme_suffix v) as [m0 Hm0].
  destruct (split_scheme v) as [sch w]. cbn [fst snd] in *.
  assert (Hqw : has 63 w = false) by (rewrite Hm0 in Hq; eapply has_suffix, Hq).
  assert (Hfw : has 35 w = false) by (rewrite Hm0 in Hf; eapply has_suffix, Hf).
  destruct (decide (w = [47])) as [-> | Hw].
  - cbn. intros [= <-]. eexists. split; [reflexivity |]. cbn.
    repeat split; [now exists m0 | right; tauto].
  - rewrite split_netloc_slash by exact Hw.
    destruct (split_netloc_suffix w) as [m1 Hm1].
    destruct (split_netloc w) as [[n rest] ok]. cbn [fst snd] in *.
    destruct ok; [| discriminate]. intros [= <-]. eexists. split; [reflexivity |].
    assert (Hqr : has 63 rest = false) by (rewrite Hm1 in Hqw; eapply has_suffix, Hqw).
    assert (Hfr : has 35 rest = false) by (rewrite Hm1 in Hfw; eapply has_suffix, Hfw).
    cbn [scheme netloc path]. rewrite (path_of_id rest Hqr Hfr).
    rewrite path_of_id by (rewrite has_app, ?Hqr, ?Hfr; reflexivity).
    repeat split; [| now left].
    exists (m0 ++ m1). now rewrite <- app_assoc, <- Hm1.
Qed.

Lemma split_first_delim u :
  has 63 u || has 35 u = true ->
  exists a c b, u = a ++ c :: b /\ (c = 63 \/ c = 35) /\
                has 63 a = false /\ has 35 a = false.
Proof.
  induction u as [|x u IH]; [discriminate |].
  destruct (N.eqb_spec x 63) as [-> | H63].
  { intros _. exists [], 63, u. tauto. }
  destruct (N.eqb_spec x 35) as [-> | H35].
  { intros _. exists [], 35, u. tauto. }
  unfold has in *. cbn [existsb].
  apply N.eqb_neq in H63, H35. rewrite (N.eqb_sym 63 x), (N.eqb_sym 35 x), H63, H35.
  cbn [orb]. intros Hu. destruct (IH Hu) as (a & c & b & -> & Hc & Ha1 & Ha2).
  exists (x :: a), c, b. cbn [existsb app].
  rewrite (N.eqb_sym 63 x), (N.eqb_sym 35 x), H63, H35. tauto.
Qed.

Lemma normalize_url_slash u :
  urlparse u <> None -> has 59 (last_segment u) = false ->
  normalize_url (u ++ [47]) = normalize_url u.
Proof.
  intros Hok Hseg. destruct (has 63 u || has 35 u) eqn:Hqf.
  - destruct (split_first_delim u Hqf) as (a & c & b & -> & Hc & _).
    assert (Ha : urlparse a <> None) by (eapply urlparse_app_ok; eauto).
    rewrite <- app_assoc. cbn [app]. now rewrite !normalize_url_app.
  - apply orb_false_iff in Hqf as [Hq Hf].
    apply urlparse_ok in Hok. rewrite !normalize_url_of.
    rewrite sanitize_app by reflexivity. change (remove_unsafe []) with (@nil N).
    destruct (split_clean (sanitize u)) as [x|] eqn:Ex; [| contradiction].
    assert (Hqv : has 63 (sanitize u) = false).
    { apply has_false. intros Hin. apply has_false in Hq. apply Hq.
      unfold sanitize, remove_unsafe in Hin. apply List.filter_In in Hin as [Hin _].
      destruct (lstrip_by_suffix is_c0_or_space u) as [a0 Ha0]. rewrite Ha0.
      apply in_or_app. now right. }
    assert (Hfv : has 35 (sanitize u) = false).
    { apply has_false. intros Hin. apply has_false in Hf. apply Hf.
      unfold sanitize, remove_unsafe in Hin. apply List.filter_In in Hin as [Hin _].
      destruct (lstrip_by_suffix is_c0_or_space u) as [a0 Ha0]. rewrite Ha0.
      apply in_or_app. now right. }
    destruct (split_clean_slash _ x Hqv Hfv Ex)
      as (y & -> & -> & -> & [m Hm] & [Hp | (Hn & Hpx & Hpy)]).
    + assert (Hx : has 59 (last_segment (path x)) = false).
      { apply has_false. intros Hin. apply has_false in Hseg. apply Hseg.
        apply last_segment_sanitize. rewrite Hm. now apply last_segment_in_app. }
      rewrite Hp, (path_and_params_plain _ _ Hx).
      rewrite (path_and_params_plain (scheme x) (path x ++ [47]))
        by (rewrite last_segment_app; cbn; reflexivity).
      cbn [fst]. rewrite !app_assoc. apply rstrip_by_app_drop. reflexivity.
    + rewrite Hn, Hpx, Hpy. cbv [path_and_params has existsb].
      rewrite !andb_false_r. cbn [fst].
      change (lit "://" ++ [] ++ [47]) with ([58] ++ [47; 47; 47]).
      change (lit "://" ++ [] ++ []) with ([58] ++ [47; 47]).
      rewrite !app_assoc.
      rewrite (rstrip_by_app_drop _ (scheme x ++ [58]) [47; 47; 47]) by reflexivity.
      rewrite (rstrip_by_app_drop _ (scheme x ++ [58]) [47; 47]) by reflexivity.
      reflexivity.
Qed.
End NormalizeFacts.

(** C5, as the code has it.  For a URL that [urlparse] accepts, the
    fingerprint does not change when a query string or a fragment is added
    (or taken away), and it does not change when a slash is added at the end
    provided nothing after the last slash of the URL has a semicolon. *)
Theorem item_hash_ignores_query_fragment_slash
    (L : PyLib) (title : option pystr) (u : pystr) :
  Url.urlparse u <> None ->
  (forall q, item_hash title (u ++ 63 :: q) = item_hash title u) /\
  (forall f, item_hash title (u ++ 35 :: f) = item_hash title u) /\
  (has 59 (Url.last_segment u) = false ->
   item_hash title (u ++ [47]) = item_hash title u).
Proof.
  intros Hok. unfold item_hash. repeat split.
  - intros q. now rewrite normalize_url_app by tauto.
  - intros f. now rewrite normalize_url_app by tauto.
  - intros Hseg. now rewrite normalize_url_slash.
Qed.

Lemma item_hash_ignores_query_witness :
  @Url.urlparse RefLib.lib (lit "https://x.com/a") <> None /\
  @item_hash RefLib.lib (Some (lit "Patriots win")) (lit "https://x.com/a?ref=1")
  = @item_hash RefLib.lib (Some (lit "Patriots win")) (lit "https://x.com/a").
Proof.
  assert (Hok : @Url.urlparse RefLib.lib (lit "https://x.com/a") <> None)
    by (vm_compute; discriminate).
  split; [exact Hok |].
  exact (proj1 (item_hash_ignores_query_fragment_slash RefLib.lib
                  (Some (lit "Patriots win")) (lit "https://x.com/a") Hok)
               (lit "ref=1")).
Defined.

(** C5 fails for a slash after path parameters: [urlparse] takes [;b] out of
    the path of [https://x.com/a;b] and leaves it in [https://x.com/a;b/]. *)
Lemma item_hash_slash_after_params :
  @Url.urlparse RefLib.lib (lit "https://x.com/a;b") <> None /\
  @item_hash RefLib.lib (Some (lit "Patriots win")) (lit "https://x.com/a;b/")
  <> @item_hash RefLib.lib (Some (lit "Patriots win")) (lit "https://x.com/a;b").
Proof. split; vm_compute; discriminate. Qed.

(** ** The reference library meets what is assumed of the library *)

Lemma ref_lower_ascii_ok : lower_ascii_ok RefLib.lib.
Proof. intros s _. reflexivity. Qed.

Lemma lstrip_by_length p (s : pystr) : (length (lstrip_by p s) <= length s)%nat.
Proof.
  induction s as [|c s IH]; simpl; [lia |]. destruct (p c); simpl; lia.
Qed.

Lemma fit_words_fits width ph line ws :
  (length line + length ph <= width)%nat ->
  (length (RefLib.fit_words width ph line ws) + length ph <= width)%nat.
Proof.
  revert line. induction ws as [|w ws IH]; intros line Hl; cbn [RefLib.fit_words].
  - exact Hl.
  - destruct (Nat.leb_spec (length (line ++ [32] ++ w) + length ph) width) as [Hle | _].
    + now apply IH.
    + exact Hl.
Qed.

Lemma ref_shorten_fits : shorten_fits RefLib.lib.
Proof.
  intros text width ph Hph. cbn [textwrap_shorten RefLib.lib]. unfold RefLib.shorten.
  destruct (RefLib.words text) as [|w ws]; [simpl; lia |].
  destruct (Nat.leb_spec (length (RefLib.join_space (w :: ws))) width) as [Hle | _];
    [exact Hle |].
  destruct (Nat.leb_spec (length w + length ph) width) as [Hle | _].
  - rewrite length_app. now apply fit_words_fits.
  - pose proof (lstrip_by_length isspace ph). lia.
Qed.

Lemma build_tweet_length_bound_witness :
  shorten_fits RefLib.lib /\
  (length (@build_tweet RefLib.lib (Some (lit "Patriots win - ESPN"))
             (lit "NESN") (lit "https://x.com/a")) <= 280)%nat.
Proof.
  split; [exact ref_shorten_fits |].
  apply (build_tweet_length_bound RefLib.lib ref_shorten_fits).
  vm_compute. lia.
Defined.

(** C1 fails: a URL longer than the budget comes out whole, in the candidate
    that is refused and then in the fallback, which is not checked. *)
Lemma build_tweet_over_budget :
  (280 < length (@build_tweet RefLib.lib (Some (lit "Patriots win"))
                   (lit "NESN") (lit "https://x.com/" ++ repeat 97%N 280)))%nat.
Proof. apply Nat.ltb_lt. vm_compute. reflexivity. Qed.

(** ** The image resolver *)

Section ImageFacts.
Import Re.

Lemma match_items_caps its dol caps s caps' r :
  Forall (fun it => match it with Group n _ => (1 <= n)%nat | _ => True end) its ->
  Forall (fun g => g <> []) caps ->
  match_items its dol caps s = Some (caps', r) ->
  Forall (fun g : pystr => g <> []) caps'.
Proof.
  revert caps s. induction its as [|it its IH]; intros caps s Hits Hcaps.
  - cbn [match_items]. destruct (dol && negb (at_dollar s)); [discriminate |].
    now intros [= <- _].
  - inversion Hits as [|? ? Hit Hrest]; subst.
    destruct it as [p | n p | n p]; cbn [match_items].
    + destruct s as [|c s]; [discriminate |]. destruct (p c); [| discriminate].
      now apply IH.
    + intros Hg. apply greedy_sound in Hg as (m & s' & _ & _ & _ & Hk).
      eapply IH, Hk; assumption.
    + intros Hg. apply greedy_sound in Hg as (m & s' & _ & _ & Hn & Hk).
      eapply IH, Hk; [assumption |].
      apply Forall_app. split; [assumption |]. constructor; [| constructor].
      cbn in Hn |- *. destruct m; [simpl in Hn; lia | discriminate].
Qed.

Lemma search_inv pat s caps :
  search pat s = Some caps -> exists s' r, match_at pat s' = Some (caps, r).
Proof.
  induction s as [|c s IH]; cbn [search].
  - destruct (match_at pat []) as [[caps0 r]|] eqn:E; [| discriminate].
    intros [= <-]. eauto.
  - destruct (match_at pat (c :: s)) as [[caps0 r]|] eqn:E; [| exact IH].
    intros [= <-]. eauto.
Qed.

(** The group of [IMG_SRC] is never empty. *)
Lemma img_src_truthy html : truthy (img_src html) = true \/ img_src html = None.
Proof.
  unfold img_src. destruct (search IMG_SRC html) as [caps|] eqn:E; [| now right].
  apply search_inv in E as (s' & r & Hm).
  apply match_items_caps in Hm; [| cbn; repeat constructor | constructor].
  destruct caps as [|g caps]; [now right |].
  inversion Hm as [|? ? Hg _]; subst. destruct g; [congruence | now left].
Qed.

Lemma content_img_truthy field :
  truthy (content_img field) = true \/ content_img field = None.
Proof.
  unfold content_img. destruct field as [[|c l]|]; try (now right).
  apply img_src_truthy.
Qed.

(** When every image enclosure has a non-empty [href], the loop over the
    links returns what the specification's second source gives. *)
Lemma first_enclosure_spec links :
  (forall l, In l links -> is_image_enclosure l = true -> truthy (link_href l) = true) ->
  let s2 := List.find truthy (map link_href (List.filter is_image_enclosure links)) ≫= id in
  (first_enclosure links = None /\ s2 = None) \/
  (first_enclosure links = Some s2 /\ truthy s2 = true).
Proof.
  induction links as [|l links IH]; intros Hall; [now left |].
  cbn [first_enclosure List.filter]. fold (is_image_enclosure l).
  destruct (is_image_enclosure l) eqn:El.
  - right. cbn [map List.find].
    rewrite (Hall l (or_introl eq_refl) El). cbn.
    split; [reflexivity | exact (Hall l (or_introl eq_refl) El)].
  - apply IH. intros l' Hl'. apply Hall. now right.
Qed.
End ImageFacts.

(** C6, where the code breaks it.  On an entry whose image enclosure has an
    empty [href] and which has a thumbnail, [extract_image_url] returns the
    empty string, where the five sources in priority order give the URL of
    the thumbnail.  On every entry whose image enclosures all have a
    non-empty [href], [extract_image_url] is the first of the five sources
    that yields a non-empty URL, and nothing when there is none. *)
Theorem extract_image_url_enclosure_href :
  extract_image_url enclosure_without_href = Some [] /\
  resolve_image_spec enclosure_without_href = Some (lit "https://x.com/t.jpg") /\
  forall e : entry,
    (forall l, In l (default [] (entry_links e)) ->
               is_image_enclosure l = true -> truthy (link_href l) = true) ->
    extract_image_url e = resolve_image_spec e /\
    extract_image_url e <> Some [].
Proof.
  split; [reflexivity |]. split; [reflexivity |].
  intros e Hall.
  assert (Heq : extract_image_url e = resolve_image_spec e).
  { unfold extract_image_url, resolve_image_spec, image_sources, first_media_url.
    cbn [List.find].
    destruct (entry_media_content e) as [[|m1 l1]|];
      try (destruct (truthy (media_url m1)) eqn:E1; [now destruct (media_url m1) |]);
      cbn [truthy];
      (destruct (first_enclosure_spec _ Hall) as [[-> ->] | [-> ->]]; [| reflexivity]);
      cbn [truthy];
      (destruct (entry_media_thumbnail e) as [[|m3 l3]|];
       try (destruct (truthy (media_url m3)) eqn:E3; [now destruct (media_url m3) |]);
       cbn [truthy];
       (destruct (content_img_truthy (entry_content e)) as [E4 | E4]; rewrite E4;
        [now destruct (content_img (entry_content e)) |]);
       (destruct (img_src_truthy (or_empty (entry_summary e))) as [E5 | E5]; rewrite E5;
        [now destruct (img_src (or_empty (entry_summary e))) | reflexivity])). }
  split; [exact Heq |].
  rewrite Heq. unfold resolve_image_spec.
  destruct (List.find truthy (image_sources e)) as [o|] eqn:E; [| discriminate].
  apply List.find_some in E as [_ Ht]. cbn. destruct o as [[|c g]|]; discriminate.
Qed.

(** ** The seen-set store *)

Section StoreFacts.

Lemma universal_newlines_id s : ~ In 13 s -> universal_newlines s = s.
Proof.
  induction s as [|c s IH]; [reflexivity |]. cbn [universal_newlines In].
  intros Hn. destruct (N.eqb_spec c 13) as [-> | _]; [tauto |].
  rewrite IH by tauto. reflexivity.
Qed.

Lemma universal_newlines_no_cr_aux n :
  forall s, (length s <= n)%nat -> ~ In 13 (universal_newlines s).
Proof.
  induction n as [|n IH]; intros [|c s] Hlen; cbn [universal_newlines];
    try tauto; [simpl in Hlen; lia |].
  simpl in Hlen. destruct (N.eqb_spec c 13) as [-> | Hc].
  - intros [Hx | Hin]; [discriminate |].
    destruct s as [|d s]; [exact Hin |].
    destruct (d =? 10); revert Hin; apply IH; simpl in *; lia.
  - intros [Hx | Hin]; [congruence |]. revert Hin. apply IH. lia.
Qed.

Lemma universal_newlines_no_cr s : ~ In 13 (universal_newlines s).
Proof. apply (universal_newlines_no_cr_aux (length s)). lia. Qed.

Lemma file_lines_one l rest :
  ~ In 10 l -> file_lines (l ++ 10 :: rest) = (l ++ [10]) :: file_lines rest.
Proof.
  induction l as [|c l IH]; intros Hn; [reflexivity |].
  cbn [app file_lines]. destruct (N.eqb_spec c 10) as [-> | _].
  - exfalso. apply Hn. now left.
  - rewrite IH; [reflexivity |]. intros Hin. apply Hn. now right.
Qed.

Lemma file_lines_join L :
  Forall (fun l => ~ In 10 l) L ->
  file_lines (List.concat (map (fun l => l ++ [10]) L)) = map (fun l => l ++ [10]) L.
Proof.
  induction 1 as [|l L Hl _ IH]; [reflexivity |].
  cbn [map List.concat]. rewrite <- app_assoc. cbn [app].
  rewrite file_lines_one by exact Hl. now rewrite IH.
Qed.

(** A line of the file has no newline, except as its last character. *)
Lemma file_lines_shape s :
  Forall (fun l => exists body, (l = body \/ l = body ++ [10]) /\ ~ In 10 body)
         (file_lines s).
Proof.
  induction s as [|c s IH]; [constructor |]. cbn [file_lines].
  destruct (N.eqb_spec c 10) as [-> | Hc].
  - constructor; [| exact IH]. exists []. split; [now right | tauto].
  - destruct (file_lines s) as [|l ls].
    + constructor; [| constructor]. exists [c]. split; [now left |].
      intros [Hx | []]. congruence.
    + inversion IH as [|? ? (body & Hb & Hn) Hrest]; subst.
      constructor; [| exact Hrest]. exists (c :: body). split.
      * destruct Hb as [-> | ->]; [now left | now right].
      * intros [Hx | Hin]; [congruence | tauto].
Qed.

Lemma lstrip_by_app p (a b : pystr) :
  lstrip_by p (a ++ b) = if forallb p a then lstrip_by p b else lstrip_by p a ++ b.
Proof.
  induction a as [|c a IH]; cbn [app lstrip_by forallb]; [reflexivity |].
  destruct (p c); [exact IH | reflexivity].
Qed.

Lemma lstrip_by_all p (a : pystr) : forallb p a = true -> lstrip_by p a = [].
Proof.
  induction a as [|c a IH]; cbn [lstrip_by forallb]; [reflexivity |].
  destruct (p c); [exact IH | discriminate].
Qed.

Lemma strip_newline l : strip (l ++ [10]) = strip l.
Proof.
  unfold strip, strip_by. rewrite lstrip_by_app.
  destruct (forallb isspace l) eqn:E.
  - now rewrite (lstrip_by_all _ _ E).
  - now apply rstrip_by_app_drop.
Qed.

Lemma rstrip_by_In p c (s : pystr) : In c (rstrip_by p s) -> In c s.
Proof.
  induction s as [|x s IH]; [intros Hin; exact Hin |]. cbn [rstrip_by].
  destruct (rstrip_by p s) as [|y r].
  - destruct (p x); [intros [] |]. intros [-> | []]. now left.
  - intros [-> | Hin]; [now left | right; now apply IH].
Qed.

Lemma strip_In c s : In c (strip s) -> In c s.
Proof.
  unfold strip, strip_by. intros Hin. apply rstrip_by_In in Hin.
  destruct (lstrip_by_suffix isspace s) as [a Ha]. rewrite Ha.
  apply in_or_app. now right.
Qed.

Lemma strip_idem s : strip (strip s) = strip s.
Proof. apply strip_id; [apply strip_no_lead | apply strip_no_trail]. Qed.

Lemma strip_no_space s :
  Forall (fun c => isspace c = false) s -> strip s = s.
Proof.
  intros Hs. apply strip_id.
  - destruct s; [exact I | now inversion Hs].
  - unfold no_trail. induction Hs as [|c s Hc _ IH]; [reflexivity |].
    cbn [rstrip_by]. rewrite IH. destruct s; [now rewrite Hc | reflexivity].
Qed.

(** Reading a text of lines: one element per line that is not blank. *)
Lemma load_seen_lines L :
  Forall (fun l => ~ In 10 l /\ ~ In 13 l) L ->
  load_seen (Some (List.concat (map (fun l => l ++ [10]) L)))
  = list_to_set (List.filter nonempty (map strip L)).
Proof.
  intros HL. unfold load_seen.
  rewrite universal_newlines_id.
  - rewrite file_lines_join by (eapply List.Forall_impl; [| exact HL]; cbn; tauto).
    rewrite map_map. do 2 f_equal. apply map_ext. intros l. apply strip_newline.
  - intros Hin. apply in_concat in Hin as (x & Hx & Hin).
    apply in_map_iff in Hx as (l & <- & Hl).
    rewrite Forall_forall in HL. apply list_elem_of_In in Hl.
    destruct (HL l Hl) as [_ H13]. apply in_app_or in Hin as [Hin | [Hx | []]];
      [tauto | discriminate].
Qed.

Lemma load_seen_elem text h :
  h ∈ load_seen (Some text) <->
  exists line, In line (file_lines (universal_newlines text)) /\
               h = strip line /\ h <> [].
Proof.
  unfold load_seen. rewrite elem_of_list_to_set, list_elem_of_In, List.filter_In.
  rewrite in_map_iff. split.
  - intros [(line & <- & Hl) Hne]. exists line. repeat split; [exact Hl |].
    now destruct (strip line).
  - intros (line & Hl & -> & Hne). split; [now exists line |].
    now destruct (strip line).
Qed.

(** What is read from [seen.txt] can be written and read again. *)
Lemma load_seen_storable file h : h ∈ load_seen file -> storable h.
Proof.
  destruct file as [text|]; [| intros Hh; now apply not_elem_of_empty in Hh].
  intros Hh. apply load_seen_elem in Hh as (line & Hl & -> & Hne).
  repeat split; [exact Hne | apply strip_idem | |].
  - pose proof (file_lines_shape (universal_newlines text)) as Hs.
    rewrite Forall_forall in Hs. apply list_elem_of_In in Hl.
    destruct (Hs line Hl) as (body & [-> | ->] & Hb).
    + intros Hin. apply strip_In in Hin. tauto.
    + rewrite strip_newline. intros Hin. apply strip_In in Hin. tauto.
  - intros Hin. apply strip_In in Hin.
    assert (H13 : In 13 (universal_newlines text)).
    { clear -Hl Hin. revert line Hl Hin.
      induction (universal_newlines text) as [|c s IH]; intros line Hl Hin; [destruct Hl |].
      cbn [file_lines] in Hl. destruct (c =? 10).
      - destruct Hl as [<- | Hl]; [destruct Hin as [-> | []]; now left |].
        right. eapply IH; eauto.
      - destruct (file_lines s) as [|l ls].
        + destruct Hl as [<- | []]. destruct Hin as [-> | []]. now left.
        + destruct Hl as [<- | Hl].
          * destruct Hin as [-> | Hin]; [now left |].
            right. eapply (IH l); [now left | exact Hin].
          * right. eapply (IH line); [now right | exact Hin]. }
    now apply universal_newlines_no_cr in H13.
Qed.

Lemma str_leb_total a b : str_leb a b = true \/ str_leb b a = true.
Proof.
  revert b. induction a as [|x a IH]; intros [|y b]; cbn [str_leb]; try tauto.
  destruct (N.ltb_spec x y), (N.ltb_spec y x); try tauto; try lia. apply IH.
Qed.

#[local] Instance str_le_total : Total str_le.
Proof. intros a b. apply str_leb_total. Qed.

Lemma sorted_Sorted S : Sorted str_le (sorted S).
Proof. apply Sorted_merge_sort. apply _. Qed.

Lemma sorted_Permutation S : sorted S ≡ₚ elements S.
Proof. apply merge_sort_Permutation. Qed.

Lemma elem_of_sorted S h : In h (sorted S) <-> h ∈ S.
Proof. rewrite <- list_elem_of_In, sorted_Permutation. apply elem_of_elements. Qed.

Lemma filter_map_id (f : pystr -> pystr) (q : pystr -> bool) L :
  (forall l, In l L -> f l = l /\ q l = true) -> List.filter q (map f L) = L.
Proof.
  induction L as [|l L IH]; intros Hall; [reflexivity |].
  cbn [map List.filter]. destruct (Hall l (or_introl eq_refl)) as [-> ->].
  rewrite IH; [reflexivity |]. intros l' Hl'. apply Hall. now right.
Qed.

Lemma valid_app a b : Utf8.valid (a ++ b) = Utf8.valid a && Utf8.valid b.
Proof. apply forallb_app. Qed.

Lemma valid_In s : Utf8.valid s = true <-> forall c, In c s -> Utf8.is_surrogate c = false.
Proof.
  unfold Utf8.valid. rewrite forallb_forall. split; intros Hs c Hc.
  - now apply negb_true_iff, Hs.
  - now apply negb_true_iff, Hs.
Qed.

Lemma encode_line h :
  Utf8.encode (h ++ [10])
  = if Utf8.valid h then Some (flat_map Utf8.encode_char (h ++ [10])) else None.
Proof. unfold Utf8.encode. rewrite valid_app. now destruct (Utf8.valid h). Qed.

(** A write that goes through writes every line. *)
Lemma write_lines_valid hs :
  forallb Utf8.valid hs = true ->
  write_lines hs = (List.concat (map (fun h => h ++ [10]) hs), true).
Proof.
  induction hs as [|h hs IH]; [reflexivity |]. cbn [forallb write_lines].
  intros Hv. apply andb_true_iff in Hv as [Hh Hv].
  rewrite encode_line, Hh, (IH Hv). cbn [map List.concat]. now rewrite <- app_assoc.
Qed.

(** In any case the lines of the file are the first ones of the list, and
    all of them unless a write raised. *)
Lemma write_lines_prefix hs :
  exists a b, hs = a ++ b /\ forallb Utf8.valid a = true /\
    fst (write_lines hs) = List.concat (map (fun h => h ++ [10]) a) /\
    (snd (write_lines hs) = true -> b = [] /\ forallb Utf8.valid hs = true) /\
    (snd (write_lines hs) = false -> exists h b', b = h :: b' /\ Utf8.valid h = false).
Proof.
  induction hs as [|h hs (a & b & E & Ha & Ht & Hok & Hno)].
  - exists [], []. cbn. repeat split; try discriminate.
  - cbn [write_lines forallb]. rewrite encode_line. destruct (Utf8.valid h) eqn:Hh.
    + exists (h :: a), b. destruct (write_lines hs) as [text ok]. cbn [fst snd] in *.
      split; [now rewrite E |]. split; [cbn [forallb]; now rewrite Hh, Ha |].
      split; [cbn; now rewrite Ht, <- app_assoc |].
      split; [intros Hk; destruct (Hok Hk) as [-> ->]; now split | exact Hno].
    + exists [], (h :: hs). cbn. repeat split; try discriminate.
      intros _. now exists h, hs.
Qed.

Lemma load_lines_storable (a : list pystr) :
  (forall h, In h a -> storable h) ->
  load_seen (Some (List.concat (map (fun h => h ++ [10]) a))) = list_to_set a.
Proof.
  intros Ha. rewrite load_seen_lines.
  - rewrite filter_map_id; [reflexivity |].
    intros h Hh. destruct (Ha h Hh) as (Hne & Hs & _). split; [exact Hs | now destruct h].
  - apply Forall_forall. intros h Hh. apply list_elem_of_In in Hh.
    destruct (Ha h Hh) as (_ & _ & H10 & H13). tauto.
Qed.

(** A set of strings that can be stored and encoded is written whole, and
    read back as it was. *)
Lemma load_save_storable S :
  (forall h, h ∈ S -> storable h) -> (forall h, h ∈ S -> Utf8.valid h = true) ->
  save_seen S = (List.concat (map (fun h => h ++ [10]) (sorted S)), true) /\
  load_seen (Some (fst (save_seen S))) = S.
Proof.
  intros HS HV.
  assert (E : save_seen S = (List.concat (map (fun h => h ++ [10]) (sorted S)), true)).
  { apply write_lines_valid, forallb_forall. intros h Hh. now apply HV, elem_of_sorted. }
  split; [exact E |]. rewrite E. cbn [fst]. rewrite load_lines_storable.
  - apply set_eq. intros h. now rewrite elem_of_list_to_set, list_elem_of_In, elem_of_sorted.
  - intros h Hh. now apply HS, elem_of_sorted.
Qed.

(** Whether or not the write goes through, the file holds elements of the
    set only. *)
Lemma load_save_subset S :
  (forall h, h ∈ S -> storable h) -> load_seen (Some (fst (save_seen S))) ⊆ S.
Proof.
  intros HS. unfold save_seen.
  destruct (write_lines_prefix (sorted S)) as (a & b & E & _ & -> & _).
  assert (Ha : forall h, In h a -> h ∈ S).
  { intros h Hh. apply elem_of_sorted. rewrite E. apply in_or_app. now left. }
  rewrite load_lines_storable by (intros h Hh; now apply HS, Ha).
  intros h Hh. apply elem_of_list_to_set, list_elem_of_In in Hh. now apply Ha.
Qed.

(** What is read from a decoded file can be encoded. *)
Lemma universal_newlines_In c s : In c (universal_newlines s) -> c = 10 \/ In c s.
Proof.
  assert (Haux : forall n s, (length s <= n)%nat ->
                   In c (universal_newlines s) -> c = 10 \/ In c s).
  { clear s. induction n as [|n IH]; intros [|x s] Hlen; cbn [universal_newlines];
      try tauto; [simpl in Hlen; lia |].
    simpl in Hlen. destruct (x =? 13).
    - intros [Hx | Hin]; [now left |]. destruct s as [|d s]; [destruct Hin |].
      destruct (d =? 10).
      + destruct (IH s ltac:(simpl in *; lia) Hin) as [? | ?]; [now left |].
        right. right. now right.
      + destruct (IH (d :: s) ltac:(simpl in *; lia) Hin) as [? | ?]; [now left |].
        right. now right.
    - intros [Hx | Hin]; [right; now left |].
      destruct (IH s ltac:(lia) Hin) as [? | ?]; [now left | right; now right]. }
  apply (Haux (length s)). lia.
Qed.

Lemma file_lines_In c s line : In line (file_lines s) -> In c line -> In c s.
Proof.
  revert line. induction s as [|x s IH]; intros line Hl Hc; [destruct Hl |].
  cbn [file_lines] in Hl. destruct (x =? 10).
  - destruct Hl as [<- | Hl]; [destruct Hc as [-> | []]; now left |].
    right. eapply IH; eauto.
  - destruct (file_lines s) as [|l ls].
    + destruct Hl as [<- | []]. destruct Hc as [-> | []]. now left.
    + destruct Hl as [<- | Hl].
      * destruct Hc as [-> | Hc]; [now left |]. right. eapply (IH l); [now left | exact Hc].
      * right. eapply (IH line); [now right | exact Hc].
Qed.

Lemma load_seen_valid file h :
  decoded file = true -> h ∈ load_seen file -> Utf8.valid h = true.
Proof.
  destruct file as [text|]; [| intros _ Hh; now apply not_elem_of_empty in Hh].
  cbn [decoded]. intros Hv Hh. apply load_seen_elem in Hh as (line & Hl & -> & _).
  apply valid_In. intros c Hc. apply strip_In in Hc.
  apply (file_lines_In c _ _ Hl) in Hc. apply universal_newlines_In in Hc as [-> | Hc];
    [reflexivity |].
  rewrite valid_In in Hv. now apply Hv.
Qed.

Lemma no_space_storable h :
  h <> [] -> Forall (fun c => isspace c = false) h -> storable h.
Proof.
  intros Hne Hs. repeat split; [exact Hne | now apply strip_no_space | |];
    intros Hin; rewrite Forall_forall in Hs; apply list_elem_of_In in Hin;
    apply Hs in Hin; discriminate.
Qed.
End StoreFacts.

(** C7, as the code has it.  No file gives the empty set; a text of lines
    gives one element per line that is not blank, stripped (so blank lines
    are ignored); the lines that [save_seen] writes are the elements of the
    set, each once, in the sorted order of strings.  For a set of
    fingerprints that are not empty, have no whitespace and can be encoded
    (no lone surrogate), [save_seen] does not raise, the file is these lines,
    each followed by a newline, and loading it gives the set back.  When the
    set has an element that cannot be encoded, [save_seen] raises, and the
    file holds the lines of the elements that sort before the first such
    element. *)
Theorem seen_store_roundtrip :
  load_seen None = ∅ /\
  (forall L : list pystr,
      Forall (fun l => ~ In 10 l /\ ~ In 13 l) L ->
      load_seen (Some (List.concat (map (fun l => l ++ [10]) L)))
      = list_to_set (List.filter nonempty (map strip L))) /\
  (forall S : gset (list N),
      Sorted str_le (sorted S) /\ sorted S ≡ₚ elements S) /\
  (forall S : gset (list N),
      (forall h, h ∈ S -> h <> [] /\ Forall (fun c => isspace c = false) h /\
                          Utf8.valid h = true) ->
      save_seen S = (List.concat (map (fun h => h ++ [10]) (sorted S)), true) /\
      load_seen (Some (fst (save_seen S))) = S) /\
  (forall (S : gset (list N)) (h : pystr),
      h ∈ S -> Utf8.valid h = false ->
      snd (save_seen S) = false /\
      exists a x b, sorted S = a ++ x :: b /\
        forallb Utf8.valid a = true /\ Utf8.valid x = false /\
        fst (save_seen S) = List.concat (map (fun h => h ++ [10]) a)).
Proof.
  split; [reflexivity |]. split; [exact load_seen_lines |]. split.
  - intros S. split; [apply sorted_Sorted | apply sorted_Permutation].
  - split.
    + intros S HS. apply load_save_storable; intros h Hh; destruct (HS h Hh) as (? & ? & ?);
        [now apply no_space_storable | assumption].
    + intros S h Hh Hv. unfold save_seen.
      destruct (write_lines_prefix (sorted S)) as (a & b & E & Ha & Ht & Hok & Hno).
      destruct (snd (write_lines (sorted S))) eqn:Ek.
      * exfalso. destruct (Hok eq_refl) as [_ Hall]. rewrite forallb_forall in Hall.
        rewrite (Hall h) in Hv; [discriminate | now apply elem_of_sorted].
      * split; [reflexivity |]. destruct (Hno eq_refl) as (x & b' & -> & Hx).
        exists a, x, b'. tauto.
Qed.

(** C7 fails for a set with a string that cannot be encoded: the string of
    the one code point U+D800 is not empty and has no whitespace; with it and
    [abc] in the set, [save_seen] writes the line of [abc], which sorts
    first, and raises, so loading the file gives a set without it. *)
Lemma save_seen_raises_on_surrogate :
  let S : gset (list N) := {[ [55296]; lit "abc" ]} in
  (forall h, h ∈ S -> h <> [] /\ Forall (fun c => isspace c = false) h) /\
  save_seen S = (lit "abc" ++ [10], false) /\
  load_seen (Some (fst (save_seen S))) <> S.
Proof.
  intros S.
  assert (E : save_seen S = (lit "abc" ++ [10], false)) by (vm_compute; reflexivity).
  split; [| split; [exact E |]].
  - intros h Hh. apply elem_of_union in Hh as [Hh | Hh];
      apply elem_of_singleton in Hh; subst h; (split; [discriminate |]);
      repeat constructor.
  - rewrite E. cbn [fst]. intros Heq.
    assert (Hin : [55296] ∈ S) by (apply elem_of_union_l; now apply elem_of_singleton).
    rewrite <- Heq in Hin. apply load_seen_elem in Hin as (line & Hl & Hs & _).
    cbn in Hl. destruct Hl as [<- | []]. discriminate Hs.
Qed.

(** ** A run, step by step *)

Section RunFacts.
Context `{PyLib} {W : Type} `{World W}.
Implicit Types (st : run_state W) (e : entry) (tr : list event).

Lemma posted_hashes_app tr1 tr2 :
  posted_hashes (tr1 ++ tr2) = posted_hashes tr1 ++ posted_hashes tr2.
Proof. apply flat_map_app. Qed.

Lemma attempted_hashes_app tr1 tr2 :
  attempted_hashes (tr1 ++ tr2) = attempted_hashes tr1 ++ attempted_hashes tr2.
Proof. apply flat_map_app. Qed.

Lemma posted_in_attempted h tr : In h (posted_hashes tr) -> In h (attempted_hashes tr).
Proof.
  induction tr as [|ev tr IH]; [tauto |].
  change (ev :: tr) with ([ev] ++ tr). rewrite posted_hashes_app, attempted_hashes_app.
  intros Hin. apply in_app_or in Hin as [Hin | Hin]; apply in_or_app; [left | right; tauto].
  destruct ev as [| |h' text m [| |]]; cbn in *; tauto.
Qed.

Lemma tweets_app tr1 tr2 : tweets (tr1 ++ tr2) = tweets tr1 ++ tweets tr2.
Proof. apply List.filter_app. Qed.

Lemma tweets_no_attempt tr : attempted_hashes tr = [] -> tweets tr = [].
Proof.
  induction tr as [|ev tr IH]; [reflexivity |].
  destruct ev; cbn; try exact IH. discriminate.
Qed.

Lemma tweets_parse (urls : list pystr) : tweets (map EvParse urls) = [].
Proof. induction urls as [|u urls IH]; [reflexivity | exact IH]. Qed.

Lemma posted_hashes_tweets tr : posted_hashes (tweets tr) = posted_hashes tr.
Proof.
  induction tr as [|ev tr IH]; [reflexivity |].
  change (ev :: tr) with ([ev] ++ tr). rewrite tweets_app, !posted_hashes_app, IH.
  f_equal. destruct ev; reflexivity.
Qed.

Lemma attempted_hashes_tweets tr : attempted_hashes (tweets tr) = attempted_hashes tr.
Proof.
  induction tr as [|ev tr IH]; [reflexivity |].
  change (ev :: tr) with ([ev] ++ tr). rewrite tweets_app, !attempted_hashes_app, IH.
  f_equal. destruct ev; reflexivity.
Qed.

(** The image part changes neither the seen-set nor the counter, and adds
    at most an upload to the trace. *)
Lemma attach_image_cases e st :
  seen (snd (attach_image e st)) = seen st /\
  posted (snd (attach_image e st)) = posted st /\
  exists ups, trace (snd (attach_image e st)) = trace st ++ ups /\
              posted_hashes ups = [] /\ attempted_hashes ups = [].
Proof.
  unfold attach_image. cbn [POST_IMAGES].
  destruct (extract_image_url e) as [[|c img]|];
    try (repeat split; exists []; now rewrite app_nil_r).
  destruct (upload_image_to_x (c :: img) (world st)) as [mid w].
  destruct mid as [[|d m]|]; cbn; repeat split; now exists [EvUpload (c :: img)].
Qed.

Lemma attach_image_raised e st : raised (snd (attach_image e st)) = raised st.
Proof.
  unfold attach_image. cbn [POST_IMAGES].
  destruct (extract_image_url e) as [[|c img]|]; try reflexivity.
  destruct (upload_image_to_x (c :: img) (world st)) as [mid w].
  now destruct mid as [[|d m]|].
Qed.

Lemma attach_image_media e st : one_media_id (fst (attach_image e st)).
Proof.
  unfold attach_image, one_media_id. cbn [POST_IMAGES].
  destruct (extract_image_url e) as [[|c img]|]; try (now left).
  destruct (upload_image_to_x (c :: img) (world st)) as [mid w].
  destruct mid as [[|d m]|]; cbn; eauto.
Qed.

(** The three ways through the loop body for an entry that passes the
    filters. *)
Lemma relevant_entry_split e :
  relevant_entry e = true ->
  nonempty (entry_title_text e) = true /\ nonempty (entry_link_text e) = true /\
  looks_like_patriots (Some (entry_title_text e)) = true.
Proof.
  unfold relevant_entry. intros Hr.
  apply andb_true_iff in Hr as [Hr ?]. apply andb_true_iff in Hr as [? ?]. tauto.
Qed.

Lemma process_entry_raise src e st :
  relevant_entry e = true -> entry_hash e = None -> process_entry src e st = raise st.
Proof.
  intros Hrel Hh. destruct (relevant_entry_split e Hrel) as (Ht & Hl & Hp).
  unfold process_entry. fold (entry_title_text e). fold (entry_link_text e).
  rewrite Ht, Hl, Hp. cbn [negb orb]. unfold entry_hash in Hh. now rewrite Hh.
Qed.

(** An attempt: the image part, then the call of [create_tweet] with the
    text that [build_tweet] gives, and the state that comes of its result. *)
Lemma process_entry_attempt src e st h :
  relevant_entry e = true -> entry_hash e = Some h -> h ∉ seen st ->
  exists m st1 r w,
    attach_image e st = (m, st1) /\
    create_tweet (build_tweet (Some (entry_title_text e)) src (entry_link_text e)) m
                 (world st1) = (r, w) /\
    process_entry src e st
    = RunState w
        (match r with Posted => {[ h ]} ∪ seen st1 | _ => seen st1 end)
        (match r with Posted => S (posted st1) | _ => posted st1 end)
        (trace st1 ++ [EvTweet h (build_tweet (Some (entry_title_text e)) src
                                              (entry_link_text e)) m r])
        (raised st1).
Proof.
  intros Hrel Hh Hnew. destruct (relevant_entry_split e Hrel) as (Ht & Hl & Hp).
  unfold process_entry. fold (entry_title_text e). fold (entry_link_text e).
  rewrite Ht, Hl, Hp. cbn [negb orb]. unfold entry_hash in Hh. rewrite Hh.
  rewrite (bool_decide_eq_false_2 _ Hnew).
  destruct (attach_image e st) as [m st1].
  destruct (create_tweet _ m (world st1)) as [r w] eqn:Ec.
  exists m, st1, r, w. split; [reflexivity |]. split; [exact Ec |]. now destruct r.
Qed.

(** The loop body leaves the state as it is, for an entry that is filtered
    out or already seen; or raises, when the entry has no fingerprint; or
    makes one attempt. *)
Lemma process_entry_cases src e st :
  (process_entry src e st = st /\
   (relevant_entry e = false \/ exists h, entry_hash e = Some h /\ h ∈ seen st)) \/
  (relevant_entry e = true /\ entry_hash e = None /\ process_entry src e st = raise st) \/
  (relevant_entry e = true /\
   exists h, entry_hash e = Some h /\ (h ∉ seen st) /\
   exists ups text m w1,
     posted_hashes ups = [] /\ attempted_hashes ups = [] /\
     trace (process_entry src e st)
     = trace st ++ ups ++ [EvTweet h text m (fst (create_tweet text m w1))] /\
     raised (process_entry src e st) = raised st /\
     match fst (create_tweet text m w1) with
     | Posted => seen (process_entry src e st) = {[ h ]} ∪ seen st /\
                 posted (process_entry src e st) = S (posted st)
     | Forbidden | Failed =>
                 seen (process_entry src e st) = seen st /\
                 posted (process_entry src e st) = posted st
     end).
Proof.
  destruct (relevant_entry e) eqn:Hrel.
  - destruct (entry_hash e) as [h|] eqn:Hh.
    + destruct (decide (h ∈ seen st)) as [Hin | Hnew].
      * left. split; [| right; now exists h].
        destruct (relevant_entry_split e Hrel) as (Ht & Hl & Hp).
        unfold process_entry. fold (entry_title_text e). fold (entry_link_text e).
        rewrite Ht, Hl, Hp. cbn [negb orb]. unfold entry_hash in Hh. rewrite Hh.
        now rewrite (bool_decide_eq_true_2 _ Hin).
      * right. right. split; [reflexivity |]. exists h. split; [reflexivity |].
        split; [exact Hnew |].
        destruct (process_entry_attempt src e st h Hrel Hh Hnew)
          as (m & st1 & r & w & Ea & Ec & ->).
        destruct (attach_image_cases e st) as (Hs & Hp & ups & Ht & Hu1 & Hu2).
        pose proof (attach_image_raised e st) as Hr.
        rewrite Ea in Hs, Hp, Ht, Hr. cbn [snd] in *.
        exists ups, (build_tweet (Some (entry_title_text e)) src (entry_link_text e)),
               m, (world st1).
        rewrite Ec. cbn [fst trace raised seen posted].
        split; [exact Hu1 |]. split; [exact Hu2 |].
        rewrite Ht, Hs, Hp, Hr, <- app_assoc. destruct r; tauto.
    + right. left. split; [reflexivity |]. split; [reflexivity |].
      now apply process_entry_raise.
  - left. split; [| now left].
    unfold relevant_entry in Hrel. unfold process_entry.
    fold (entry_title_text e). fold (entry_link_text e).
    destruct (nonempty (entry_title_text e)); [| reflexivity].
    destruct (nonempty (entry_link_text e)); [| reflexivity].
    cbn [andb negb orb] in *. now rewrite Hrel.
Qed.

Lemma run_inv_raise S0 st : run_inv S0 st -> run_inv S0 (raise st).
Proof. intros [Hp Hc Hs Hn Hf Hl]. now constructor. Qed.

Lemma process_entry_inv S0 src e st :
  run_inv S0 st -> (posted st < MAX_POSTS_PER_RUN)%nat ->
  run_inv S0 (process_entry src e st).
Proof.
  intros Hinv Hlt.
  destruct (process_entry_cases src e st)
    as [[-> _] | [(_ & _ & ->) |
        (_ & h & _ & Hnew & ups & text & m & w1 & Hu1 & Hu2 & Ht & _ & Hr)]];
    [exact Hinv | now apply run_inv_raise |].
  destruct Hinv as [Hp Hc Hs Hn Hf Hl].
  assert (HnS0 : h ∉ S0).
  { intros Hin. apply Hnew. rewrite Hs. now apply elem_of_union_l. }
  assert (Hnp : ~ In h (posted_hashes (trace st))).
  { intros Hin. apply Hnew. rewrite Hs. apply elem_of_union_r, elem_of_list_to_set.
    now apply list_elem_of_In. }
  destruct (fst (create_tweet text m w1)); destruct Hr as [Hs' Hp'];
    constructor; rewrite ?Ht, ?Hs', ?Hp', ?posted_hashes_app, ?attempted_hashes_app,
                   ?Hu1, ?Hu2; cbn [posted_hashes attempted_hashes flat_map app];
    rewrite ?app_nil_r; try assumption; try lia.
  - rewrite length_app. simpl. lia.
  - rewrite Hs, list_to_set_app_L. cbn [list_to_set].
    rewrite union_empty_r_L, (union_comm_L {[h]}).
    now rewrite union_assoc_L.
  - apply NoDup_app. split; [exact Hn |]. split; [| apply NoDup_singleton].
    intros x Hx Hx'. apply list_elem_of_singleton in Hx'. subst x.
    now apply list_elem_of_In in Hx.
  - intros h' Hin. apply in_app_or in Hin as [Hin | [<- | []]]; auto.
  - intros _. exists (trace st ++ ups), h, text, m. now rewrite <- app_assoc.
  - intros h' Hin. apply in_app_or in Hin as [Hin | [<- | []]]; auto.
  - intros h' Hin. apply in_app_or in Hin as [Hin | [<- | []]]; auto.
Qed.

Lemma entry_loop_inv S0 src es st :
  run_inv S0 st -> run_inv S0 (entry_loop src es st).
Proof.
  revert st. induction es as [|e es IH]; intros st Hinv; [exact Hinv |].
  cbn [entry_loop]. destruct (Nat.leb_spec MAX_POSTS_PER_RUN (posted st)); [exact Hinv |].
  cbv zeta. destruct (raised (process_entry src e st));
    [now apply process_entry_inv | now apply IH, process_entry_inv].
Qed.

Lemma parse_event_inv S0 st (w : W) (url : pystr) :
  run_inv S0 st -> (posted st < MAX_POSTS_PER_RUN)%nat ->
  run_inv S0 (RunState w (seen st) (posted st) (trace st ++ [EvParse url]) (raised st)).
Proof.
  intros [Hp Hc Hs Hn Hf Hl] Hlt.
  constructor; cbn [trace seen posted];
    rewrite ?posted_hashes_app, ?attempted_hashes_app; cbn [posted_hashes attempted_hashes flat_map];
    rewrite ?app_nil_r; try assumption.
  intros E. lia.
Qed.

Lemma feed_loop_inv S0 feeds st :
  run_inv S0 st -> run_inv S0 (feed_loop feeds st).
Proof.
  revert st. induction feeds as [|url feeds IH]; intros st Hinv; [exact Hinv |].
  cbn [feed_loop]. destruct (Nat.leb_spec MAX_POSTS_PER_RUN (posted st)); [exact Hinv |].
  destruct (feedparser_parse url (world st)) as [parsed w]. cbv zeta.
  match goal with |- context [if raised ?x then _ else _] => destruct (raised x) end;
    [now apply entry_loop_inv, parse_event_inv | now apply IH, entry_loop_inv, parse_event_inv].
Qed.

Lemma run_inv_start S0 (w : W) : run_inv S0 (RunState w S0 0 [] false).
Proof.
  constructor; cbn;
    [ reflexivity | unfold MAX_POSTS_PER_RUN; lia | now rewrite union_empty_r_L
    | constructor | intros h [] | discriminate ].
Qed.

(** The state that a run returns is the state at the end of the loops,
    raised when [save_seen] raised. *)
Lemma run_bot_on_cases feeds file (w : W) :
  let st := feed_loop feeds (RunState w (load_seen file) 0 [] false) in
  (raised st = true /\ run_bot_on feeds file w = (file, st)) \/
  (raised st = false /\ snd (save_seen (seen st)) = true /\
   run_bot_on feeds file w = (Some (fst (save_seen (seen st))), st)) \/
  (raised st = false /\ snd (save_seen (seen st)) = false /\
   run_bot_on feeds file w = (Some (fst (save_seen (seen st))), raise st)).
Proof.
  intros st. unfold run_bot_on. fold st. destruct (raised st); [now left | right].
  destruct (save_seen (seen st)) as [text ok]. destruct ok; [left | right]; tauto.
Qed.

Lemma run_bot_on_fields feeds file (w : W) :
  let st := feed_loop feeds (RunState w (load_seen file) 0 [] false) in
  let st' := snd (run_bot_on feeds file w) in
  world st' = world st /\ seen st' = seen st /\ posted st' = posted st /\
  trace st' = trace st /\ (raised st' = false -> raised st = false).
Proof.
  intros st st'. unfold st'.
  destruct (run_bot_on_cases feeds file w) as [[Hr ->] | [(Hr & _ & ->) | (Hr & _ & ->)]];
    fold st; cbn [snd raise world seen posted trace raised]; tauto.
Qed.

Lemma run_bot_on_inv feeds file (w : W) :
  run_inv (load_seen file) (snd (run_bot_on feeds file w)).
Proof.
  pose proof (feed_loop_inv (load_seen file) feeds _ (run_inv_start (load_seen file) w))
    as Hinv.
  destruct (run_bot_on_cases feeds file w) as [[_ ->] | [(_ & _ & ->) | (_ & _ & ->)]];
    cbn [snd]; [exact Hinv | exact Hinv | now apply run_inv_raise].
Qed.

(** Both loops stop at the cap. *)
Lemma entry_loop_at_cap src es st :
  (MAX_POSTS_PER_RUN <= posted st)%nat -> entry_loop src es st = st.
Proof.
  intros Hc. destruct es as [|e es]; [reflexivity |]. cbn [entry_loop].
  apply Nat.leb_le in Hc. now rewrite Hc.
Qed.

Lemma feed_loop_at_cap feeds st :
  (MAX_POSTS_PER_RUN <= posted st)%nat -> feed_loop feeds st = st.
Proof.
  intros Hc. destruct feeds as [|url feeds]; [reflexivity |]. cbn [feed_loop].
  apply Nat.leb_le in Hc. now rewrite Hc.
Qed.

(** Nothing is in the trace after the publish that reaches the cap. *)
Lemma nothing_after_cap S0 st pre ev post :
  run_inv S0 st -> trace st = pre ++ ev :: post ->
  length (posted_hashes (pre ++ [ev])) = MAX_POSTS_PER_RUN -> post = [].
Proof.
  intros [Hp Hc Hs Hn Hf Hl] Ht Hlen.
  assert (Hpost : posted_hashes post = []).
  { rewrite Ht in Hp. change (ev :: post) with ([ev] ++ post) in Hp.
    rewrite app_assoc, posted_hashes_app, length_app in Hp.
    destruct (posted_hashes post); [reflexivity | simpl in Hp; lia]. }
  assert (Hmax : posted st = MAX_POSTS_PER_RUN).
  { rewrite Hp, Ht. change (ev :: post) with ([ev] ++ post).
    rewrite app_assoc, posted_hashes_app, Hpost, app_nil_r. exact Hlen. }
  destruct (Hl Hmax) as (tr & h & text & m & Hlast).
  destruct (exists_last (l := ev :: post)) as (l' & x & Hx); [discriminate |].
  destruct post as [|p post]; [reflexivity |]. exfalso.
  rewrite Ht, Hx, app_assoc in Hlast. apply app_inj_tail in Hlast as [_ ->].
  destruct (exists_last (l := p :: post)) as (l2 & y & Hy); [discriminate |].
  rewrite Hy in Hx. change (ev :: l2 ++ [y]) with ((ev :: l2) ++ [y]) in Hx.
  apply app_inj_tail in Hx as [_ ->].
  rewrite Hy, posted_hashes_app in Hpost. cbn in Hpost.
  now apply app_eq_nil in Hpost as [_ ?].
Qed.

(** The trace is the record of the calls: the outside at any point of a run
    is what the calls of the trace made of it, and each outcome in the trace
    is the one that [create_tweet] gave. *)
Lemma replay_app tr1 tr2 (w : W) : replay (tr1 ++ tr2) w = replay tr2 (replay tr1 w).
Proof. apply fold_left_app. Qed.

Lemma outcomes_recorded_app tr1 tr2 (w : W) :
  outcomes_recorded (tr1 ++ tr2) w
  <-> outcomes_recorded tr1 w /\ outcomes_recorded tr2 (replay tr1 w).
Proof.
  revert w. induction tr1 as [|ev tr1 IH]; intros w; cbn [app outcomes_recorded].
  - cbn. tauto.
  - rewrite IH. cbn. tauto.
Qed.

Lemma recorded_step (w0 : W) st ev (w' : W) s p b :
  recorded w0 st -> w' = call ev (world st) ->
  match ev with
  | EvTweet _ text m r => r = fst (create_tweet text m (world st))
  | _ => True
  end ->
  recorded w0 (RunState w' s p (trace st ++ [ev]) b).
Proof.
  intros [Hw Ho] -> Hev. split; cbn [world trace].
  - rewrite replay_app, <- Hw. reflexivity.
  - apply outcomes_recorded_app. split; [exact Ho |]. rewrite <- Hw. cbn. tauto.
Qed.

Lemma attach_image_recorded (w0 : W) e st :
  recorded w0 st -> recorded w0 (snd (attach_image e st)).
Proof.
  intros Hrec. unfold attach_image. cbn [POST_IMAGES].
  destruct (extract_image_url e) as [[|c img]|]; try exact Hrec.
  destruct (upload_image_to_x (c :: img) (world st)) as [mid w] eqn:Eu.
  assert (Hst : recorded w0 (RunState w (seen st) (posted st)
                               (trace st ++ [EvUpload (c :: img)]) (raised st))).
  { apply recorded_step; [exact Hrec | cbn; now rewrite Eu | exact I]. }
  now destruct mid as [[|d m]|].
Qed.

Lemma process_entry_recorded (w0 : W) src e st :
  recorded w0 st -> recorded w0 (process_entry src e st).
Proof.
  intros Hrec.
  destruct (process_entry_cases src e st)
    as [[-> _] | [(_ & _ & ->) | (Hrel & h & Hh & Hnew & _)]];
    [exact Hrec | exact Hrec |].
  destruct (process_entry_attempt src e st h Hrel Hh Hnew)
    as (m & st1 & r & w & Ea & Ec & ->).
  pose proof (attach_image_recorded w0 e st Hrec) as Hrec1. rewrite Ea in Hrec1.
  cbn [snd] in Hrec1.
  apply recorded_step; [exact Hrec1 | cbn; now rewrite Ec | now rewrite Ec].
Qed.

Lemma entry_loop_recorded (w0 : W) src es st :
  recorded w0 st -> recorded w0 (entry_loop src es st).
Proof.
  revert st. induction es as [|e es IH]; intros st Hrec; [exact Hrec |].
  cbn [entry_loop]. destruct (MAX_POSTS_PER_RUN <=? posted st)%nat; [exact Hrec |].
  cbv zeta. destruct (raised (process_entry src e st));
    [now apply process_entry_recorded | now apply IH, process_entry_recorded].
Qed.

Lemma feed_loop_recorded (w0 : W) feeds st :
  recorded w0 st -> recorded w0 (feed_loop feeds st).
Proof.
  revert st. induction feeds as [|url feeds IH]; intros st Hrec; [exact Hrec |].
  cbn [feed_loop]. destruct (MAX_POSTS_PER_RUN <=? posted st)%nat; [exact Hrec |].
  destruct (feedparser_parse url (world st)) as [parsed w] eqn:Ep. cbv zeta.
  assert (Hst : recorded w0 (RunState w (seen st) (posted st)
                               (trace st ++ [EvParse url]) (raised st))).
  { apply recorded_step; [exact Hrec | cbn; now rewrite Ep | exact I]. }
  match goal with |- context [if raised ?x then _ else _] => destruct (raised x) end;
    [now apply entry_loop_recorded | now apply IH, entry_loop_recorded].
Qed.

Lemma run_bot_on_recorded feeds file (w : W) :
  recorded w (snd (run_bot_on feeds file w)).
Proof.
  assert (Hrec : recorded w (feed_loop feeds (RunState w (load_seen file) 0 [] false))).
  { apply feed_loop_recorded. split; cbn; [reflexivity | exact I]. }
  destruct (run_bot_on_cases feeds file w) as [[_ ->] | [(_ & _ & ->) | (_ & _ & ->)]];
    exact Hrec.
Qed.
End RunFacts.

(** C4. In every run the number of successful publishes is the counter, and
    it never exceeds [MAX_POSTS_PER_RUN = 4]; at the cap the loop over the
    feeds and the loop over the entries both return the state unchanged; and
    the trace of a run has no call (no feed read, no upload, no tweet) after
    the publish that reaches the cap. *)
Theorem posts_per_run_capped (L : PyLib) (W : Type) (Wd : World W)
    (file : option pystr) (w : W) :
  let st := snd (run_bot file w) in
  MAX_POSTS_PER_RUN = 4%nat /\
  length (posted_hashes (trace st)) = posted st /\
  (posted st <= MAX_POSTS_PER_RUN)%nat /\
  (forall feeds (st' : run_state W),
      (MAX_POSTS_PER_RUN <= posted st')%nat -> feed_loop feeds st' = st') /\
  (forall source es (st' : run_state W),
      (MAX_POSTS_PER_RUN <= posted st')%nat -> entry_loop source es st' = st') /\
  (forall pre ev post,
      trace st = pre ++ ev :: post ->
      length (posted_hashes (pre ++ [ev])) = MAX_POSTS_PER_RUN -> post = []).
Proof.
  intros st. pose proof (run_bot_on_inv FEEDS file w) as Hinv. fold st in Hinv.
  split; [reflexivity |]. split; [symmetry; apply Hinv |]. split; [apply Hinv |].
  split; [intros; now apply feed_loop_at_cap |].
  split; [intros; now apply entry_loop_at_cap |].
  intros pre ev post. now apply nothing_after_cap with (S0 := load_seen file).
Qed.

(** ** Fingerprints can be stored *)

Section HashFacts.
Import Sha256.

Lemma hexdigit_no_space x : isspace (hexdigit (N.land x 15)) = false.
Proof.
  change 15 with (N.ones 4). rewrite N.land_ones. change (2 ^ 4) with 16.
  assert (Hlt : x mod 16 < 16) by (apply N.mod_lt; discriminate).
  assert (Hall : forallb (fun d => negb (isspace (hexdigit d)))
                         (map N.of_nat (seq 0 16)) = true) by reflexivity.
  rewrite forallb_forall in Hall.
  apply negb_true_iff, Hall. apply in_map_iff.
  exists (N.to_nat (x mod 16)). split; [apply N2Nat.id |].
  apply in_seq. clear Hall. revert Hlt. generalize (x mod 16). intros d Hd. lia.
Qed.

Lemma hex8_no_space x : Forall (fun c => isspace c = false) (hex8 x).
Proof.
  unfold hex8. apply Forall_forall. intros c Hc.
  apply list_elem_of_In, in_map_iff in Hc as (i & <- & _). apply hexdigit_no_space.
Qed.

Lemma hexdigest_no_space msg : Forall (fun c => isspace c = false) (hexdigest msg).
Proof.
  unfold hexdigest. generalize (digest msg). intros s.
  repeat (apply Forall_app; split); apply hex8_no_space.
Qed.

Lemma hexdigest_length msg : length (hexdigest msg) = 64%nat.
Proof.
  unfold hexdigest. generalize (digest msg). intros s.
  rewrite !length_app. unfold hex8. rewrite !length_map. reflexivity.
Qed.

Lemma hexdigit_is_hex x : is_hex_char (hexdigit (N.land x 15)) = true.
Proof.
  change 15 with (N.ones 4). rewrite N.land_ones. change (2 ^ 4) with 16.
  assert (Hlt : x mod 16 < 16) by (apply N.mod_lt; discriminate).
  assert (Hall : forallb (fun d => is_hex_char (hexdigit d))
                         (map N.of_nat (seq 0 16)) = true) by reflexivity.
  rewrite forallb_forall in Hall. apply Hall. apply in_map_iff.
  exists (N.to_nat (x mod 16)). split; [apply N2Nat.id |].
  apply in_seq. clear Hall. revert Hlt. generalize (x mod 16). intros d Hd. lia.
Qed.

Lemma hexdigest_is_hex msg : forallb is_hex_char (hexdigest msg) = true.
Proof.
  unfold hexdigest. generalize (digest msg). intros s. rewrite !forallb_app.
  assert (H8 : forall x, forallb is_hex_char (hex8 x) = true).
  { intros x. unfold hex8. apply forallb_forall. intros c Hc.
    apply in_map_iff in Hc as (i & <- & _). apply hexdigit_is_hex. }
  now rewrite !H8.
Qed.

Lemma is_hex_not_surrogate c : is_hex_char c = true -> Utf8.is_surrogate c = false.
Proof.
  unfold is_hex_char, Utf8.is_surrogate. intros Hc.
  apply andb_false_iff. left. apply N.leb_gt.
  apply orb_true_iff in Hc as [Hc | Hc]; apply andb_true_iff in Hc as [_ Hc];
    apply N.leb_le in Hc; lia.
Qed.

Lemma hexdigest_valid msg : Utf8.valid (hexdigest msg) = true.
Proof.
  apply valid_In. intros c Hc. apply is_hex_not_surrogate.
  pose proof (hexdigest_is_hex msg) as Hh. rewrite forallb_forall in Hh. now apply Hh.
Qed.

(** A fingerprint is the [hexdigest] of the encoded text. *)
Lemma item_hash_some `{PyLib} title url h :
  item_hash title url = Some h -> exists msg, h = hexdigest msg.
Proof.
  unfold item_hash. destruct (Utf8.encode _) as [bytes|]; [| discriminate].
  intros [= <-]. now exists bytes.
Qed.

Lemma item_hash_storable `{PyLib} title url h :
  item_hash title url = Some h -> storable h.
Proof.
  intros Hh. apply item_hash_some in Hh as [msg ->].
  apply no_space_storable; [| apply hexdigest_no_space].
  intros E. pose proof (hexdigest_length msg) as Hl. rewrite E in Hl. discriminate.
Qed.

Lemma item_hash_valid `{PyLib} title url h :
  item_hash title url = Some h -> Utf8.valid h = true.
Proof. intros Hh. apply item_hash_some in Hh as [msg ->]. apply hexdigest_valid. Qed.
End HashFacts.

(** ** What a run covers, and where its attempts come from *)

Section RunCoverage.
Context `{PyLib} {W : Type} `{World W}.
Implicit Types (st : run_state W) (e : entry) (tr : list event).

Lemma process_entry_skip src e st :
  relevant_entry e = false \/ (exists h, entry_hash e = Some h /\ h ∈ seen st) ->
  process_entry src e st = st.
Proof.
  intros Hskip.
  destruct (process_entry_cases src e st)
    as [[E _] | [(Hr & Hn & _) | (Hr & h & Hh & Hn & _)]]; [exact E | |];
    destruct Hskip as [Hf | (h' & Hh' & Hin)]; congruence.
Qed.

(** A step never takes a fingerprint out of the seen-set or an attempt
    out of the trace, never lowers the counter, and leaves a raised state
    raised. *)
Lemma process_entry_grows src e st :
  seen st ⊆ seen (process_entry src e st) /\
  (forall h, In h (attempted_hashes (trace st)) ->
             In h (attempted_hashes (trace (process_entry src e st)))) /\
  (posted st <= posted (process_entry src e st))%nat /\
  (raised st = true -> raised (process_entry src e st) = true).
Proof.
  destruct (process_entry_cases src e st)
    as [[-> _] | [(_ & _ & ->) |
        (_ & h0 & _ & _ & ups & text & m & w1 & _ & _ & Ht & Hra & Hr)]];
    [repeat split; auto | repeat split; auto |].
  rewrite Ht, attempted_hashes_app, Hra.
  destruct (fst (create_tweet text m w1)); destruct Hr as [-> ->];
    (repeat split; [try apply union_subseteq_r; try reflexivity
                   | intros h Hin; apply in_or_app; now left | lia | tauto]).
Qed.

Lemma covered_process e0 src e st :
  covered e0 st -> covered e0 (process_entry src e st).
Proof.
  destruct (process_entry_grows src e st) as (Hs & Ha & Hp & Hr).
  intros [(h & Hh & [Hin | Hin]) | [Hc | Hra]].
  - left. exists h. split; [exact Hh | left; now apply Hs].
  - left. exists h. split; [exact Hh | right; now apply Ha].
  - right; left. lia.
  - right; right. now apply Hr.
Qed.

Lemma process_entry_covers src e st :
  relevant_entry e = true -> covered e (process_entry src e st).
Proof.
  intros Hrel.
  destruct (process_entry_cases src e st)
    as [[-> [Hf | (h & Hh & Hin)]] | [(_ & _ & ->) |
        (_ & h & Hh & _ & ups & text & m & w1 & _ & _ & Ht & _)]].
  - congruence.
  - left. exists h. split; [exact Hh | now left].
  - right; right. reflexivity.
  - left. exists h. split; [exact Hh |]. right.
    rewrite Ht, !attempted_hashes_app. apply in_or_app. right.
    apply in_or_app. right. now left.
Qed.

Lemma covered_entry_loop e0 src es st :
  covered e0 st -> covered e0 (entry_loop src es st).
Proof.
  revert st. induction es as [|e es IH]; intros st Hc; [exact Hc |].
  cbn [entry_loop]. destruct (MAX_POSTS_PER_RUN <=? posted st)%nat; [exact Hc |].
  cbv zeta. destruct (raised (process_entry src e st));
    [now apply covered_process | now apply IH, covered_process].
Qed.

Lemma entry_loop_covers src es st e :
  In e es -> relevant_entry e = true -> covered e (entry_loop src es st).
Proof.
  revert st. induction es as [|e0 es IH]; intros st Hin Hrel; [destruct Hin |].
  cbn [entry_loop]. destruct (Nat.leb_spec MAX_POSTS_PER_RUN (posted st)) as [Hcap | _].
  - right; left. exact Hcap.
  - cbv zeta. destruct (raised (process_entry src e0 st)) eqn:Hra.
    + right; right. exact Hra.
    + destruct Hin as [-> | Hin].
      * now apply covered_entry_loop, process_entry_covers.
      * now apply IH.
Qed.

Lemma covered_parse e0 st (w : W) (url : pystr) :
  covered e0 st ->
  covered e0 (RunState w (seen st) (posted st) (trace st ++ [EvParse url]) (raised st)).
Proof.
  intros [(h & Hh & [Hin | Hin]) | [Hc | Hra]].
  - left. exists h. split; [exact Hh | now left].
  - left. exists h. split; [exact Hh | right].
    cbn [trace]. rewrite attempted_hashes_app. apply in_or_app. now left.
  - right; now left.
  - right; now right.
Qed.

Lemma covered_feed_loop e0 feeds st :
  covered e0 st -> covered e0 (feed_loop feeds st).
Proof.
  revert st. induction feeds as [|url feeds IH]; intros st Hc; [exact Hc |].
  cbn [feed_loop]. destruct (MAX_POSTS_PER_RUN <=? posted st)%nat; [exact Hc |].
  destruct (feedparser_parse url (world st)) as [parsed w]. cbv zeta.
  match goal with |- context [if raised ?x then _ else _] => destruct (raised x) end;
    [now apply covered_entry_loop, covered_parse
    | now apply IH, covered_entry_loop, covered_parse].
Qed.

(** Every relevant entry of the data is covered at the end of the loops. *)
Lemma feed_loop_covers D feeds st e :
  feeds_fixed D -> in_feeds D feeds e -> relevant_entry e = true ->
  covered e (feed_loop feeds st).
Proof.
  intros Hfix (url & Hurl & He) Hrel. revert st.
  induction feeds as [|url0 feeds IH]; intros st; [destruct Hurl |].
  cbn [feed_loop]. destruct (Nat.leb_spec MAX_POSTS_PER_RUN (posted st)) as [Hcap | _].
  - right; left. exact Hcap.
  - pose proof (Hfix url0 (world st)) as HD.
    destruct (feedparser_parse url0 (world st)) as [parsed w]. cbn [fst] in HD. subst parsed.
    cbv zeta.
    match goal with |- context [if raised ?x then _ else _] => destruct (raised x) eqn:Hra end.
    + right; right. exact Hra.
    + destruct Hurl as [-> | Hurl].
      * now apply covered_feed_loop, entry_loop_covers.
      * now apply IH.
Qed.

(** Where the attempts come from *)

Lemma process_entry_attempts (P : entry -> Prop) src e st :
  P e -> attempts_from P st -> attempts_from P (process_entry src e st).
Proof.
  intros HP Hst.
  destruct (process_entry_cases src e st)
    as [[-> _] | [(_ & _ & ->) |
        (Hrel & h0 & Hh & _ & ups & text & m & w1 & _ & Hu & Ht & _)]];
    [exact Hst | exact Hst |].
  intros h. rewrite Ht, !attempted_hashes_app, Hu. cbn.
  intros Hin. apply in_app_or in Hin as [Hin | [<- | []]]; [now apply Hst |].
  now exists e.
Qed.

Lemma entry_loop_attempts (P : entry -> Prop) src es st :
  (forall e, In e es -> P e) -> attempts_from P st ->
  attempts_from P (entry_loop src es st).
Proof.
  revert st. induction es as [|e es IH]; intros st HP Hst; [exact Hst |].
  cbn [entry_loop]. destruct (MAX_POSTS_PER_RUN <=? posted st)%nat; [exact Hst |].
  assert (Hst' : attempts_from P (process_entry src e st))
    by (apply process_entry_attempts; [apply HP; now left | exact Hst]).
  cbv zeta. destruct (raised (process_entry src e st)); [exact Hst' |].
  apply IH; [intros e' He'; apply HP; now right | exact Hst'].
Qed.

Lemma feed_loop_attempts (P : entry -> Prop) feeds st :
  (forall url w e, In url feeds ->
     In e (firstn 12 (entries (fst (feedparser_parse url w)))) -> P e) ->
  attempts_from P st -> attempts_from P (feed_loop feeds st).
Proof.
  revert st. induction feeds as [|url feeds IH]; intros st HP Hst; [exact Hst |].
  cbn [feed_loop]. destruct (MAX_POSTS_PER_RUN <=? posted st)%nat; [exact Hst |].
  pose proof (HP url (world st)) as HPu.
  destruct (feedparser_parse url (world st)) as [parsed w]. cbn [fst] in HPu.
  cbv zeta.
  set (st1 := RunState w (seen st) (posted st) (trace st ++ [EvParse url]) (raised st)).
  assert (Hst1 : attempts_from P
                   (entry_loop (default (lit "Source") (feed_title parsed))
                               (firstn 12 (entries parsed)) st1)).
  { apply entry_loop_attempts; [intros e He; apply HPu; [now left | exact He] |].
    intros h. cbn [st1 trace]. rewrite attempted_hashes_app. cbn. rewrite app_nil_r.
    apply Hst. }
  match goal with |- context [if raised ?x then _ else _] => destruct (raised x) end;
    [exact Hst1 |].
  apply IH; [intros url' w' e Hu; apply HP; now right | exact Hst1].
Qed.

Lemma run_bot_on_attempts (P : entry -> Prop) feeds file (w : W) :
  (forall url w e, In url feeds ->
     In e (firstn 12 (entries (fst (feedparser_parse url w)))) -> P e) ->
  attempts_from P (snd (run_bot_on feeds file w)).
Proof.
  intros HP h. destruct (run_bot_on_fields feeds file w) as (_ & _ & _ & -> & _).
  revert h. apply feed_loop_attempts; [exact HP | intros h []].
Qed.

Lemma run_bot_on_covers D feeds file (w : W) e :
  feeds_fixed D -> in_feeds D feeds e -> relevant_entry e = true ->
  covered e (snd (run_bot_on feeds file w)).
Proof.
  intros Hfix Hin Hrel.
  pose proof (feed_loop_covers D feeds (RunState w (load_seen file) 0 [] false) e
                Hfix Hin Hrel) as Hcov.
  destruct (run_bot_on_cases feeds file w) as [[_ ->] | [(_ & _ & ->) | (_ & _ & ->)]];
    cbn [snd]; [exact Hcov | exact Hcov |].
  right; right. reflexivity.
Qed.

(** The seen-set of a run holds strings that can be stored. *)
Lemma run_bot_on_storable feeds file (w : W) h :
  h ∈ seen (snd (run_bot_on feeds file w)) ->
  storable h /\ ((forall h', h' ∈ load_seen file -> Utf8.valid h' = true) ->
                 Utf8.valid h = true).
Proof.
  pose proof (run_bot_on_inv feeds file w) as Hinv.
  pose proof (run_bot_on_attempts (fun _ => True) feeds file w (fun _ _ _ _ _ => I)) as Hatt.
  intros Hh. rewrite (inv_seen _ _ Hinv) in Hh. apply elem_of_union in Hh as [Hh | Hh].
  - split; [now apply load_seen_storable in Hh | intros Hv; now apply Hv].
  - apply elem_of_list_to_set, list_elem_of_In, posted_in_attempted in Hh.
    destruct (Hatt h Hh) as (e & _ & _ & He). unfold entry_hash in He.
    split; [now apply item_hash_storable in He | intros _; now apply item_hash_valid in He].
Qed.

(** In any case the file after a run holds nothing but what the run had
    in its seen-set. *)
Lemma run_bot_on_reload_sub feeds file (w : W) :
  load_seen (fst (run_bot_on feeds file w)) ⊆ seen (snd (run_bot_on feeds file w)).
Proof.
  pose proof (run_bot_on_inv feeds file w) as Hinv.
  pose proof (fun h Hh => proj1 (run_bot_on_storable feeds file w h Hh)) as Hst.
  destruct (run_bot_on_fields feeds file w) as (_ & Hs & _).
  rewrite Hs in Hst.
  destruct (run_bot_on_cases feeds file w) as [[_ E] | [(_ & _ & E) | (_ & _ & E)]];
    rewrite E in *; cbn [fst snd raise seen] in *.
  - rewrite (inv_seen _ _ Hinv). apply union_subseteq_l.
  - now apply load_save_subset.
  - now apply load_save_subset.
Qed.

(** A run that returns has saved its seen-set, so the next run reads it
    back. *)
Lemma run_bot_on_reload feeds file (w : W) :
  raised (snd (run_bot_on feeds file w)) = false ->
  load_seen (fst (run_bot_on feeds file w)) = seen (snd (run_bot_on feeds file w)) /\
  raised (feed_loop feeds (RunState w (load_seen file) 0 [] false)) = false /\
  forall h, h ∈ seen (snd (run_bot_on feeds file w)) -> Utf8.valid h = true.
Proof.
  intros Hra.
  pose proof (fun h Hh => proj1 (run_bot_on_storable feeds file w h Hh)) as Hst.
  destruct (run_bot_on_cases feeds file w) as [[Hr E] | [(Hr & Hok & E) | (_ & _ & E)]];
    rewrite E in *; cbn [fst snd raise seen raised] in *; try congruence.
  set (S := seen (feed_loop feeds (RunState w (load_seen file) 0 [] false))) in *.
  assert (Hv : forall h, h ∈ S -> Utf8.valid h = true).
  { intros h Hh. unfold save_seen in Hok.
    destruct (write_lines_prefix (sorted S)) as (a & b & _ & _ & _ & Hall & _).
    destruct (Hall Hok) as [_ Hall']. rewrite forallb_forall in Hall'.
    now apply Hall', elem_of_sorted. }
  split; [| split; [exact Hr | exact Hv]].
  now apply load_save_storable.
Qed.

(** With a seen-set that can be encoded at the start, [save_seen] does not
    raise at the end. *)
Lemma run_bot_on_saves feeds file (w : W) :
  (forall h, h ∈ load_seen file -> Utf8.valid h = true) ->
  raised (feed_loop feeds (RunState w (load_seen file) 0 [] false)) = false ->
  raised (snd (run_bot_on feeds file w)) = false.
Proof.
  intros Hv Hr.
  pose proof (fun h Hh => proj1 (run_bot_on_storable feeds file w h Hh)) as Hst.
  pose proof (fun h Hh => proj2 (run_bot_on_storable feeds file w h Hh) Hv) as Hval.
  destruct (run_bot_on_cases feeds file w) as [[Hr' E] | [(_ & Hok & E) | (_ & Hno & E)]];
    rewrite E in *; cbn [fst snd raise seen raised] in *; try congruence.
  destruct (load_save_storable _ Hst Hval) as [Es _]. rewrite Es in Hno. discriminate.
Qed.

(** Feeds whose entries are all filtered out or seen: the run reads them,
    one after the other, and does nothing else. *)
Lemma entry_loop_quiet src es st :
  (forall e, In e es ->
     relevant_entry e = false \/ exists h, entry_hash e = Some h /\ h ∈ seen st) ->
  entry_loop src es st = st.
Proof.
  induction es as [|e es IH]; intros Hq; [reflexivity |].
  cbn [entry_loop]. destruct (MAX_POSTS_PER_RUN <=? posted st)%nat; [reflexivity |].
  rewrite process_entry_skip by (apply Hq; now left).
  cbv zeta. destruct (raised st); [reflexivity |].
  apply IH. intros e' He'. apply Hq. now right.
Qed.

Lemma feed_loop_quiet D feeds st :
  feeds_fixed D ->
  (forall e, in_feeds D feeds e ->
     relevant_entry e = false \/ exists h, entry_hash e = Some h /\ h ∈ seen st) ->
  raised st = false -> (posted st < MAX_POSTS_PER_RUN)%nat ->
  feed_loop feeds st
  = RunState (replay (map EvParse feeds) (world st)) (seen st) (posted st)
             (trace st ++ map EvParse feeds) false.
Proof.
  intros Hfix. revert st. induction feeds as [|url feeds IH]; intros st Hq Hr Hp.
  - destruct st as [w s p t r]. cbn in *. subst r. now rewrite app_nil_r.
  - cbn [feed_loop]. apply Nat.leb_gt in Hp as Hp'. rewrite Hp'.
    pose proof (Hfix url (world st)) as HD.
    destruct (feedparser_parse url (world st)) as [parsed w] eqn:Ep.
    cbn [fst] in HD. subst parsed. cbv zeta.
    rewrite entry_loop_quiet.
    + cbn [raised]. rewrite Hr. rewrite IH; cbn [seen posted trace world raised].
      * cbn [map replay fold_left call]. fold (replay (map EvParse feeds)).
        rewrite Ep. cbn [snd]. now rewrite <- app_assoc.
      * intros e (u & Hu & He). apply Hq. exists u. split; [now right | exact He].
      * reflexivity.
      * exact Hp.
    + intros e He. apply Hq. exists url. split; [now left | exact He].
Qed.
End RunCoverage.

(** C10. In a run no two successful publishes have the same fingerprint, and
    none has a fingerprint that was in the seen-set read at the start.  The
    seen-set in memory is the one read plus the fingerprints posted: a
    publish that succeeds puts its fingerprint there at once, and from then
    on, before anything is saved, an entry with an equal fingerprint is
    skipped without an attempt. *)
Theorem no_duplicate_posts (L : PyLib) (W : Type) (Wd : World W)
    (file : option pystr) (w : W) :
  let st := snd (run_bot file w) in
  NoDup (posted_hashes (trace st)) /\
  (forall h, In h (posted_hashes (trace st)) -> h ∉ load_seen file) /\
  seen st = load_seen file ∪ list_to_set (posted_hashes (trace st)) /\
  (forall source e (st1 : run_state W),
      posted (process_entry source e st1) = S (posted st1) ->
      exists h, entry_hash e = Some h /\
      h ∈ seen (process_entry source e st1) /\
      forall source' e',
        entry_hash e' = entry_hash e ->
        process_entry source' e' (process_entry source e st1)
        = process_entry source e st1).
Proof.
  intros st. pose proof (run_bot_on_inv FEEDS file w) as Hinv. fold st in Hinv.
  split; [apply Hinv |]. split.
  { intros h Hh. apply (inv_fresh _ _ Hinv). now apply posted_in_attempted. }
  split; [apply Hinv |].
  intros source e st1 Hp.
  assert (Hin : exists h, entry_hash e = Some h /\ h ∈ seen (process_entry source e st1)).
  { destruct (process_entry_cases source e st1)
      as [[E _] | [(_ & _ & E) | (_ & h & Hh & _ & ups & text & m & w1 & _ & _ & _ & _ & Hr)]].
    - rewrite E in Hp. lia.
    - rewrite E in Hp. cbn in Hp. lia.
    - exists h. split; [exact Hh |].
      destruct (fst (create_tweet text m w1)); destruct Hr as [Hs Hp'];
        try (rewrite Hp' in Hp; lia).
      rewrite Hs. apply elem_of_union_l. now apply elem_of_singleton. }
  destruct Hin as (h & Hh & Hin). exists h. split; [exact Hh |]. split; [exact Hin |].
  intros source' e' He. apply process_entry_skip. right. exists h. split; [congruence | exact Hin].
Qed.




(** ** Two runs over one relevant and one irrelevant entry *)

Section TwoRuns.
Context `{PyLib} {W : Type} `{World W}.
Variables (D : pystr -> parsed_feed) (fa : pystr) (a : entry) (ha : pystr).
Hypothesis Hfix : feeds_fixed D.
Hypothesis Hposts : always_posts.
Hypothesis Hfa : entries (D fa) = [a].
Hypothesis Hrel : relevant_entry a = true.
Hypothesis Hha : entry_hash a = Some ha.

(** Once the fingerprint of [a] is seen, the feeds are quiet. *)
Lemma quiet_after_post feeds (st : run_state W) :
  (forall url e, In url feeds -> url <> fa ->
      In e (firstn 12 (entries (D url))) -> relevant_entry e = false) ->
  ha ∈ seen st ->
  forall e, in_feeds D feeds e ->
    relevant_entry e = false \/ exists h, entry_hash e = Some h /\ h ∈ seen st.
Proof.
  intros Hothers Hseen e (url & Hurl & He).
  destruct (decide (url = fa)) as [-> | Hne].
  - rewrite Hfa in He. destruct He as [<- | []]. right. now exists ha.
  - left. eapply Hothers; eauto.
Qed.

(** The first run: one tweet, for [a], when [fa] is among the feeds. *)
Lemma first_run S0 feeds (st : run_state W) :
  (forall url e, In url feeds -> url <> fa ->
      In e (firstn 12 (entries (D url))) -> relevant_entry e = false) ->
  ha ∉ S0 ->
  seen st = S0 -> posted st = 0%nat -> tweets (trace st) = [] -> raised st = false ->
  (In fa feeds ->
     seen (feed_loop feeds st) = {[ ha ]} ∪ S0 /\
     posted (feed_loop feeds st) = 1%nat /\
     raised (feed_loop feeds st) = false /\
     exists m, one_media_id m /\
       tweets (trace (feed_loop feeds st))
       = [EvTweet ha (build_tweet (Some (entry_title_text a))
                        (default (lit "Source") (feed_title (D fa))) (entry_link_text a))
                  m Posted]) /\
  (~ In fa feeds ->
     seen (feed_loop feeds st) = S0 /\
     posted (feed_loop feeds st) = 0%nat /\
     raised (feed_loop feeds st) = false /\
     tweets (trace (feed_loop feeds st)) = []).
Proof.
  intros Hothers Hnew. revert st.
  induction feeds as [|url feeds IH]; intros st Hs Hp Ha Hr.
  - split; [intros [] | intros _; cbn; tauto].
  - cbn [feed_loop]. rewrite Hp. cbn [MAX_POSTS_PER_RUN Nat.leb].
    pose proof (Hfix url (world st)) as HD.
    destruct (feedparser_parse url (world st)) as [parsed w]. cbn [fst] in HD. subst parsed.
    cbv zeta. rewrite Hr.
    set (st1 := RunState w (seen st) 0 (trace st ++ [EvParse url]) false).
    assert (Ha1 : tweets (trace st1) = []).
    { cbn [st1 trace]. now rewrite tweets_app, Ha. }
    set (source := default (lit "Source") (feed_title (D url))).
    destruct (decide (url = fa)) as [-> | Hne].
    + split; [intros _ | intros Hn; exfalso; apply Hn; now left].
      rewrite Hfa. cbn [firstn entry_loop]. cbn [st1 posted MAX_POSTS_PER_RUN Nat.leb].
      fold st1. cbv zeta.
      assert (Hnew1 : ha ∉ seen st1) by (cbn [st1 seen]; now rewrite Hs).
      destruct (process_entry_attempt source a st1 ha Hrel Hha Hnew1)
        as (m & st1' & r & w' & Ea & Ec & E).
      destruct (attach_image_cases a st1) as (Hs1 & Hp1 & ups & Ht1 & _ & Hu1).
      pose proof (attach_image_raised a st1) as Hr1.
      pose proof (attach_image_media a st1) as Hm.
      rewrite Ea in Hs1, Hp1, Ht1, Hr1, Hm. cbn [fst snd st1 seen posted trace raised] in *.
      assert (Er : r = Posted).
      { pose proof (Hposts (build_tweet (Some (entry_title_text a)) source
                              (entry_link_text a)) m (world st1')) as Hpo.
        now rewrite Ec in Hpo. }
      subst r. rewrite Hs1, Hp1, Hr1, Hs in E.
      set (st2 := process_entry source a st1) in *.
      assert (Hq : forall e, in_feeds D feeds e ->
                     relevant_entry e = false \/
                     exists h, entry_hash e = Some h /\ h ∈ seen st2).
      { apply quiet_after_post.
        - intros u e Hu' Hne He. apply (Hothers u e); [now right | exact Hne | exact He].
        - rewrite E. cbn [seen]. apply elem_of_union_l. now apply elem_of_singleton. }
      assert (Hr2 : raised st2 = false) by now rewrite E.
      assert (Hp2 : (posted st2 < MAX_POSTS_PER_RUN)%nat)
        by (rewrite E; cbn [posted]; unfold MAX_POSTS_PER_RUN; lia).
      rewrite Hr2, (feed_loop_quiet D feeds st2 Hfix Hq Hr2 Hp2).
      cbn [seen posted raised trace]. rewrite E. cbn [seen posted raised trace].
      repeat split. exists m. split; [exact Hm |].
      rewrite Ht1, !tweets_app, tweets_parse, (tweets_no_attempt _ Hu1), Ha.
      reflexivity.
    + rewrite entry_loop_quiet.
      * cbn [st1 raised].
        destruct (IH (fun u e Hu => Hothers u e (or_intror Hu)) st1 Hs eq_refl Ha1 eq_refl)
          as [IH1 IH2].
        split; [intros [Heq | Hin]; [congruence | now apply IH1] |].
        intros Hn. apply IH2. intros Hin. apply Hn. now right.
      * intros e He. left. apply (Hothers url e); [now left | exact Hne | exact He].
Qed.
End TwoRuns.

(** C3. The feed data are fixed; one of the feeds read has a single entry,
    relevant, with a fingerprint that is not in the seen-set of a decoded
    [seen.txt]; another has a single irrelevant entry, the others have none;
    every publish succeeds.  Then a run raises nothing and calls
    [create_tweet] exactly once, with the text of that entry, and the call
    succeeds; the outside after the run is what the calls of the trace made
    of it, in their order; and the seen-set it saves is the one it read plus
    that one fingerprint.  A second run that reads the saved seen-set reads
    the feeds and makes no other call: it attempts nothing, publishes
    nothing, and saves the same set. *)
Theorem one_post_then_none (L : PyLib) (W : Type) (Wd : World W)
    (D : pystr -> parsed_feed) (feeds : list pystr) (fa fb : pystr) (a b : entry)
    (ha : pystr) (file : option pystr) (w1 w2 : W) :
  feeds_fixed D -> always_posts ->
  In fa feeds -> In fb feeds ->
  entries (D fa) = [a] -> entries (D fb) = [b] ->
  (forall url, In url feeds -> url <> fa -> url <> fb -> entries (D url) = []) ->
  relevant_entry a = true -> entry_hash a = Some ha -> ha ∉ load_seen file ->
  relevant_entry b = false -> decoded file = true ->
  let r1 := run_bot_on feeds file w1 in
  let r2 := run_bot_on feeds (fst r1) w2 in
  (raised (snd r1) = false /\
   (exists m, one_media_id m /\
      tweets (trace (snd r1))
      = [EvTweet ha (build_tweet (Some (entry_title_text a))
                       (default (lit "Source") (feed_title (D fa))) (entry_link_text a))
                 m Posted]) /\
   posted_hashes (trace (snd r1)) = [ha] /\
   posted (snd r1) = 1%nat /\
   world (snd r1) = replay (trace (snd r1)) w1 /\
   outcomes_recorded (trace (snd r1)) w1 /\
   load_seen (fst r1) = {[ ha ]} ∪ load_seen file) /\
  (raised (snd r2) = false /\
   trace (snd r2) = map EvParse feeds /\
   world (snd r2) = replay (map EvParse feeds) w2 /\
   attempted_hashes (trace (snd r2)) = [] /\
   posted_hashes (trace (snd r2)) = [] /\
   posted (snd r2) = 0%nat /\
   load_seen (fst r2) = load_seen (fst r1)).
Proof.
  intros Hfix Hposts Hfa Hfb Ha Hb Hrest Hrel Hha Hnew Hirr Hdec r1 r2.
  assert (Hothers : forall url e, In url feeds -> url <> fa ->
             In e (firstn 12 (entries (D url))) -> relevant_entry e = false).
  { intros url e Hurl Hne He. destruct (decide (url = fb)) as [-> | Hnb].
    - rewrite Hb in He. destruct He as [<- | []]. exact Hirr.
    - rewrite (Hrest url Hurl Hne Hnb) in He. destruct He. }
  destruct (first_run D fa a ha Hfix Hposts Ha Hrel Hha (load_seen file) feeds
              (RunState w1 (load_seen file) 0 [] false) Hothers Hnew
              eq_refl eq_refl eq_refl eq_refl)
    as [Hrun _].
  destruct (Hrun Hfa) as (Hs1 & Hp1 & Hr1 & m & Hm & Ht1).
  assert (Hra1 : raised (snd r1) = false).
  { apply run_bot_on_saves; [| exact Hr1]. intros h. now apply load_seen_valid. }
  destruct (run_bot_on_fields feeds file w1) as (Ew1 & Es1 & Ep1 & Et1 & _).
  fold r1 in Ew1, Es1, Ep1, Et1.
  destruct (run_bot_on_reload feeds file w1 Hra1) as (Hload & _ & Hval). fold r1 in Hload, Hval.
  destruct (run_bot_on_recorded feeds file w1) as [Hwo Hout]. fold r1 in Hwo, Hout.
  assert (Hload1 : load_seen (fst r1) = {[ ha ]} ∪ load_seen file)
    by (rewrite Hload, Es1; exact Hs1).
  split.
  { split; [exact Hra1 |]. split; [exists m; split; [exact Hm | now rewrite Et1] |].
    split; [rewrite <- posted_hashes_tweets, Et1, Ht1; reflexivity |].
    split; [now rewrite Ep1 |]. split; [exact Hwo |]. split; [exact Hout | exact Hload1]. }
  set (st0 := RunState w2 (load_seen (fst r1)) 0 [] false).
  assert (Hq : forall e, in_feeds D feeds e ->
             relevant_entry e = false \/
             exists h, entry_hash e = Some h /\ h ∈ seen st0).
  { apply (quiet_after_post D fa a ha Ha Hha); [exact Hothers |].
    cbn [st0 seen]. rewrite Hload1. apply elem_of_union_l. now apply elem_of_singleton. }
  assert (Hloop : feed_loop feeds st0
                  = RunState (replay (map EvParse feeds) w2) (load_seen (fst r1)) 0
                             (map EvParse feeds) false).
  { rewrite (feed_loop_quiet D feeds st0 Hfix Hq eq_refl);
      [reflexivity | cbn; unfold MAX_POSTS_PER_RUN; lia]. }
  assert (Hra2 : raised (snd r2) = false).
  { apply run_bot_on_saves.
    - intros h Hh. apply Hval. now rewrite <- Hload.
    - fold st0. now rewrite Hloop. }
  destruct (run_bot_on_fields feeds (fst r1) w2) as (Ew2 & Es2 & Ep2 & Et2 & _).
  fold r2 st0 in Ew2, Es2, Ep2, Et2. rewrite Hloop in Ew2, Es2, Ep2, Et2.
  cbn [world seen posted trace] in Ew2, Es2, Ep2, Et2.
  destruct (run_bot_on_reload feeds (fst r1) w2 Hra2) as (Hload2 & _). fold r2 in Hload2.
  split; [exact Hra2 |]. split; [exact Et2 |]. split; [exact Ew2 |].
  rewrite Et2. split; [| split; [| split; [exact Ep2 | now rewrite Hload2, Es2]]].
  - rewrite <- attempted_hashes_tweets, tweets_parse. reflexivity.
  - rewrite <- posted_hashes_tweets, tweets_parse. reflexivity.
Qed.

Lemma one_post_then_none_witness :
  let Wd := counting_world two_feeds 0 in
  let r1 := @run_bot RefLib.lib nat Wd None 0%nat in
  let r2 := @run_bot RefLib.lib nat Wd (fst r1) (world (snd r1)) in
  @relevant_entry RefLib.lib
    (plain_entry (lit "Patriots sign new TE") (lit "https://x.com/a")) = true /\
  @relevant_entry RefLib.lib
    (plain_entry (lit "Celtics win opener") (lit "https://x.com/b")) = false /\
  posted (snd r1) = 1%nat /\ world (snd r1) = 1%nat /\
  posted (snd r2) = 0%nat /\ world (snd r2) = 1%nat.
Proof.
  intros Wd r1 r2.
  split; [vm_compute; reflexivity |]. split; [vm_compute; reflexivity |].
  pose (a := plain_entry (lit "Patriots sign new TE") (lit "https://x.com/a")).
  pose (ha := default [] (@entry_hash RefLib.lib a)).
  pose proof (one_post_then_none RefLib.lib nat Wd two_feeds FEEDS
                (lit "https://www.patspulpit.com/rss/index.xml")
                (lit "https://nesn.com/feed/")
                a (plain_entry (lit "Celtics win opener") (lit "https://x.com/b"))
                ha None 0%nat (world (snd r1))) as Hthm.
  cbv zeta in Hthm. fold (@run_bot RefLib.lib nat Wd) in Hthm. fold r1 in Hthm. fold r2 in Hthm.
  destruct Hthm as [(_ & _ & _ & Hp1 & Hw1 & _) (_ & _ & Hw2 & _ & _ & Hp2 & _)].
  - intros url w. reflexivity.
  - intros text m w. reflexivity.
  - left. reflexivity.
  - right. left. reflexivity.
  - vm_compute. reflexivity.
  - vm_compute. reflexivity.
  - intros url [<- | [<- | [<- | [<- | []]]]] Hna Hnb;
      [congruence | congruence | vm_compute; reflexivity | vm_compute; reflexivity].
  - vm_compute. reflexivity.
  - vm_compute. reflexivity.
  - apply not_elem_of_empty.
  - vm_compute. reflexivity.
  - reflexivity.
  - split; [exact Hp1 |]. split; [etransitivity; [exact Hw1 | vm_compute; reflexivity] |].
    split; [exact Hp2 |]. etransitivity; [exact Hw2 | vm_compute; reflexivity].
Defined.

(** * Further properties of the code *)

(** ** What [clean_title] removes *)

Section CleanTitleShape.
Import Re.

Lemma isspace_not_dash c : isspace c = true -> is_dash c = false.
Proof.
  intros Hs. unfold is_dash.
  destruct (N.eqb_spec c 45) as [-> | _]; [discriminate |].
  destruct (N.eqb_spec c 8211) as [-> | _]; [discriminate |].
  destruct (N.eqb_spec c 8212) as [-> | _]; [discriminate | reflexivity].
Qed.

Lemma forallb_space_not_dash w :
  forallb isspace w = true -> forallb (fun c => negb (is_dash c)) w = true.
Proof.
  intros Hw. apply forallb_forall. intros c Hc.
  rewrite forallb_forall in Hw. now rewrite (isspace_not_dash c (Hw c Hc)).
Qed.

(** The pattern matches a text exactly when the text is spaces, a dash, and
    at least two characters none of which is a dash. *)
Lemma trailing_site_match_iff x :
  is_Some (match_at TRAILING_SITE x) <->
  exists w d b, x = w ++ d :: b /\ forallb isspace w = true /\ is_dash d = true /\
                forallb (fun c => negb (is_dash c)) b = true /\ (2 <= length b)%nat.
Proof.
  split.
  - intros [[caps r] Hm]. apply match_items_sound in Hm.
    inversion Hm as [ | | n1 p1 its1 w s1 r1 Hw _ H1 | ]; subst.
    inversion H1 as [ | p2 its2 d s2 r2 Hd H2 | | ]; subst.
    inversion H2 as [ | | n3 p3 its3 w2 s3 r3 Hw2 _ H3 | ]; subst.
    inversion H3 as [ | | n4 p4 its4 m s4 r4 Hm4 Hn4 H4 | ]; subst.
    inversion H4 as [s5 Hdol | | | ]; subst.
    exists w, d, (w2 ++ m ++ r). repeat split; try assumption.
    + rewrite !forallb_app. rewrite (forallb_space_not_dash _ Hw2), Hm4. cbn [andb].
      specialize (Hdol eq_refl). destruct r as [|c [|c2 r]]; try discriminate; [reflexivity |].
      cbn in Hdol |- *. apply N.eqb_eq in Hdol as ->. reflexivity.
    + rewrite !length_app. lia.
  - intros (w & d & b & -> & Hw & Hd & Hb & Hn).
    apply match_items_complete with (r := []).
    apply matches_atleast; [exact Hw | lia |].
    apply matches_one; [exact Hd |].
    apply (matches_atleast true 0 isspace _ [] b []); [reflexivity | simpl; lia |].
    rewrite <- (app_nil_r b) at 1.
    apply matches_atleast; [exact Hb | exact Hn |].
    apply matches_nil. reflexivity.
Qed.

(** The dash of a match is the last dash of the text. *)
Lemma last_dash_unique u1 d1 v1 u2 d2 v2 :
  u1 ++ d1 :: v1 = u2 ++ d2 :: v2 ->
  is_dash d1 = true -> is_dash d2 = true ->
  forallb (fun c => negb (is_dash c)) v1 = true ->
  forallb (fun c => negb (is_dash c)) v2 = true ->
  u1 = u2 /\ v1 = v2.
Proof.
  revert u2. induction u1 as [|c u1 IH]; intros [|c2 u2] E Hd1 Hd2 Hv1 Hv2; cbn [app] in E.
  - injection E as _ ->. tauto.
  - injection E as -> ->. rewrite forallb_app in Hv1. cbn in Hv1.
    rewrite Hd2 in Hv1. cbn in Hv1. now rewrite andb_false_r in Hv1.
  - injection E as <- <-. rewrite forallb_app in Hv2. cbn in Hv2.
    rewrite Hd1 in Hv2. cbn in Hv2. now rewrite andb_false_r in Hv2.
  - injection E as -> E. destruct (IH u2 E Hd1 Hd2 Hv1 Hv2) as [-> ->]. tauto.
Qed.

Lemma sub_empty_no_match pat s :
  (forall a x, s = a ++ x -> x <> [] -> match_at pat x = None) ->
  sub_empty pat s = s.
Proof.
  induction s as [|c s IH]; intros Hno; [reflexivity |].
  unfold sub_empty. cbn [sub_empty_from].
  rewrite (Hno [] (c :: s) eq_refl) by discriminate.
  fold (sub_empty pat s). rewrite IH; [reflexivity |].
  intros a x -> Hx. apply (Hno (c :: a) x eq_refl Hx).
Qed.

Lemma sub_empty_leftmost pat a x caps :
  (forall a1 a2, a = a1 ++ a2 -> a2 <> [] -> match_at pat (a2 ++ x) = None) ->
  match_at pat x = Some (caps, []) -> x <> [] ->
  sub_empty pat (a ++ x) = a.
Proof.
  intros Hno Hm Hx. induction a as [|c a IH].
  - destruct x as [|c x]; [congruence |]. unfold sub_empty. cbn [app sub_empty_from].
    rewrite Hm. cbn [length Nat.sub]. now rewrite sub_empty_from_skip_all by lia.
  - unfold sub_empty. cbn [app sub_empty_from].
    assert (H0 : match_at pat (c :: a ++ x) = None)
      by (apply (Hno [] (c :: a) eq_refl); discriminate).
    rewrite H0. fold (sub_empty pat (a ++ x)). rewrite IH; [reflexivity |].
    intros a1 a2 -> Ha2. apply (Hno (c :: a1) a2 eq_refl Ha2).
Qed.

Lemma rstrip_by_split p (s : pystr) :
  exists w, s = rstrip_by p s ++ w /\ forallb p w = true.
Proof.
  induction s as [|c s (w & Hs & Hw)]; [now exists [] |]. cbn [rstrip_by].
  destruct (rstrip_by p s) as [|y r] eqn:E.
  - destruct (p c) eqn:Hc.
    + exists (c :: s). split; [reflexivity |]. cbn. rewrite Hc.
      cbn [app] in Hs. now rewrite Hs.
    + exists w. cbn [app] in *. split; [now rewrite Hs at 1 | exact Hw].
  - exists w. split; [cbn [app]; now rewrite Hs at 1 | exact Hw].
Qed.

Lemma rstrip_by_length p (s : pystr) : (length (rstrip_by p s) <= length s)%nat.
Proof.
  destruct (rstrip_by_split p s) as (w & Hs & _).
  rewrite Hs at 2. rewrite length_app. lia.
Qed.

(** No suffix of a text without trailing space is all spaces. *)
Lemma no_trail_suffix_not_space p (a1 a2 : pystr) :
  no_trail p (a1 ++ a2) -> a2 <> [] -> forallb p a2 = false.
Proof.
  intros Hn Ha2. destruct (forallb p a2) eqn:E; [| reflexivity]. exfalso.
  unfold no_trail in Hn. rewrite (rstrip_by_app_drop p a1 a2 E) in Hn.
  pose proof (rstrip_by_length p a1) as Hl. rewrite Hn, length_app in Hl.
  destruct a2; [congruence | simpl in Hl; lia].
Qed.

Lemma clean_stripped_no_dash s :
  forallb (fun c => negb (is_dash c)) s = true -> sub_empty TRAILING_SITE s = s.
Proof.
  intros Hs. apply sub_empty_no_match. intros a x -> Hx.
  destruct (match_at TRAILING_SITE x) as [res|] eqn:E; [| reflexivity]. exfalso.
  assert (Hsome : is_Some (match_at TRAILING_SITE x)) by (rewrite E; eauto).
  apply trailing_site_match_iff in Hsome as (w & d & b & -> & _ & Hd & _).
  rewrite !forallb_app in Hs. cbn in Hs. rewrite Hd in Hs. cbn in Hs.
  now rewrite !andb_false_r in Hs.
Qed.

Lemma clean_stripped_short_tail a d b :
  is_dash d = true -> forallb (fun c => negb (is_dash c)) b = true ->
  (length b < 2)%nat ->
  sub_empty TRAILING_SITE (a ++ d :: b) = a ++ d :: b.
Proof.
  intros Hd Hb Hlen. apply sub_empty_no_match. intros a1 x E Hx.
  destruct (match_at TRAILING_SITE x) as [res|] eqn:Em; [| reflexivity]. exfalso.
  assert (Hsome : is_Some (match_at TRAILING_SITE x)) by (rewrite Em; eauto).
  apply trailing_site_match_iff in Hsome as (w & d' & b' & -> & _ & Hd' & Hb' & Hn).
  rewrite app_assoc in E.
  destruct (last_dash_unique _ _ _ _ _ _ E Hd Hd' Hb Hb') as [_ ->]. lia.
Qed.

Lemma clean_stripped_site a d b :
  no_trail isspace (a ++ d :: b) ->
  is_dash d = true -> forallb (fun c => negb (is_dash c)) b = true ->
  (2 <= length b)%nat ->
  sub_empty TRAILING_SITE (a ++ d :: b) = rstrip_by isspace a.
Proof.
  intros Hs Hd Hb Hlen.
  destruct (rstrip_by_split isspace a) as (w & Ha & Hw).
  assert (Hsome : is_Some (match_at TRAILING_SITE (w ++ d :: b))).
  { apply trailing_site_match_iff. now exists w, d, b. }
  destruct Hsome as [[caps r] Hm].
  assert (r = []) as ->.
  { destruct (trailing_site_rest _ _ _ Hm) as [[m Hsuf] Hdol].
    destruct r as [|x [|y r]]; [reflexivity | | discriminate].
    cbn in Hdol. apply N.eqb_eq in Hdol as ->. exfalso.
    rewrite Ha, <- app_assoc, Hsuf, app_assoc in Hs.
    apply no_trail_app_last in Hs. discriminate. }
  rewrite Ha at 1. rewrite <- app_assoc.
  apply (sub_empty_leftmost _ _ _ caps); [| exact Hm | now destruct w].
  intros a1 a2 Ea Ha2.
  destruct (match_at TRAILING_SITE (a2 ++ w ++ d :: b)) as [res|] eqn:Em; [| reflexivity].
  exfalso.
  assert (Hsome : is_Some (match_at TRAILING_SITE (a2 ++ w ++ d :: b)))
    by (rewrite Em; eauto).
  apply trailing_site_match_iff in Hsome as (w' & d' & b' & E & Hw' & Hd' & Hb' & _).
  rewrite app_assoc in E.
  destruct (last_dash_unique _ _ _ _ _ _ E Hd Hd' Hb Hb') as [<- _].
  rewrite forallb_app in Hw'. apply andb_true_iff in Hw' as [Hw' _].
  assert (Hnt : no_trail isspace (a1 ++ a2)) by (rewrite <- Ea; apply rstrip_by_idem).
  rewrite (no_trail_suffix_not_space _ _ _ Hnt Ha2) in Hw'. discriminate.
Qed.
End CleanTitleShape.

(** X1. [clean_title] on the stripped title [s]: without a dash, [s] comes
    back; when [s] is [a], a dash, and a tail [b] without dash, the result
    is [a] without its trailing spaces if [b] has at least two characters,
    and [s] unchanged if [b] has fewer.  The dash can be a hyphen inside a
    word: everything from the last dash on is cut. *)
Theorem clean_title_cuts_at_last_dash (t : option pystr) :
  let s := strip (or_empty t) in
  (forallb (fun c => negb (is_dash c)) s = true -> clean_title t = s) /\
  (forall a d b,
      s = a ++ d :: b -> is_dash d = true ->
      forallb (fun c => negb (is_dash c)) b = true ->
      ((2 <= length b)%nat -> clean_title t = rstrip_by isspace a) /\
      ((length b < 2)%nat -> clean_title t = s)).
Proof.
  intros s. unfold clean_title. fold s. split.
  - apply clean_stripped_no_dash.
  - intros a d b E Hd Hb. split; intros Hlen; rewrite E.
    + apply clean_stripped_site; try assumption.
      rewrite <- E. apply strip_no_trail.
    + now apply clean_stripped_short_tail.
Qed.

Section CleanTitlePrefix.
Import Re.

Lemma sub_trailing_site_prefix s :
  no_trail isspace s -> exists x, s = sub_empty TRAILING_SITE s ++ x.
Proof.
  induction s as [|c s IH]; intros Hs; [now exists [] |].
  unfold sub_empty. cbn [sub_empty_from].
  destruct (match_at TRAILING_SITE (c :: s)) as [[caps rest]|] eqn:Hm.
  - destruct (length (c :: s) - length rest)%nat as [|j] eqn:En.
    + fold (sub_empty TRAILING_SITE s).
      destruct (IH (no_trail_cons_inv _ _ _ Hs)) as [x Hx].
      exists x. cbn [app]. now rewrite <- Hx.
    + destruct (trailing_site_rest _ _ _ Hm) as [[m Hsuf] Hd].
      assert (rest = []) as ->.
      { destruct rest as [|x [|y rest]]; [reflexivity | | discriminate].
        simpl in Hd. apply N.eqb_eq in Hd as ->.
        rewrite Hsuf in Hs. apply no_trail_app_last in Hs. discriminate. }
      cbn [length Nat.sub] in En. injection En as <-.
      rewrite sub_empty_from_skip_all by lia. now exists (c :: s).
  - fold (sub_empty TRAILING_SITE s).
    destruct (IH (no_trail_cons_inv _ _ _ Hs)) as [x Hx].
    exists x. cbn [app]. now rewrite <- Hx.
Qed.
End CleanTitlePrefix.

(** X2. The cleaned title is the start of the stripped title, so it is
    never longer, and it has no whitespace at either end: stripping it again
    changes nothing. *)
Theorem clean_title_is_stripped_prefix (t : option pystr) :
  (exists x, strip (or_empty t) = clean_title t ++ x) /\
  (length (clean_title t) <= length (or_empty t))%nat /\
  no_lead isspace (clean_title t) /\ no_trail isspace (clean_title t) /\
  strip (clean_title t) = clean_title t.
Proof.
  destruct (sub_trailing_site_prefix _ (strip_no_trail (or_empty t))) as [x Hx].
  fold (clean_title t) in Hx.
  split; [now exists x |]. split.
  - assert (Hl : (length (strip (or_empty t)) <= length (or_empty t))%nat).
    { unfold strip, strip_by.
      pose proof (rstrip_by_length isspace (lstrip_by isspace (or_empty t))).
      pose proof (lstrip_by_length isspace (or_empty t)). lia. }
    rewrite Hx, length_app in Hl. lia.
  - split; [apply clean_title_no_lead |]. split; [apply clean_title_no_trail |].
    apply strip_id; [apply clean_title_no_lead | apply clean_title_no_trail].
Qed.

(** X3. Whatever the title, the text of [build_tweet] is a head followed by
    the dash, the source, a newline, the whole URL and the tags; the head is
    the cleaned title or, in the fallback, what [textwrap.shorten] makes of
    it.  So the link and the tags are never cut, and the text has at least
    [len source + len url + 19] characters. *)
Theorem build_tweet_keeps_link_and_tags (L : PyLib)
    (title : option pystr) (source url : pystr) :
  exists head,
    build_tweet title source url
    = head ++ [32; 8212; 32] ++ source ++ [10] ++ url ++ lit " #Patriots #NFL" /\
    (head = clean_title title \/
     head = textwrap_shorten (clean_title title) 200 (lit "...")) /\
    (length source + length url + 19 <= length (build_tweet title source url))%nat.
Proof.
  rewrite build_tweet_unfold. unfold build_tweet_simplified.
  destruct (_ <=? _)%nat.
  - exists (clean_title title). split; [reflexivity |]. split; [now left |].
    rewrite tweet_text_length. lia.
  - exists (textwrap_shorten (clean_title title) 200 (lit "...")).
    split; [reflexivity |]. split; [now right |]. rewrite tweet_text_length. lia.
Qed.

(** ** Letter case and the relevance filter *)

Lemma N_range_forallb (P : N -> bool) (lo len : nat) :
  forallb P (map N.of_nat (seq lo len)) = true ->
  forall c, N.of_nat lo <= c -> c < N.of_nat (lo + len) -> P c = true.
Proof.
  intros Hall c Hlo Hhi. rewrite forallb_forall in Hall. apply Hall.
  apply in_map_iff. exists (N.to_nat c). split; [apply N2Nat.id |].
  apply in_seq. clear Hall. lia.
Qed.

Lemma isspace_ascii_lower_char c : isspace (ascii_lower_char c) = isspace c.
Proof.
  unfold ascii_lower_char. destruct ((65 <=? c) && (c <=? 90)) eqn:E; [| reflexivity].
  apply andb_true_iff in E as [Hlo Hhi]. apply N.leb_le in Hlo, Hhi.
  assert (H1 : negb (isspace c) && negb (isspace (c + 32)) = true).
  { apply (N_range_forallb (fun c => negb (isspace c) && negb (isspace (c + 32))) 65 26);
      [reflexivity | exact Hlo |]. change (N.of_nat (65 + 26)) with 91. clear -Hhi. lia. }
  apply andb_true_iff in H1 as [Ha Hb].
  apply negb_true_iff in Ha, Hb. now rewrite Ha, Hb.
Qed.

Lemma lstrip_by_map (f : char -> char) p (s : pystr) :
  (forall c, p (f c) = p c) -> lstrip_by p (map f s) = map f (lstrip_by p s).
Proof.
  intros Hf. induction s as [|c s IH]; [reflexivity |].
  cbn [map lstrip_by]. rewrite Hf. destruct (p c); [exact IH | reflexivity].
Qed.

Lemma rstrip_by_map (f : char -> char) p (s : pystr) :
  (forall c, p (f c) = p c) -> rstrip_by p (map f s) = map f (rstrip_by p s).
Proof.
  intros Hf. induction s as [|c s IH]; [reflexivity |].
  cbn [map rstrip_by]. rewrite IH, Hf.
  destruct (rstrip_by p s); cbn [map]; [now destruct (p c) | reflexivity].
Qed.

Lemma strip_ascii_lower s : strip (ascii_lower s) = ascii_lower (strip s).
Proof.
  unfold strip, strip_by, ascii_lower.
  rewrite lstrip_by_map, rstrip_by_map by apply isspace_ascii_lower_char. reflexivity.
Qed.

Lemma isascii_strip s : isascii s = true -> isascii (strip s) = true.
Proof.
  unfold isascii. rewrite !forallb_forall. intros Hs c Hc. apply Hs.
  now apply strip_In.
Qed.

Lemma isascii_app a b : isascii (a ++ b) = isascii a && isascii b.
Proof. apply forallb_app. Qed.

(** X4. Under the ASCII rule of [str.lower], two ASCII titles that differ
    only in the case of their letters are classified alike, and a relevant
    ASCII title stays relevant with any ASCII text before and after it. *)
Theorem looks_like_patriots_ignores_case (L : PyLib) (Hlower : lower_ascii_ok L) :
  (forall s s', isascii s = true -> isascii s' = true ->
      ascii_lower s = ascii_lower s' ->
      looks_like_patriots (Some s) = looks_like_patriots (Some s')) /\
  (forall a s b, isascii a = true -> isascii s = true -> isascii b = true ->
      looks_like_patriots (Some s) = true ->
      looks_like_patriots (Some (a ++ s ++ b)) = true).
Proof.
  split.
  - intros s s' Hs Hs' E. unfold looks_like_patriots, or_empty.
    now rewrite (Hlower s Hs), (Hlower s' Hs'), E.
  - intros a s b Ha Hs Hb. unfold looks_like_patriots, or_empty.
    rewrite (Hlower s Hs).
    rewrite (Hlower (a ++ s ++ b)) by (rewrite !isascii_app, Ha, Hs, Hb; reflexivity).
    rewrite !existsb_exists. intros (k & Hk & Hc). exists k. split; [exact Hk |].
    apply contains_spec in Hc as (pre & post & Hc). apply contains_spec.
    exists (ascii_lower a ++ pre), (post ++ ascii_lower b).
    unfold ascii_lower in *. rewrite !map_app, Hc, <- !app_assoc. reflexivity.
Qed.

Lemma looks_like_patriots_ignores_case_witness :
  lower_ascii_ok RefLib.lib /\
  @looks_like_patriots RefLib.lib (Some (lit "PATRIOTS WIN"))
  = @looks_like_patriots RefLib.lib (Some (lit "patriots win")).
Proof.
  split; [exact ref_lower_ascii_ok |].
  apply (proj1 (looks_like_patriots_ignores_case RefLib.lib ref_lower_ascii_ok));
    reflexivity.
Defined.

(** ** The fingerprint *)

(** X6. The fingerprint reads the title through [strip] and [lower]: a
    missing title counts as the empty one, whitespace around the title does
    not count, and under the ASCII rule of [str.lower] neither does the case
    of the letters of an ASCII title. *)
Theorem item_hash_title_normalised (L : PyLib) (Hlower : lower_ascii_ok L) :
  (forall url, item_hash None url = item_hash (Some []) url) /\
  (forall t url, item_hash (Some (strip t)) url = item_hash (Some t) url) /\
  (forall t t' url, isascii t = true -> isascii t' = true ->
      ascii_lower t = ascii_lower t' ->
      item_hash (Some t) url = item_hash (Some t') url).
Proof.
  split; [reflexivity |]. split.
  - intros t url. unfold item_hash, or_empty. now rewrite strip_idem.
  - intros t t' url Ht Ht' E. unfold item_hash, or_empty.
    rewrite (Hlower (strip t)) by now apply isascii_strip.
    rewrite (Hlower (strip t')) by now apply isascii_strip.
    now rewrite <- !strip_ascii_lower, E.
Qed.

Lemma item_hash_title_normalised_witness :
  lower_ascii_ok RefLib.lib /\
  @item_hash RefLib.lib (Some (lit "  Patriots WIN ")) (lit "https://x.com/a")
  = @item_hash RefLib.lib (Some (lit "patriots win")) (lit "https://x.com/a").
Proof.
  split; [exact ref_lower_ascii_ok |].
  destruct (item_hash_title_normalised RefLib.lib ref_lower_ascii_ok) as (_ & Hs & Hc).
  rewrite <- (Hs (lit "  Patriots WIN ")). apply Hc; reflexivity.
Defined.

(** ** What [normalize_url] returns *)

Section NormalizeShape.
Context `{PyLib}.
Import Url.

Lemma partition_fst_no c s : has c (fst (partition c s)) = false.
Proof.
  destruct (has c s) eqn:Hs.
  - destruct (has_split c s Hs) as (a & b & -> & Ha). now rewrite partition_some.
  - now rewrite partition_none.
Qed.

Lemma partition_fst_prefix c s : exists r, s = fst (partition c s) ++ r.
Proof.
  destruct (has c s) eqn:Hs.
  - destruct (has_split c s Hs) as (a & b & -> & Ha). rewrite partition_some by exact Ha.
    now exists (c :: b).
  - rewrite partition_none by exact Hs. exists []. now rewrite app_nil_r.
Qed.

Lemma has_prefix c a b : has c (a ++ b) = false -> has c a = false.
Proof. rewrite has_app, orb_false_iff. tauto. Qed.

Lemma path_of_no_query url : has 63 (path_of url) = false /\ has 35 (path_of url) = false.
Proof.
  unfold path_of. split; [apply partition_fst_no |].
  destruct (partition_fst_prefix 63 (fst (partition 35 url))) as [r Hr].
  pose proof (partition_fst_no 35 url) as Hn. rewrite Hr in Hn.
  eapply has_prefix, Hn.
Qed.

Lemma until_delim_fst_no_delim a c :
  is_delim c = true -> has c (fst (until_delim a)) = false.
Proof.
  intros Hc. induction a as [|x a IH]; [reflexivity |]. cbn [until_delim].
  destruct (is_delim x) eqn:Hx; [reflexivity |].
  destruct (until_delim a) as [n rest]. cbn [fst] in *.
  unfold has in *. cbn [existsb]. rewrite IH, orb_false_r.
  destruct (N.eqb_spec c x) as [-> | _]; [congruence | reflexivity].
Qed.

Lemma is_scheme_char_bound c : is_scheme_char c = true -> c < 123.
Proof.
  unfold is_scheme_char, is_ascii_alpha. intros Hc.
  repeat (apply orb_true_iff in Hc as [Hc | Hc]);
    repeat (apply andb_true_iff in Hc as [? Hc]);
    repeat match goal with
           | H : (_ <=? _) = true |- _ => apply N.leb_le in H
           | H : (_ =? _) = true |- _ => apply N.eqb_eq in H
           end; lia.
Qed.

Lemma scheme_char_lower_plain c :
  is_scheme_char c = true ->
  negb (ascii_lower_char c =? 63) && negb (ascii_lower_char c =? 35) = true.
Proof.
  intros Hc. pose proof (is_scheme_char_bound c Hc) as Hb. revert Hc.
  assert (Hall : forallb (fun c => negb (is_scheme_char c)
                   || negb (ascii_lower_char c =? 63) && negb (ascii_lower_char c =? 35))
                   (map N.of_nat (seq 0 123)) = true) by reflexivity.
  pose proof (N_range_forallb _ 0 123 Hall c (N.le_0_l c) Hb) as Hp. cbv beta in Hp.
  intros Hc. now rewrite Hc in Hp.
Qed.

Lemma split_scheme_no_query v c :
  c = 63 \/ c = 35 -> has c (fst (split_scheme v)) = false.
Proof.
  intros Hc. unfold split_scheme.
  destruct (partition 58 v) as [[|x before] [after|]]; try reflexivity.
  destruct (is_ascii_alpha x && forallb is_scheme_char (x :: before)) eqn:E; [| reflexivity].
  apply andb_true_iff in E as [_ Hs]. cbn [fst]. apply has_false. intros Hin.
  unfold ascii_lower in Hin. apply in_map_iff in Hin as (y & Hy & Hin).
  rewrite forallb_forall in Hs. pose proof (scheme_char_lower_plain y (Hs y Hin)) as Hp.
  rewrite Hy in Hp. destruct Hc as [-> | ->]; discriminate.
Qed.

Lemma rsplit_slash_parts s h t : rsplit_slash s = Some (h, t) -> s = h ++ t.
Proof.
  revert h t. induction s as [|c s IH]; intros h t; [discriminate |].
  cbn [rsplit_slash]. destruct (rsplit_slash s) as [[h' t']|].
  - intros [= <- <-]. cbn [app]. now rewrite (IH h' t' eq_refl).
  - destruct (c =? 47); [intros [= <- <-]; reflexivity | discriminate].
Qed.

(** The path that [urlparse] keeps is made of characters of the path that
    [urlsplit] found. *)
Lemma path_and_params_chars sch p c :
  has c p = false -> has c (fst (path_and_params sch p)) = false.
Proof.
  intros Hp. unfold path_and_params.
  destruct (existsb _ uses_params && has 59 p); [| exact Hp].
  unfold splitparams. destruct (rsplit_slash p) as [[h t]|] eqn:E.
  - apply rsplit_slash_parts in E. subst p.
    destruct (partition_fst_prefix 59 t) as [r Hr].
    destruct (partition 59 t) as [a [b|]]; cbn [fst] in *; [| exact Hp].
    rewrite Hr, app_assoc in Hp. eapply has_prefix, Hp.
  - destruct (partition_fst_prefix 59 p) as [r Hr].
    destruct (partition 59 p) as [a [b|]]; cbn [fst] in *; [| exact Hp].
    rewrite Hr in Hp. eapply has_prefix, Hp.
Qed.

Lemma has_rstrip_by p c (s : pystr) : has c s = false -> has c (rstrip_by p s) = false.
Proof.
  rewrite !has_false. intros Hn Hin. apply Hn. eapply rstrip_by_In, Hin.
Qed.

Lemma split_clean_no_query v x c :
  c = 63 \/ c = 35 -> split_clean v = Some x ->
  has c (scheme x) = false /\ has c (netloc x) = false /\ has c (path x) = false.
Proof.
  intros Hc. unfold split_clean.
  pose proof (split_scheme_no_query v c Hc) as Hs.
  destruct (split_scheme v) as [sch w]. cbn [fst] in Hs.
  unfold split_netloc. destruct (starts_slashes w).
  - pose proof (until_delim_fst_no_delim (skipn 2 w) c) as Hn.
    destruct (until_delim (skipn 2 w)) as [n rest]. cbn [fst] in Hn.
    destruct (netloc_ok n); [| discriminate]. intros [= <-]. cbn [scheme netloc path].
    split; [exact Hs |]. split; [apply Hn; destruct Hc as [-> | ->]; reflexivity |].
    destruct (path_of_no_query rest). destruct Hc as [-> | ->]; assumption.
  - intros [= <-]. cbn [scheme netloc path]. split; [exact Hs |]. split; [reflexivity |].
    destruct (path_of_no_query w). destruct Hc as [-> | ->]; assumption.
Qed.

Lemma normalize_url_no c u :
  c = 63 \/ c = 35 -> urlparse u <> None -> has c (normalize_url u) = false.
Proof.
  intros Hc Hok. apply urlparse_ok in Hok. rewrite normalize_url_of.
  destruct (split_clean (sanitize u)) as [x|] eqn:E; [| contradiction].
  destruct (split_clean_no_query _ x c Hc E) as (Hs & Hn & Hp).
  apply has_rstrip_by. rewrite !has_app, Hs, Hn, (path_and_params_chars _ _ _ Hp).
  destruct Hc as [-> | ->]; reflexivity.
Qed.

Lemma has_sanitize c u : has c u = false -> has c (sanitize u) = false.
Proof.
  rewrite !has_false. intros Hn Hin. apply Hn.
  unfold sanitize, remove_unsafe in Hin. apply List.filter_In in Hin as [Hin _].
  destruct (lstrip_by_suffix is_c0_or_space u) as [a Ha]. rewrite Ha.
  apply in_or_app. now right.
Qed.

Lemma urlparse_slash_ok u : urlparse u <> None -> urlparse (u ++ [47]) <> None.
Proof.
  intros Hok. destruct (has 63 u || has 35 u) eqn:Hqf.
  - destruct (split_first_delim u Hqf) as (a & c & b & -> & Hc & _).
    rewrite <- app_assoc. cbn [app]. apply urlparse_app_ok; [exact Hc |].
    eapply urlparse_app_ok; eauto.
  - apply orb_false_iff in Hqf as [Hq Hf]. apply urlparse_ok in Hok. apply urlparse_ok.
    rewrite sanitize_app by reflexivity. change (remove_unsafe []) with (@nil N).
    destruct (split_clean (sanitize u)) as [x|] eqn:E; [| contradiction].
    destruct (split_clean_slash _ x (has_sanitize _ _ Hq) (has_sanitize _ _ Hf) E)
      as (y & -> & _). discriminate.
Qed.

Lemma normalize_url_slashes n u :
  urlparse u <> None -> has 59 (last_segment u) = false ->
  normalize_url (u ++ repeat 47 n) = normalize_url u.
Proof.
  revert u. induction n as [|n IH]; intros u Hok Hseg.
  - cbn [repeat]. now rewrite app_nil_r.
  - cbn [repeat]. change (u ++ 47 :: repeat 47 n) with (u ++ [47] ++ repeat 47 n).
    rewrite app_assoc, IH.
    + now apply normalize_url_slash.
    + now apply urlparse_slash_ok.
    + rewrite last_segment_app. reflexivity.
Qed.
End NormalizeShape.

(** X7. For a URL that [urlparse] accepts, the normalized URL has no [?]
    and no [#] in it and does not end with a slash. *)
Theorem normalize_url_is_bare (L : PyLib) (u : pystr) :
  Url.urlparse u <> None ->
  has 63 (normalize_url u) = false /\ has 35 (normalize_url u) = false /\
  forall a, normalize_url u <> a ++ [47].
Proof.
  intros Hok. split; [apply normalize_url_no; tauto |].
  split; [apply normalize_url_no; tauto |].
  intros a E. apply urlparse_ok in Hok. rewrite normalize_url_of in E.
  destruct (Url.split_clean (Url.sanitize u)) as [x|]; [| contradiction].
  assert (Hn : no_trail (N.eqb 47) (a ++ [47])) by (rewrite <- E; apply rstrip_by_idem).
  apply no_trail_app_last in Hn. discriminate.
Qed.

Lemma normalize_url_is_bare_witness :
  @Url.urlparse RefLib.lib (lit "https://x.com/a/?ref=1#top") <> None /\
  has 63 (@normalize_url RefLib.lib (lit "https://x.com/a/?ref=1#top")) = false.
Proof.
  assert (Hok : @Url.urlparse RefLib.lib (lit "https://x.com/a/?ref=1#top") <> None)
    by (vm_compute; discriminate).
  split; [exact Hok |].
  exact (proj1 (normalize_url_is_bare RefLib.lib _ Hok)).
Defined.

(** X8. For a URL that [urlparse] accepts and that has no semicolon after
    its last slash, any number of slashes added at the end leaves the
    normalized URL as it is. *)
Theorem normalize_url_ignores_trailing_slashes (L : PyLib) (u : pystr) (n : nat) :
  Url.urlparse u <> None -> has 59 (Url.last_segment u) = false ->
  normalize_url (u ++ repeat 47 n) = normalize_url u.
Proof. apply normalize_url_slashes. Qed.

Lemma normalize_url_ignores_trailing_slashes_witness :
  @Url.urlparse RefLib.lib (lit "https://x.com/a") <> None /\
  @normalize_url RefLib.lib (lit "https://x.com/a///")
  = @normalize_url RefLib.lib (lit "https://x.com/a").
Proof.
  assert (Hok : @Url.urlparse RefLib.lib (lit "https://x.com/a") <> None)
    by (vm_compute; discriminate).
  split; [exact Hok |].
  apply (normalize_url_ignores_trailing_slashes RefLib.lib (lit "https://x.com/a") 3 Hok).
  reflexivity.
Defined.

(** ** More on the seen-set store *)

(** X9. Whatever a decoded [seen.txt] holds, writing back the set read
    from it does not raise, and reading again gives the same set: a run that
    posts nothing loses no fingerprint, even when the file has blank lines,
    padding or repeats. *)
Theorem seen_file_rewrite_keeps_set (file : option pystr) :
  decoded file = true ->
  snd (save_seen (load_seen file)) = true /\
  load_seen (Some (fst (save_seen (load_seen file)))) = load_seen file.
Proof.
  intros Hdec.
  destruct (load_save_storable (load_seen file)) as [E Hl].
  - intros h. apply load_seen_storable.
  - intros h. now apply load_seen_valid.
  - split; [now rewrite E | exact Hl].
Qed.

Lemma seen_file_rewrite_keeps_set_witness :
  let file := Some (lit "bb" ++ [10; 10] ++ lit " aa " ++ [10] ++ lit "bb" ++ [10]) in
  decoded file = true /\
  save_seen (load_seen file) = (lit "aa" ++ [10] ++ lit "bb" ++ [10], true) /\
  load_seen (Some (fst (save_seen (load_seen file)))) = load_seen file.
Proof.
  intros file. split; [reflexivity |]. split; [vm_compute; reflexivity |].
  apply (seen_file_rewrite_keeps_set file). reflexivity.
Defined.

Lemma universal_newlines_app (a rest : pystr) :
  ~ In 13 a -> universal_newlines (a ++ rest) = a ++ universal_newlines rest.
Proof.
  induction a as [|c a IH]; intros Hn; [reflexivity |].
  cbn [app universal_newlines]. destruct (N.eqb_spec c 13) as [-> | _].
  - exfalso. apply Hn. now left.
  - rewrite IH; [reflexivity |]. intros Hin. apply Hn. now right.
Qed.

Lemma universal_newlines_crlf_lines (L : list pystr) :
  Forall (fun l => ~ In 13 l) L ->
  universal_newlines (List.concat (map (fun l => l ++ [13; 10]) L))
  = List.concat (map (fun l => l ++ [10]) L).
Proof.
  induction 1 as [|l L Hl _ IH]; [reflexivity |].
  cbn [map List.concat]. rewrite <- !app_assoc.
  rewrite universal_newlines_app by exact Hl. f_equal.
  cbn [app universal_newlines N.eqb Pos.eqb]. now rewrite IH.
Qed.

(** X10. A [seen.txt] whose lines end with carriage return and newline is
    read as the same file with plain newlines: one element per line that is
    not blank. *)
Theorem load_seen_reads_crlf (L : list pystr) :
  Forall (fun l => ~ In 10 l /\ ~ In 13 l) L ->
  load_seen (Some (List.concat (map (fun l => l ++ [13; 10]) L)))
  = load_seen (Some (List.concat (map (fun l => l ++ [10]) L))) /\
  load_seen (Some (List.concat (map (fun l => l ++ [13; 10]) L)))
  = list_to_set (List.filter nonempty (map strip L)).
Proof.
  intros HL.
  assert (H13 : Forall (fun l : pystr => ~ In 13 l) L)
    by (eapply List.Forall_impl; [| exact HL]; cbn; tauto).
  assert (E : load_seen (Some (List.concat (map (fun l => l ++ [13; 10]) L)))
              = load_seen (Some (List.concat (map (fun l => l ++ [10]) L)))).
  { unfold load_seen. rewrite (universal_newlines_crlf_lines L H13).
    rewrite (universal_newlines_id (List.concat (map (fun l => l ++ [10]) L)));
      [reflexivity |].
    intros Hin. apply in_concat in Hin as (x & Hx & Hin).
    apply in_map_iff in Hx as (l & <- & Hl).
    rewrite Forall_forall in H13. apply list_elem_of_In in Hl.
    apply in_app_or in Hin as [Hin | [Hx | []]]; [now apply (H13 l Hl) | discriminate]. }
  split; [exact E |]. rewrite E. now apply load_seen_lines.
Qed.

Lemma load_seen_reads_crlf_witness :
  load_seen (Some (lit "ab" ++ [13; 10] ++ lit "  " ++ [13; 10] ++ lit "cd" ++ [13; 10]))
  = list_to_set [lit "ab"; lit "cd"].
Proof.
  apply (proj2 (load_seen_reads_crlf [lit "ab"; lit "  "; lit "cd"]
                  ltac:(repeat constructor; cbn; intuition discriminate))).
Defined.

(** ** More on a run *)

Section RunEvents.
Context `{PyLib} {W : Type} `{World W}.
Implicit Types (st : run_state W) (e : entry) (tr : list event).

(** What the image part adds to the trace, and the media ids it gives. *)
Lemma attach_image_events e st :
  exists ups,
    trace (snd (attach_image e st)) = trace st ++ ups /\
    (ups = [] \/ exists c u, ups = [EvUpload (c :: u)] /\
                             extract_image_url e = Some (c :: u)) /\
    one_media_id (fst (attach_image e st)) /\
    (fst (attach_image e st) <> None -> ups <> []).
Proof.
  unfold attach_image, one_media_id. cbn [POST_IMAGES].
  destruct (extract_image_url e) as [[|c img]|];
    try (exists []; rewrite app_nil_r; cbn; repeat split; auto; congruence).
  destruct (upload_image_to_x (c :: img) (world st)) as [mid w].
  exists [EvUpload (c :: img)].
  destruct mid as [[|d m]|]; cbn; repeat split; eauto; try discriminate.
Qed.

(** What one pass of the loop body adds to the trace. *)
Lemma process_entry_new_events source e st :
  exists new,
    trace (process_entry source e st) = trace st ++ new /\
    (new = [] \/
     exists h ups text m r,
       entry_hash e = Some h /\
       new = ups ++ [EvTweet h text m r] /\
       (ups = [] \/ exists c u, ups = [EvUpload (c :: u)] /\
                                extract_image_url e = Some (c :: u)) /\
       relevant_entry e = true /\
       text = build_tweet (Some (entry_title_text e)) source (entry_link_text e) /\
       one_media_id m /\ (m <> None -> ups <> [])).
Proof.
  destruct (process_entry_cases source e st)
    as [[-> _] | [(_ & _ & ->) | (Hrel & h & Hh & Hnew & _)]].
  - exists []. rewrite app_nil_r. split; [reflexivity | now left].
  - exists []. cbn [raise trace]. rewrite app_nil_r. split; [reflexivity | now left].
  - destruct (process_entry_attempt source e st h Hrel Hh Hnew)
      as (m & st1 & r & w & Ea & Ec & ->).
    destruct (attach_image_events e st) as (ups & Ht & Hups & Hm & Hne).
    rewrite Ea in Ht, Hm, Hne. cbn [fst snd] in *.
    exists (ups ++ [EvTweet h (build_tweet (Some (entry_title_text e)) source
                                          (entry_link_text e)) m r]).
    cbn [trace]. split; [now rewrite Ht, <- app_assoc |].
    right.
    exists h, ups, (build_tweet (Some (entry_title_text e)) source (entry_link_text e)), m, r.
    repeat split; assumption.
Qed.

Lemma parsed_urls_app tr1 tr2 :
  parsed_urls (tr1 ++ tr2) = parsed_urls tr1 ++ parsed_urls tr2.
Proof. apply flat_map_app. Qed.

(** One pass reads no feed and makes at most one attempt. *)
Lemma process_entry_counts source e st :
  parsed_urls (trace (process_entry source e st)) = parsed_urls (trace st) /\
  (length (attempted_hashes (trace (process_entry source e st)))
   <= S (length (attempted_hashes (trace st))))%nat.
Proof.
  destruct (process_entry_new_events source e st) as (new & -> & [-> | Hnew]).
  - rewrite app_nil_r. split; [reflexivity | lia].
  - destruct Hnew as (h & ups & text & m & r & _ & -> & Hups & _).
    rewrite !parsed_urls_app, !attempted_hashes_app, !length_app.
    destruct Hups as [-> | (c & u & -> & _)]; cbn; rewrite ?app_nil_r; split;
      try reflexivity; lia.
Qed.

Lemma entry_loop_counts source es st :
  parsed_urls (trace (entry_loop source es st)) = parsed_urls (trace st) /\
  (length (attempted_hashes (trace (entry_loop source es st)))
   <= length es + length (attempted_hashes (trace st)))%nat.
Proof.
  revert st. induction es as [|e es IH]; intros st; [split; [reflexivity | simpl; lia] |].
  cbn [entry_loop]. destruct (MAX_POSTS_PER_RUN <=? posted st)%nat;
    [split; [reflexivity | simpl; lia] |].
  destruct (IH (process_entry source e st)) as [Hp Ha].
  destruct (process_entry_counts source e st) as [Hp1 Ha1].
  cbv zeta. destruct (raised (process_entry source e st));
    [split; [exact Hp1 | simpl; lia] |].
  split; [now rewrite Hp, Hp1 | simpl; lia].
Qed.

(** The feeds are read in their order, each once, up to where the run
    stops; at most 12 attempts go with each feed read. *)
Lemma feed_loop_counts feeds st :
  exists k,
    (k <= length feeds)%nat /\
    parsed_urls (trace (feed_loop feeds st)) = parsed_urls (trace st) ++ firstn k feeds /\
    (length (attempted_hashes (trace (feed_loop feeds st)))
     <= 12 * k + length (attempted_hashes (trace st)))%nat.
Proof.
  revert st. induction feeds as [|url feeds IH]; intros st.
  - exists 0%nat. cbn. rewrite app_nil_r. repeat split; lia.
  - cbn [feed_loop]. destruct (MAX_POSTS_PER_RUN <=? posted st)%nat.
    + exists 0%nat. cbn. rewrite app_nil_r. repeat split; lia.
    + destruct (feedparser_parse url (world st)) as [parsed w]. cbv zeta.
      set (st1 := RunState w (seen st) (posted st) (trace st ++ [EvParse url]) (raised st)).
      set (source := default (lit "Source") (feed_title parsed)).
      destruct (IH (entry_loop source (firstn 12 (entries parsed)) st1)) as (k & Hk & Hp & Ha).
      destruct (entry_loop_counts source (firstn 12 (entries parsed)) st1) as [Hp1 Ha1].
      pose proof (length_firstn 12 (entries parsed)) as Hf.
      assert (Ha0 : attempted_hashes (trace st1) = attempted_hashes (trace st)).
      { cbn [st1 trace]. rewrite attempted_hashes_app. cbn. now rewrite app_nil_r. }
      rewrite Ha0 in Ha1.
      destruct (raised (entry_loop source (firstn 12 (entries parsed)) st1)).
      * exists 1%nat. split; [simpl; lia |]. split; [| lia].
        rewrite Hp1. cbn [st1 trace]. rewrite parsed_urls_app. reflexivity.
      * exists (S k). split; [simpl; lia |]. split; [| lia].
        rewrite Hp, Hp1. cbn [st1 trace]. rewrite parsed_urls_app. cbn.
        now rewrite <- app_assoc.
Qed.

(** Every tweet of the trace is well formed. *)
Lemma process_entry_tweets (P : entry -> Prop) source e st :
  P e -> Forall (tweet_event_ok P) (trace st) ->
  Forall (tweet_event_ok P) (trace (process_entry source e st)).
Proof.
  intros HP Hst.
  destruct (process_entry_new_events source e st) as (new & -> & [-> | Hnew]).
  - now rewrite app_nil_r.
  - destruct Hnew as (h & ups & text & m & r & Hh & -> & Hups & Hrel & Htext & Hm & _).
    apply Forall_app. split; [exact Hst |]. apply Forall_app. split.
    + destruct Hups as [-> | (c & u & -> & _)]; repeat constructor.
    + constructor; [| constructor]. cbn. exists e, source. tauto.
Qed.

Lemma entry_loop_tweets (P : entry -> Prop) source es st :
  (forall e, In e es -> P e) -> Forall (tweet_event_ok P) (trace st) ->
  Forall (tweet_event_ok P) (trace (entry_loop source es st)).
Proof.
  revert st. induction es as [|e es IH]; intros st HP Hst; [exact Hst |].
  cbn [entry_loop]. destruct (MAX_POSTS_PER_RUN <=? posted st)%nat; [exact Hst |].
  assert (Hst' : Forall (tweet_event_ok P) (trace (process_entry source e st)))
    by (apply process_entry_tweets; [apply HP; now left | exact Hst]).
  cbv zeta. destruct (raised (process_entry source e st)); [exact Hst' |].
  apply IH; [intros e' He'; apply HP; now right | exact Hst'].
Qed.

Lemma feed_loop_tweets D feeds0 feeds st :
  feeds_fixed D -> (forall url, In url feeds -> In url feeds0) ->
  Forall (tweet_event_ok (in_feeds D feeds0)) (trace st) ->
  Forall (tweet_event_ok (in_feeds D feeds0)) (trace (feed_loop feeds st)).
Proof.
  intros Hfix. revert st. induction feeds as [|url feeds IH]; intros st Hsub Hst; [exact Hst |].
  cbn [feed_loop]. destruct (MAX_POSTS_PER_RUN <=? posted st)%nat; [exact Hst |].
  pose proof (Hfix url (world st)) as HD.
  destruct (feedparser_parse url (world st)) as [parsed w]. cbn [fst] in HD. subst parsed.
  cbv zeta.
  set (st1 := RunState w (seen st) (posted st) (trace st ++ [EvParse url]) (raised st)).
  assert (Hst1 : Forall (tweet_event_ok (in_feeds D feeds0))
                   (trace (entry_loop (default (lit "Source") (feed_title (D url)))
                                      (firstn 12 (entries (D url))) st1))).
  { apply entry_loop_tweets.
    - intros e He. exists url. split; [apply Hsub; now left | exact He].
    - cbn [st1 trace]. apply Forall_app. split; [exact Hst | repeat constructor]. }
  match goal with |- context [if raised ?x then _ else _] => destruct (raised x) end;
    [exact Hst1 |].
  apply IH; [intros u Hu; apply Hsub; now right | exact Hst1].
Qed.
End RunEvents.

(** X11. A run that returns never takes a fingerprint out of the store:
    the seen-set that the next run reads is the one this run read plus the
    fingerprints of the tweets it posted.  And whether the run returns or
    raises, nothing else is in the store after it. *)
Theorem run_bot_only_adds_to_store (L : PyLib) (W : Type) (Wd : World W)
    (file : option pystr) (w : W) :
  let r := run_bot file w in
  (raised (snd r) = false ->
   load_seen (fst r)
   = load_seen file ∪ list_to_set (posted_hashes (trace (snd r))) /\
   load_seen file ⊆ load_seen (fst r)) /\
  load_seen (fst r) ⊆ load_seen file ∪ list_to_set (posted_hashes (trace (snd r))).
Proof.
  intros r. unfold r, run_bot.
  pose proof (inv_seen _ _ (run_bot_on_inv FEEDS file w)) as Hs. split.
  - intros Hra. destruct (run_bot_on_reload FEEDS file w Hra) as (-> & _).
    rewrite Hs. split; [reflexivity | apply union_subseteq_l].
  - rewrite <- Hs. apply run_bot_on_reload_sub.
Qed.

Lemma run_bot_only_adds_to_store_witness :
  let Wd := counting_world two_feeds 0 in
  let r := @run_bot RefLib.lib nat Wd (Some (lit "abc" ++ [10])) 0%nat in
  raised (snd r) = false /\
  load_seen (Some (lit "abc" ++ [10])) ⊆ load_seen (fst r).
Proof.
  intros Wd r.
  assert (Hra : raised (snd r) = false) by (vm_compute; reflexivity).
  split; [exact Hra |].
  exact (proj2 (proj1 (run_bot_only_adds_to_store RefLib.lib nat Wd
                         (Some (lit "abc" ++ [10])) 0%nat) Hra)).
Defined.

(** X12. With fixed feed data, every call of [create_tweet] in a run is for
    a relevant entry among the first 12 of one of the feeds: the text is
    [build_tweet] of the entry's stripped title and link, and the call has
    no media id or exactly one, which is not empty. *)
Theorem run_bot_tweets_relevant_entries (L : PyLib) (W : Type) (Wd : World W)
    (D : pystr -> parsed_feed) (file : option pystr) (w : W) :
  feeds_fixed D ->
  Forall (tweet_event_ok (in_feeds D FEEDS)) (trace (snd (run_bot file w))).
Proof.
  intros Hfix. unfold run_bot.
  destruct (run_bot_on_fields FEEDS file w) as (_ & _ & _ & -> & _).
  apply (feed_loop_tweets D FEEDS FEEDS); [exact Hfix | auto | constructor].
Qed.

Lemma run_bot_tweets_relevant_entries_witness :
  let Wd := counting_world two_feeds 0 in
  @feeds_fixed nat Wd two_feeds /\
  Forall (@tweet_event_ok RefLib.lib (in_feeds two_feeds FEEDS))
         (trace (snd (@run_bot RefLib.lib nat Wd None 0%nat))).
Proof.
  intros Wd.
  assert (Hfix : @feeds_fixed nat Wd two_feeds) by (intros url w; reflexivity).
  split; [exact Hfix |].
  exact (run_bot_tweets_relevant_entries RefLib.lib nat Wd two_feeds None 0%nat Hfix).
Defined.

(** X13. A run reads the feeds in their order, each at most once, and
    stops reading at some point of the list; it makes at most 12 attempts
    to publish for each feed it read, so at most 48 in all, however many of
    them fail. *)
Theorem run_bot_work_is_bounded (L : PyLib) (W : Type) (Wd : World W)
    (file : option pystr) (w : W) :
  let tr := trace (snd (run_bot file w)) in
  exists k,
    parsed_urls tr = firstn k FEEDS /\
    (length (attempted_hashes tr) <= 12 * length (parsed_urls tr))%nat /\
    (length (attempted_hashes tr) <= 48)%nat.
Proof.
  intros tr. unfold tr, run_bot.
  destruct (run_bot_on_fields FEEDS file w) as (_ & _ & _ & -> & _).
  destruct (feed_loop_counts FEEDS (RunState w (load_seen file) 0 [] false))
    as (k & Hk & Hp & Ha).
  cbn [trace parsed_urls attempted_hashes flat_map app length] in Hp, Ha.
  change (length FEEDS) with 4%nat in Hk.
  exists k. rewrite Hp. split; [reflexivity |].
  rewrite length_firstn. change (length FEEDS) with 4%nat. lia.
Qed.

(** X14. The loop body makes exactly one attempt to publish for an entry
    that passes the filters and whose fingerprint is not seen, whatever the
    image search and the upload give, and no attempt for any other entry.
    An entry that is filtered out or seen leaves the state as it is; an
    entry that passes the filters and has no fingerprint, because [item_hash]
    raises, ends the run with no call made for it. *)
Theorem process_entry_attempts_once (L : PyLib) (W : Type) (Wd : World W)
    (source : pystr) (e : entry) (st : run_state W) :
  attempted_hashes (trace (process_entry source e st))
  = attempted_hashes (trace st)
    ++ match entry_hash e with
       | Some h => if relevant_entry e && negb (bool_decide (h ∈ seen st))
                   then [h] else []
       | None => []
       end /\
  (relevant_entry e = false \/ (exists h, entry_hash e = Some h /\ h ∈ seen st) ->
   process_entry source e st = st) /\
  (relevant_entry e = true -> entry_hash e = None ->
   process_entry source e st = raise st).
Proof.
  split; [| split; [apply process_entry_skip | apply process_entry_raise]].
  destruct (process_entry_cases source e st)
    as [[E Hskip] | [(Hrel & Hh & E) |
        (Hrel & h & Hh & Hnew & ups & text & m & w1 & _ & Hu & Ht & _)]].
  - rewrite E. destruct Hskip as [Hf | (h & Hh & Hin)].
    + rewrite Hf. cbn [andb]. destruct (entry_hash e); now rewrite app_nil_r.
    + rewrite Hh, (bool_decide_eq_true_2 _ Hin), andb_false_r. now rewrite app_nil_r.
  - rewrite E, Hh. cbn [raise trace]. now rewrite app_nil_r.
  - rewrite Hh, Hrel, (bool_decide_eq_false_2 _ Hnew). cbn [andb negb].
    rewrite Ht, !attempted_hashes_app, Hu. reflexivity.
Qed.

(** X15. With fixed feed data: after a run that returned, stayed below its
    cap and in which no publish failed, a run that starts from the saved
    seen-set returns too, makes no attempt, posts nothing, and saves the same
    set. *)
Theorem rerun_after_clean_run_is_quiet (L : PyLib) (W : Type) (Wd : World W)
    (D : pystr -> parsed_feed) (file : option pystr) (w1 w2 : W) :
  feeds_fixed D ->
  let r1 := run_bot file w1 in
  let r2 := run_bot (fst r1) w2 in
  raised (snd r1) = false ->
  (posted (snd r1) < MAX_POSTS_PER_RUN)%nat ->
  (forall h, In h (attempted_hashes (trace (snd r1))) ->
             In h (posted_hashes (trace (snd r1)))) ->
  raised (snd r2) = false /\
  attempted_hashes (trace (snd r2)) = [] /\
  posted (snd r2) = 0%nat /\
  load_seen (fst r2) = load_seen (fst r1).
Proof.
  intros Hfix r1 r2 Hra Hcap Hok.
  pose proof (run_bot_on_inv FEEDS file w1) as Hinv1.
  fold (run_bot file w1) in Hinv1. fold r1 in Hinv1.
  destruct (run_bot_on_reload FEEDS file w1 Hra) as (Hload & _ & Hval).
  fold (run_bot file w1) in Hload, Hval. fold r1 in Hload, Hval.
  set (st0 := RunState w2 (load_seen (fst r1)) 0 [] false).
  assert (Hq : forall e, in_feeds D FEEDS e ->
             relevant_entry e = false \/
             exists h, entry_hash e = Some h /\ h ∈ seen st0).
  { intros e He. destruct (relevant_entry e) eqn:Hrel; [right | now left].
    cbn [st0 seen]. rewrite Hload.
    assert (Hcov : covered e (snd r1))
      by (apply (run_bot_on_covers D); assumption).
    destruct Hcov as [(h & Hh & [Hin | Ha]) | [Hc | Hr]]; [| | lia | congruence];
      exists h; (split; [exact Hh |]); [exact Hin |].
    rewrite (inv_seen _ _ Hinv1). apply elem_of_union_r, elem_of_list_to_set.
    apply list_elem_of_In. now apply Hok. }
  assert (Hloop : feed_loop FEEDS st0
                  = RunState (replay (map EvParse FEEDS) w2) (load_seen (fst r1)) 0
                             (map EvParse FEEDS) false).
  { rewrite (feed_loop_quiet D FEEDS st0 Hfix Hq eq_refl);
      [reflexivity | cbn; unfold MAX_POSTS_PER_RUN; lia]. }
  assert (Hra2 : raised (snd r2) = false).
  { apply run_bot_on_saves.
    - intros h Hh. apply Hval. now rewrite <- Hload.
    - fold st0. now rewrite Hloop. }
  destruct (run_bot_on_fields FEEDS (fst r1) w2) as (_ & Es2 & Ep2 & Et2 & _).
  fold (run_bot (fst r1) w2) in Es2, Ep2, Et2. fold r2 st0 in Es2, Ep2, Et2.
  rewrite Hloop in Es2, Ep2, Et2. cbn [seen posted trace] in Es2, Ep2, Et2.
  destruct (run_bot_on_reload FEEDS (fst r1) w2 Hra2) as (Hload2 & _).
  fold (run_bot (fst r1) w2) in Hload2. fold r2 in Hload2.
  split; [exact Hra2 |]. split; [| split; [exact Ep2 | now rewrite Hload2, Es2]].
  rewrite Et2, <- attempted_hashes_tweets, tweets_parse. reflexivity.
Qed.

Lemma rerun_after_clean_run_is_quiet_witness :
  let Wd := counting_world two_feeds 0 in
  let r1 := @run_bot RefLib.lib nat Wd None 0%nat in
  let r2 := @run_bot RefLib.lib nat Wd (fst r1) (world (snd r1)) in
  @feeds_fixed nat Wd two_feeds /\ raised (snd r1) = false /\ posted (snd r1) = 1%nat /\
  attempted_hashes (trace (snd r2)) = [].
Proof.
  intros Wd r1 r2.
  assert (Hfix : @feeds_fixed nat Wd two_feeds) by (intros url w; reflexivity).
  split; [exact Hfix |]. split; [vm_compute; reflexivity |].
  split; [vm_compute; reflexivity |].
  refine (proj1 (proj2 (rerun_after_clean_run_is_quiet RefLib.lib nat Wd two_feeds
                   None 0%nat (world (snd r1)) Hfix _ _ _))).
  - vm_compute. reflexivity.
  - vm_compute. lia.
  - vm_compute. tauto.
Defined.

(** ** More on the image resolver *)

Section ImageSources.
Import Re.

Lemma first_enclosure_from_link links r :
  first_enclosure links = Some r ->
  exists l, In l links /\ is_image_enclosure l = true /\ link_href l = r.
Proof.
  induction links as [|l links IH]; [discriminate |].
  cbn [first_enclosure]. fold (is_image_enclosure l).
  destruct (is_image_enclosure l) eqn:El.
  - intros [= <-]. exists l. split; [now left | tauto].
  - intros Hr. destruct (IH Hr) as (l' & Hin & Hl'). exists l'. split; [now right | exact Hl'].
Qed.

(** The groups of a match: each is taken from the text, is not empty when
    the group asks for a character, and is made of characters of its
    class. *)
Lemma match_items_groups (q : char -> bool) its dol caps s caps' r :
  Forall (fun it => match it with
                    | Group n p => (1 <= n)%nat /\ forall c, p c = true -> q c = true
                    | _ => True
                    end) its ->
  match_items its dol caps s = Some (caps', r) ->
  exists new, caps' = caps ++ new /\
    Forall (fun g : pystr => g <> [] /\ forallb q g = true /\
                             exists a b, s = a ++ g ++ b) new.
Proof.
  revert caps s. induction its as [|it its IH]; intros caps s Hits.
  - cbn [match_items]. destruct (dol && negb (at_dollar s)); [discriminate |].
    intros [= <- _]. exists []. now rewrite app_nil_r.
  - inversion Hits as [|? ? Hit Hrest]; subst.
    destruct it as [p | n p | n p]; cbn [match_items].
    + destruct s as [|c s]; [discriminate |]. destruct (p c); [| discriminate].
      intros Hm. destruct (IH caps s Hrest Hm) as (new & -> & Hnew).
      exists new. split; [reflexivity |].
      eapply List.Forall_impl; [| exact Hnew].
      intros g (Hg & Hq & a & b & ->). repeat split; try assumption. now exists (c :: a), b.
    + intros Hg. apply greedy_sound in Hg as (m & s' & -> & _ & _ & Hk).
      destruct (IH caps s' Hrest Hk) as (new & -> & Hnew).
      exists new. split; [reflexivity |].
      eapply List.Forall_impl; [| exact Hnew].
      intros g (Hg & Hq & a & b & ->). repeat split; try assumption.
      exists (m ++ a), b. now rewrite <- app_assoc.
    + intros Hg. apply greedy_sound in Hg as (m & s' & -> & Hm & Hn & Hk).
      cbn [rev app] in Hk. destruct Hit as [H1 Hpq].
      destruct (IH (caps ++ [m]) s' Hrest Hk) as (new & -> & Hnew).
      exists (m :: new). split; [now rewrite <- app_assoc |].
      constructor.
      * split; [destruct m; [simpl in Hn; lia | discriminate] |].
        split; [| now exists [], s'].
        apply forallb_forall. intros c Hc. apply Hpq.
        rewrite forallb_forall in Hm. now apply Hm.
      * eapply List.Forall_impl; [| exact Hnew].
        intros g (Hg & Hq & a & b & ->). repeat split; try assumption.
        exists (m ++ a), b. now rewrite <- app_assoc.
Qed.

Lemma search_suffix pat s caps :
  search pat s = Some caps ->
  exists pre x r, s = pre ++ x /\ match_at pat x = Some (caps, r).
Proof.
  induction s as [|c s IH]; cbn [search].
  - destruct (match_at pat []) as [[caps0 r]|] eqn:E; [| discriminate].
    intros [= <-]. now exists [], [], r.
  - destruct (match_at pat (c :: s)) as [[caps0 r]|] eqn:E.
    + intros [= <-]. now exists [], (c :: s), r.
    + intros Hs. destruct (IH Hs) as (pre & x & r & -> & Hm).
      now exists (c :: pre), x, r.
Qed.
End ImageSources.

(** X16. A non-empty URL in the first entry of [media_content] is the
    result, whatever else the entry holds.  And a non-empty result is always
    one of: that URL, the [href] of a link that is an image enclosure, the
    URL of the first thumbnail, the image found in the first content, or the
    image found in the summary. *)
Theorem extract_image_url_sources (e : entry) :
  (forall m rest, entry_media_content e = Some (m :: rest) ->
                  truthy (media_url m) = true ->
                  extract_image_url e = media_url m) /\
  (forall c u, extract_image_url e = Some (c :: u) ->
     first_media_url (entry_media_content e) = Some (c :: u) \/
     (exists l, In l (default [] (entry_links e)) /\ is_image_enclosure l = true /\
                link_href l = Some (c :: u)) \/
     first_media_url (entry_media_thumbnail e) = Some (c :: u) \/
     content_img (entry_content e) = Some (c :: u) \/
     img_src (or_empty (entry_summary e)) = Some (c :: u)).
Proof.
  split.
  - intros m rest Hm Ht. unfold extract_image_url, first_media_url. rewrite Hm, Ht.
    now destruct (media_url m).
  - intros c u. unfold extract_image_url.
    destruct (first_media_url (entry_media_content e)) as [u1|]; [intros [= ->]; now left |].
    destruct (first_enclosure (default [] (entry_links e))) as [r|] eqn:E2.
    { intros ->. right; left. now apply first_enclosure_from_link. }
    destruct (first_media_url (entry_media_thumbnail e)) as [u3|];
      [intros [= ->]; tauto |].
    destruct (content_img (entry_content e)) as [u4|]; [intros [= ->]; tauto |].
    tauto.
Qed.

(** X17. The image URL that [img_src] finds in an HTML text is a piece of
    that text, is not empty and holds no double quote. *)
Theorem img_src_is_quoted_piece (html g : pystr) :
  img_src html = Some g ->
  g <> [] /\ has 34 g = false /\ exists a b, html = a ++ g ++ b.
Proof.
  unfold img_src. destruct (Re.search IMG_SRC html) as [[|g0 caps]|] eqn:E; try discriminate.
  intros [= ->]. apply search_suffix in E as (pre & x & r & -> & Hm).
  apply (match_items_groups (fun c => negb (c =? 34))) in Hm.
  - destruct Hm as (new & Hnew & Hall). cbn [app] in Hnew. subst new.
    inversion Hall as [|? ? (Hg & Hq & a & b & ->) _]; subst.
    split; [exact Hg |]. split.
    + apply has_false. intros Hin. rewrite forallb_forall in Hq.
      specialize (Hq 34 Hin). discriminate.
    + exists (pre ++ a), b. now rewrite <- app_assoc.
  - cbn. repeat constructor; try lia. auto.
Qed.

Lemma img_src_is_quoted_piece_witness :
  img_src (lit "<p><img alt='x' src=" ++ [34] ++ lit "https://x.com/i.png" ++ [34] ++ lit "></p>")
  = Some (lit "https://x.com/i.png") /\
  has 34 (lit "https://x.com/i.png") = false.
Proof.
  assert (E : img_src (lit "<p><img alt='x' src=" ++ [34] ++ lit "https://x.com/i.png"
                         ++ [34] ++ lit "></p>")
              = Some (lit "https://x.com/i.png")) by reflexivity.
  split; [exact E |].
  exact (proj1 (proj2 (img_src_is_quoted_piece _ _ E))).
Defined.

(** ** The scheme of a URL *)

Section SchemeCase.
Context `{PyLib}.
Import Url.

Lemma scheme_char_facts c :
  is_scheme_char c = true ->
  is_c0_or_space c = false /\ is_unsafe c = false /\ (58 =? c) = false /\
  is_scheme_char (ascii_lower_char c) = true /\
  (is_ascii_alpha c = true -> is_ascii_alpha (ascii_lower_char c) = true) /\
  ascii_lower_char (ascii_lower_char c) = ascii_lower_char c.
Proof.
  intros Hc. pose proof (is_scheme_char_bound c Hc) as Hb.
  set (P := fun c => negb (is_scheme_char c)
    || (negb (is_c0_or_space c) && negb (is_unsafe c) && negb (58 =? c)
        && is_scheme_char (ascii_lower_char c)
        && (negb (is_ascii_alpha c) || is_ascii_alpha (ascii_lower_char c))
        && (ascii_lower_char (ascii_lower_char c) =? ascii_lower_char c))).
  assert (Hall : forallb P (map N.of_nat (seq 0 123)) = true) by reflexivity.
  pose proof (N_range_forallb P 0 123 Hall c (N.le_0_l c) Hb) as Hp.
  unfold P in Hp. rewrite Hc in Hp. cbn [negb orb] in Hp.
  repeat (apply andb_true_iff in Hp as [Hp ?]).
  repeat match goal with
         | Hn : negb _ = true |- _ => apply negb_true_iff in Hn
         end.
  repeat split; try assumption.
  - intros Ha. match goal with
               | Ho : negb (is_ascii_alpha c) || _ = true |- _ =>
                   rewrite Ha in Ho; exact Ho
               end.
  - now apply N.eqb_eq.
Qed.

Lemma remove_unsafe_scheme l :
  forallb is_scheme_char l = true -> remove_unsafe l = l.
Proof.
  unfold remove_unsafe. induction l as [|x l IH]; intros Hl; [reflexivity |].
  cbn in Hl. apply andb_true_iff in Hl as [Hx Hl]. cbn [List.filter].
  destruct (scheme_char_facts x Hx) as (_ & -> & _). cbn [negb]. now rewrite IH.
Qed.

Lemma sanitize_scheme c s rest :
  forallb is_scheme_char (c :: s) = true ->
  sanitize ((c :: s) ++ 58 :: rest) = (c :: s) ++ 58 :: remove_unsafe rest.
Proof.
  intros Hs. unfold sanitize.
  assert (Hc : is_c0_or_space c = false).
  { cbn in Hs. apply andb_true_iff in Hs as [Hc _]. now apply scheme_char_facts in Hc. }
  cbn [app lstrip_by]. rewrite Hc. change (c :: s ++ 58 :: rest) with ((c :: s) ++ 58 :: rest).
  pose proof (remove_unsafe_scheme (c :: s) Hs) as Hf.
  unfold remove_unsafe in *. rewrite List.filter_app, Hf. reflexivity.
Qed.

Lemma split_scheme_of c s rest :
  is_ascii_alpha c = true -> forallb is_scheme_char (c :: s) = true ->
  split_scheme ((c :: s) ++ 58 :: rest) = (ascii_lower (c :: s), rest).
Proof.
  intros Ha Hs. unfold split_scheme. rewrite partition_some.
  - now rewrite Ha, Hs.
  - apply has_false. intros Hin. rewrite forallb_forall in Hs.
    destruct (scheme_char_facts 58 (Hs 58 Hin)) as (_ & _ & E & _). discriminate.
Qed.

Lemma ascii_lower_scheme c s :
  is_ascii_alpha c = true -> forallb is_scheme_char (c :: s) = true ->
  exists c' s', ascii_lower (c :: s) = c' :: s' /\ is_ascii_alpha c' = true /\
                forallb is_scheme_char (c' :: s') = true /\
                ascii_lower (c' :: s') = c' :: s'.
Proof.
  intros Ha Hs. exists (ascii_lower_char c), (ascii_lower s). split; [reflexivity |].
  assert (Hc : is_scheme_char c = true) by (cbn in Hs; now apply andb_true_iff in Hs).
  split; [now apply (scheme_char_facts c Hc) |]. split.
  - change (ascii_lower_char c :: ascii_lower s) with (ascii_lower (c :: s)).
    unfold ascii_lower. rewrite forallb_forall in Hs |- *. intros x Hx.
    apply in_map_iff in Hx as (y & <- & Hy). now apply (scheme_char_facts y (Hs y Hy)).
  - change (ascii_lower_char c :: ascii_lower s) with (ascii_lower (c :: s)).
    unfold ascii_lower. rewrite map_map. apply map_ext_in. intros y Hy.
    rewrite forallb_forall in Hs. now apply (scheme_char_facts y (Hs y Hy)).
Qed.

Lemma normalize_url_scheme_case c s rest :
  is_ascii_alpha c = true -> forallb is_scheme_char (c :: s) = true ->
  urlparse ((c :: s) ++ 58 :: rest) <> None ->
  normalize_url (ascii_lower (c :: s) ++ 58 :: rest)
  = normalize_url ((c :: s) ++ 58 :: rest).
Proof.
  intros Ha Hs Hok. apply urlparse_ok in Hok. revert Hok. rewrite !normalize_url_of.
  destruct (ascii_lower_scheme c s Ha Hs) as (c' & s' & E & Ha' & Hs' & Hl').
  rewrite E. rewrite !sanitize_scheme by assumption.
  unfold split_clean. rewrite !split_scheme_of by assumption. rewrite Hl', E.
  destruct (split_netloc (remove_unsafe rest)) as [[n url] ok].
  destruct ok; [reflexivity | contradiction].
Qed.
End SchemeCase.

(** X18. For a URL with a scheme that [urlparse] accepts, the normalized
    URL, and so the fingerprint, does not depend on the case of the letters
    of the scheme. *)
Theorem fingerprint_ignores_scheme_case (L : PyLib)
    (title : option pystr) (c : N) (s rest : pystr) :
  Url.is_ascii_alpha c = true -> forallb Url.is_scheme_char (c :: s) = true ->
  Url.urlparse ((c :: s) ++ 58 :: rest) <> None ->
  normalize_url (ascii_lower (c :: s) ++ 58 :: rest)
  = normalize_url ((c :: s) ++ 58 :: rest) /\
  item_hash title (ascii_lower (c :: s) ++ 58 :: rest)
  = item_hash title ((c :: s) ++ 58 :: rest).
Proof.
  intros Ha Hs Hok. unfold item_hash.
  rewrite (normalize_url_scheme_case c s rest Ha Hs Hok). tauto.
Qed.

Lemma fingerprint_ignores_scheme_case_witness :
  @item_hash RefLib.lib (Some (lit "Patriots win")) (lit "https://x.com/a")
  = @item_hash RefLib.lib (Some (lit "Patriots win")) (lit "HTTPS://x.com/a").
Proof.
  refine (proj2 (fingerprint_ignores_scheme_case RefLib.lib (Some (lit "Patriots win"))
                   72 (lit "TTPS") (lit "//x.com/a") _ _ _)).
  - reflexivity.
  - reflexivity.
  - vm_compute. discriminate.
Defined.

(** ** When [item_hash] returns *)

Section NormalizeChars.
Context `{PyLib}.
Import Url.

(** A character beyond [z] that is not in the URL is not in the normalized
    URL: the scheme, the location and the path are pieces of the URL, the
    scheme in lower case. *)
Lemma split_scheme_chars v c :
  123 <= c -> has c v = false ->
  has c (fst (split_scheme v)) = false /\ has c (snd (split_scheme v)) = false.
Proof.
  intros Hc Hv. split.
  - unfold split_scheme.
    destruct (partition 58 v) as [[|x before] [after|]]; try reflexivity.
    destruct (is_ascii_alpha x && forallb is_scheme_char (x :: before)) eqn:E;
      [| reflexivity].
    apply andb_true_iff in E as [_ Hs]. cbn [fst]. apply has_false. intros Hin.
    unfold ascii_lower in Hin. apply in_map_iff in Hin as (y & Hy & Hin).
    rewrite forallb_forall in Hs.
    destruct (scheme_char_facts y (Hs y Hin)) as (_ & _ & _ & Hl & _).
    apply is_scheme_char_bound in Hl. rewrite Hy in Hl. lia.
  - destruct (split_scheme_suffix v) as [m Hm]. rewrite Hm in Hv. eapply has_suffix, Hv.
Qed.

Lemma split_netloc_chars w c :
  has c w = false ->
  has c (fst (fst (split_netloc w))) = false /\
  has c (snd (fst (split_netloc w))) = false.
Proof.
  intros Hw. unfold split_netloc. destruct (starts_slashes w) eqn:Hs.
  - destruct w as [|x [|y w]]; try discriminate. cbn [skipn]. rewrite skipn_O.
    pose proof (until_delim_parts w) as Hp.
    destruct (until_delim w) as [n rest]. cbn [fst snd] in *.
    assert (Hw' : has c w = false).
    { change (x :: y :: w) with ([x; y] ++ w) in Hw. eapply has_suffix, Hw. }
    rewrite Hp, has_app in Hw'. now apply orb_false_iff in Hw'.
  - cbn [fst snd]. split; [reflexivity | exact Hw].
Qed.

Lemma path_of_chars url c : has c url = false -> has c (path_of url) = false.
Proof.
  intros Hu. unfold path_of.
  destruct (partition_fst_prefix 35 url) as [r Hr].
  destruct (partition_fst_prefix 63 (fst (partition 35 url))) as [r' Hr'].
  rewrite Hr in Hu. apply has_prefix in Hu. rewrite Hr' in Hu. eapply has_prefix, Hu.
Qed.

Lemma split_clean_chars v x c :
  123 <= c -> has c v = false -> split_clean v = Some x ->
  has c (scheme x) = false /\ has c (netloc x) = false /\ has c (path x) = false.
Proof.
  intros Hc Hv. unfold split_clean.
  destruct (split_scheme_chars v c Hc Hv) as [Hs Hw].
  destruct (split_scheme v) as [sch w]. cbn [fst snd] in Hs, Hw.
  destruct (split_netloc_chars w c Hw) as [Hn Hr].
  destruct (split_netloc w) as [[n rest] ok]. cbn [fst snd] in Hn, Hr.
  destruct ok; [| discriminate]. intros [= <-]. cbn [scheme netloc path].
  split; [exact Hs |]. split; [exact Hn |]. now apply path_of_chars.
Qed.

Lemma normalize_url_chars u c :
  123 <= c -> has c u = false -> has c (normalize_url u) = false.
Proof.
  intros Hc Hu. rewrite normalize_url_of.
  destruct (split_clean (sanitize u)) as [x|] eqn:E; [| exact Hu].
  destruct (split_clean_chars _ x c Hc (has_sanitize _ _ Hu) E) as (Hs & Hn & Hp).
  assert (Hl : has c (lit "://") = false).
  { apply has_false. cbn. intros [E1 | [E1 | [E1 | []]]]; lia. }
  apply has_rstrip_by. now rewrite !has_app, Hs, Hl, Hn, (path_and_params_chars _ _ _ Hp).
Qed.

Lemma valid_has s :
  Utf8.valid s = true <-> forall c, Utf8.is_surrogate c = true -> has c s = false.
Proof.
  rewrite valid_In. split.
  - intros Hs c Hc. apply has_false. intros Hin. rewrite (Hs c Hin) in Hc. discriminate.
  - intros Hs c Hin. destruct (Utf8.is_surrogate c) eqn:E; [| reflexivity].
    specialize (Hs c E). apply has_false in Hs. contradiction.
Qed.

Lemma normalize_url_valid u :
  Utf8.valid u = true -> Utf8.valid (normalize_url u) = true.
Proof.
  rewrite !valid_has. intros Hu c Hc. apply normalize_url_chars; [| now apply Hu].
  unfold Utf8.is_surrogate in Hc. apply andb_true_iff in Hc as [Hc _].
  apply N.leb_le in Hc. lia.
Qed.
End NormalizeChars.

(** X5. [item_hash] returns exactly when the normalized URL and the
    lowered, stripped title hold no lone surrogate (a code point from U+D800
    to U+DFFF), and raises [UnicodeEncodeError] otherwise; a URL without a
    lone surrogate has a normalized URL without one.  The fingerprint it
    returns is 64 characters, each a digit or a letter from [a] to [f]; for
    the title [' Patriots WIN '] and the URL [https://x.com/a/?ref=1#top] it
    is the SHA-256 of [https://x.com/a|patriots win], under the ASCII rule of
    [str.lower]. *)
Theorem item_hash_is_64_hex (L : PyLib) (title : option pystr) (url : pystr) :
  (item_hash title url <> None <->
   Utf8.valid (normalize_url url) = true /\
   Utf8.valid (str_lower (strip (or_empty title))) = true) /\
  (Utf8.valid url = true -> Utf8.valid (normalize_url url) = true) /\
  (forall c, Utf8.encode [c] = None <-> 55296 <= c <= 57343) /\
  (forall h, item_hash title url = Some h ->
     length h = 64%nat /\ forallb is_hex_char h = true) /\
  (lower_ascii_ok L ->
   item_hash (Some (lit " Patriots WIN ")) (lit "https://x.com/a/?ref=1#top")
   = Some (lit "1f53d5f48c5872ed1f55232e5035e5335c907e15fe16e14dbc0145d918c19b84")).
Proof.
  split; [| split; [apply normalize_url_valid | split; [| split]]].
  - unfold item_hash, Utf8.encode. rewrite !valid_app.
    destruct (Utf8.valid (normalize_url url)),
             (Utf8.valid (str_lower (strip (or_empty title))));
      cbn; split; try discriminate; try tauto; intros [? ?]; discriminate.
  - intros c. unfold Utf8.encode, Utf8.valid, Utf8.is_surrogate. cbn [forallb].
    rewrite andb_true_r.
    destruct (N.leb_spec 55296 c), (N.leb_spec c 57343); cbn;
      split; try discriminate; try reflexivity; lia.
  - intros h Hh. apply item_hash_some in Hh as [msg ->].
    split; [apply hexdigest_length | apply hexdigest_is_hex].
  - intros Hlower. unfold item_hash.
    rewrite (Hlower (strip (or_empty (Some (lit " Patriots WIN "))))) by reflexivity.
    vm_compute. reflexivity.
Qed.

(** ** A run that an exception ends *)

(** X19. An exception in the loop body ends the inner loop at once, with
    the state the body left.  A run over a decoded [seen.txt] that raises
    has not reached [save_seen]: the file is as it was, so the fingerprints of
    the tweets the run posted before the exception are not in the store. *)
Theorem raise_ends_run (L : PyLib) (W : Type) (Wd : World W) :
  (forall source e es (st : run_state W),
      (posted st < MAX_POSTS_PER_RUN)%nat ->
      raised (process_entry source e st) = true ->
      entry_loop source (e :: es) st = process_entry source e st) /\
  (forall (file : option pystr) (w : W),
      let r := run_bot file w in
      decoded file = true -> raised (snd r) = true ->
      fst r = file /\
      forall h, In h (posted_hashes (trace (snd r))) -> h ∉ load_seen (fst r)).
Proof.
  split.
  - intros source e es st Hlt Hra. cbn [entry_loop].
    apply Nat.leb_gt in Hlt. now rewrite Hlt, Hra.
  - intros file w r Hdec Hra.
    pose proof (run_bot_on_inv FEEDS file w) as Hinv.
    fold (run_bot file w) in Hinv. fold r in Hinv.
    assert (E : fst r = file).
    { unfold r, run_bot in *.
      destruct (raised (feed_loop FEEDS (RunState w (load_seen file) 0 [] false))) eqn:Hl.
      - destruct (run_bot_on_cases FEEDS file w) as [[_ ->] | [(Hr & _) | (Hr & _)]];
          [reflexivity | congruence | congruence].
      - rewrite run_bot_on_saves in Hra; [discriminate | | exact Hl].
        intros h. now apply load_seen_valid. }
    split; [exact E |]. rewrite E. intros h Hh.
    apply (inv_fresh _ _ Hinv). now apply posted_in_attempted.
Qed.

Lemma raise_ends_run_witness :
  let Wd := counting_world surrogate_title 0 in
  let r := @run_bot RefLib.lib nat Wd None 0%nat in
  decoded None = true /\ raised (snd r) = true /\
  parsed_urls (trace (snd r)) = [lit "https://www.patspulpit.com/rss/index.xml"] /\
  map Some (attempted_hashes (trace (snd r)))
  = [@entry_hash RefLib.lib (plain_entry (lit "Patriots one") (lit "https://x.com/1"))] /\
  posted (snd r) = 1%nat /\ world (snd r) = 1%nat /\ fst r = None.
Proof.
  intros Wd r.
  assert (Hra : raised (snd r) = true) by (vm_compute; reflexivity).
  split; [reflexivity |]. split; [exact Hra |].
  do 4 (split; [vm_compute; reflexivity |]).
  exact (proj1 (proj2 (raise_ends_run RefLib.lib nat Wd) None 0%nat eq_refl Hra)).
Defined.
